(** * Migration dashboard: outage recording, history reconciliation, clear

    A shallow embedding of the core of the three programs of the repository:

    - [bastion-peer/bastion-client.py], the external observer: the routes
      read by [load_config], its probers, [log_disconnection_event],
      [_is_after_cutoff], the reconciliation loop [poll_peer_status_task],
      [handle_clear_history] with its fan-out, and the supervisor
      [run_probes];
    - [ocp-peer/app.py], the in-cluster agent: its list of peers,
      [record_outage], its three client tasks, and [handle_http] from the
      request line to the routes;
    - [dashboard/dashboard.py], the observer without history: its probers
      and its poller;
    - the Python primitives those functions rely on ([round], [datetime],
      list slices, [list.sort], [str.split], [str.splitlines],
      [str.strip]).

    Definitions come first, module by module; the statements proved about
    them follow in the second half of the file. *)

From Stdlib Require Import ZArith Lia Bool Ascii String List Sorted Permutation.
From Stdlib Require OrderedTypeEx.
From stdpp Require Import base decidable option list strings gmap sorting
  pretty.

#[local] Open Scope string_scope.
#[local] Open Scope Z_scope.

(** ** Python primitives *)

Module Py.

(** *** Truthiness and [or] on optional strings

    [d.get(k)] is [None] when the key is missing or holds JSON [null];
    [None] and the empty string are the falsy values that occur. *)

Definition truthy (v : option string) : bool :=
  match v with
  | Some s => negb (String.eqb s "")
  | None => false
  end.

Definition or_ (a b : option string) : option string :=
  if truthy a then a else b.

(** [v or ""] as used for the sort key. *)
Definition or_empty (v : option string) : string :=
  match or_ v (Some "") with
  | Some s => s
  | None => ""
  end.

(** *** Slices

    [clamp_index n len] is the position a slice bound [n] denotes in a list
    of length [len]: negative bounds count from the end, and everything is
    clamped to [0 .. len]. *)

Definition clamp_index (n : Z) (len : nat) : nat :=
  if n <? 0 then Z.to_nat (Z.max 0 (Z.of_nat len + n))
  else Nat.min (Z.to_nat n) len.

(** [del l[n:]] *)
Definition del_from {A} (n : Z) (l : list A) : list A :=
  take (clamp_index n (length l)) l.

(** [l[n:]] *)
Definition slice_from {A} (n : Z) (l : list A) : list A :=
  drop (clamp_index n (length l)) l.

(** *** [list.sort(key=..., reverse=True)]

    Python's sort is stable, and stays stable under [reverse=True]: records
    with equal keys keep their original relative order.  The result is
    therefore the one that inserting the elements from the right produces,
    each new element going in front of the first element whose key is not
    greater than its own. *)

(** the order [<=] of [str], by code point *)
Definition str_le (a b : string) : Prop := String.leb a b = true.

Section Sort.
Context {A : Type} (key : A -> string).

Fixpoint insert_desc (x : A) (l : list A) : list A :=
  match l with
  | [] => [x]
  | y :: r =>
      if String.leb (key y) (key x) then x :: y :: r
      else y :: insert_desc x r
  end.

Fixpoint sort_desc (l : list A) : list A :=
  match l with
  | [] => []
  | x :: r => insert_desc x (sort_desc r)
  end.

(** [x] may stand before [y] in descending order of the key *)
Definition desc (x y : A) : Prop := str_le (key y) (key x).
End Sort.

(** *** [float] and [round(x, 2)]

    A finite binary64 value is [mant * 2 ^ expo].  [true_divide n d] is the
    correctly rounded quotient of two integers, which is how
    [timedelta.total_seconds()] obtains its result from the microsecond
    count; [round2] is [round(x, 2)], correctly rounded to the nearest
    hundredth with ties going to the even neighbour.  The float that
    [round] returns is the double nearest to [k / 100]; it is represented
    here by the integer [k]. *)

Record float := { mant : Z; expo : Z }.

(** nearest integer to [n / d] for [d > 0], ties to even *)
Definition div_half_even (n d : Z) : Z :=
  let q := n / d in
  let r := n mod d in
  if 2 * r <? d then q
  else if d <? 2 * r then q + 1
  else if Z.even q then q else q + 1.

(** [n / d] for [n > 0] and [d > 0], to 53 significant bits *)
Definition true_divide_pos (n d : Z) : float :=
  let e0 := Z.log2 n - Z.log2 d - 53 in
  let scaled e := if 0 <=? e then (n, d * 2 ^ e) else (n * 2 ^ (- e), d) in
  let '(n0, d0) := scaled e0 in
  let e := if n0 <? d0 * 2 ^ 53 then e0 else e0 + 1 in
  let '(n1, d1) := scaled e in
  {| mant := div_half_even n1 d1; expo := e |}.

Definition true_divide (n d : Z) : float :=
  if n =? 0 then {| mant := 0; expo := 0 |}
  else
    let f := true_divide_pos (Z.abs n) d in
    {| mant := Z.sgn n * mant f; expo := expo f |}.

(** hundredths of [round(x, 2)] *)
Definition round2 (x : float) : Z :=
  if 0 <=? expo x then mant x * 2 ^ expo x * 100
  else div_half_even (mant x * 100) (2 ^ (- expo x)).

(** [timedelta(microseconds=us).total_seconds()] *)
Definition total_seconds (us : Z) : float := true_divide us 1000000.

(** *** [datetime]

    A [datetime] holds its calendar fields; [tzinfo] is the UTC offset in
    seconds, [None] for a naive value. *)

Record datetime := {
  year : Z; month : Z; day : Z;
  hour : Z; minute : Z; second : Z; microsecond : Z;
  tzinfo : option Z
}.

Definition is_leap (y : Z) : bool :=
  (y mod 4 =? 0) && (negb (y mod 100 =? 0) || (y mod 400 =? 0)).

Definition days_before_year (y : Z) : Z :=
  let p := y - 1 in p * 365 + p / 4 - p / 100 + p / 400.

Definition days_in_month (y m : Z) : Z :=
  if m =? 2 then (if is_leap y then 29 else 28)
  else if (m =? 4) || (m =? 6) || (m =? 9) || (m =? 11) then 30
  else 31.

Fixpoint days_before_month_aux (y : Z) (k : nat) : Z :=
  match k with
  | O => 0
  | S k' => days_before_month_aux y k' + days_in_month y (Z.of_nat k)
  end.

(** days in the year before the first day of month [m] *)
Definition days_before_month (y m : Z) : Z :=
  days_before_month_aux y (Z.to_nat (m - 1)).

(** proleptic Gregorian ordinal, 0001-01-01 being day 1 *)
Definition ymd2ord (y m d : Z) : Z :=
  days_before_year y + days_before_month y m + d.

(** microseconds of the local wall time since the start of day 0 *)
Definition wall_micros (t : datetime) : Z :=
  (((ymd2ord (year t) (month t) (day t) * 24 + hour t) * 60 + minute t) * 60
     + second t) * 1000000 + microsecond t.

(** the instant in UTC of an aware value with offset [off] *)
Definition utc_micros (t : datetime) (off : Z) : Z :=
  wall_micros t - off * 1000000.

(** [a - b] in microseconds; [None] is the [TypeError] raised when one
    operand is naive and the other aware. *)
Definition sub (a b : datetime) : option Z :=
  match tzinfo a, tzinfo b with
  | Some oa, Some ob => Some (utc_micros a oa - utc_micros b ob)
  | None, None => Some (wall_micros a - wall_micros b)
  | _, _ => None
  end.

(** [a >= b]; [None] is the same [TypeError]. *)
Definition ge (a b : datetime) : option bool :=
  match sub a b with
  | Some d => Some (0 <=? d)
  | None => None
  end.

(** *** [datetime.isoformat()] *)

Definition digit (n : Z) : ascii := ascii_of_N (48 + Z.to_N (n mod 10)).

(** the last [k] decimal digits of [n], zero padded *)
Fixpoint zpad (k : nat) (n : Z) : string :=
  match k with
  | O => ""
  | S k' => zpad k' (n / 10) +:+ String (digit n) ""
  end.

Definition format_offset (off : Z) : string :=
  let a := Z.abs off in
  (if off <? 0 then "-" else "+")
    +:+ zpad 2 (a / 3600) +:+ ":" +:+ zpad 2 (a / 60 mod 60)
    +:+ (if a mod 60 =? 0 then "" else ":" +:+ zpad 2 (a mod 60)).

Definition isoformat (t : datetime) : string :=
  zpad 4 (year t) +:+ "-" +:+ zpad 2 (month t) +:+ "-" +:+ zpad 2 (day t)
    +:+ "T" +:+ zpad 2 (hour t) +:+ ":" +:+ zpad 2 (minute t) +:+ ":"
    +:+ zpad 2 (second t)
    +:+ (if microsecond t =? 0 then "" else "." +:+ zpad 6 (microsecond t))
    +:+ match tzinfo t with
       | Some off => format_offset off
       | None => ""
       end.

(** *** [datetime.fromisoformat]

    The parser is a parameter of the development: [None] stands for the
    exception it raises on a string it rejects. *)

Class IsoParser := fromisoformat : string -> option datetime.

(** A parser for the spelling that [isoformat] emits,
    [YYYY-MM-DDTHH:MM:SS[.ffffff][+HH:MM]], used to run the model on
    concrete timestamps.  The library function accepts further spellings of
    ISO 8601; every general statement below holds for any parser. *)

Definition digit_val (c : ascii) : option Z :=
  let n := Z.of_N (N_of_ascii c) in
  if (48 <=? n) && (n <=? 57) then Some (n - 48) else None.

(** reads exactly [k] digits *)
Fixpoint read_digits (k : nat) (acc : Z) (s : string) : option (Z * string) :=
  match k with
  | O => Some (acc, s)
  | S k' =>
      match s with
      | String c r =>
          match digit_val c with
          | Some v => read_digits k' (acc * 10 + v) r
          | None => None
          end
      | EmptyString => None
      end
  end.

Definition expect (c : ascii) (s : string) : option string :=
  match s with
  | String c' r => if Ascii.eqb c c' then Some r else None
  | EmptyString => None
  end.

Definition read_fraction (s : string) : option (Z * string) :=
  match s with
  | String "." r => read_digits 6 0 r
  | _ => Some (0, s)
  end.

Definition read_offset (s : string) : option (option Z) :=
  match s with
  | EmptyString => Some None
  | String c r =>
      let sign := if Ascii.eqb c "+" then Some 1
                  else if Ascii.eqb c "-" then Some (-1) else None in
      match sign with
      | None => None
      | Some sg =>
          '(hh, r1) ← read_digits 2 0 r;
          r2 ← expect ":" r1;
          '(mm, r3) ← read_digits 2 0 r2;
          if String.eqb r3 "" && (hh <? 24) && (mm <? 60)
          then Some (Some (sg * (hh * 3600 + mm * 60)))
          else None
      end
  end.

Definition fromisoformat_canonical (s : string) : option datetime :=
  '(y, s1) ← read_digits 4 0 s;
  s2 ← expect "-" s1;
  '(m, s3) ← read_digits 2 0 s2;
  s4 ← expect "-" s3;
  '(d, s5) ← read_digits 2 0 s4;
  s6 ← expect "T" s5;
  '(hh, s7) ← read_digits 2 0 s6;
  s8 ← expect ":" s7;
  '(mi, s9) ← read_digits 2 0 s8;
  s10 ← expect ":" s9;
  '(ss, s11) ← read_digits 2 0 s10;
  '(us, s12) ← read_fraction s11;
  off ← read_offset s12;
  if (1 <=? y) && (1 <=? m) && (m <=? 12) && (1 <=? d)
     && (d <=? days_in_month y m) && (hh <? 24) && (mi <? 60) && (ss <? 60)
  then Some {| year := y; month := m; day := d; hour := hh; minute := mi;
               second := ss; microsecond := us; tzinfo := off |}
  else None.


(** *** Readings of the clock

    The calendar fields [datetime] accepts, with a four-digit year. *)

Definition valid_date (y m d : Z) : Prop :=
  1 <= m <= 12 /\ 1 <= d <= days_in_month y m.

Definition valid_reading (t : datetime) : Prop :=
  1 <= year t <= 9999 /\ valid_date (year t) (month t) (day t) /\
  0 <= hour t < 24 /\ 0 <= minute t < 60 /\ 0 <= second t < 60 /\
  0 <= microsecond t < 1000000.

(** *** [str.splitlines] and [str.split]

    A text is held, as every string here, by its UTF-8 bytes; the text of
    an environment variable, in which Python escapes each undecodable byte
    as one character that is no white space, by the bytes of the variable.
    The bytes of an entry of the two tables below occur in such a text at
    the boundaries of characters only: the first byte of each entry is no
    continuation byte, and the decoder starts a character at it. *)

Fixpoint starts_with (p : list N) (s : string) : bool :=
  match p, s with
  | [], _ => true
  | b :: p', String c s' => (b =? N_of_ascii c)%N && starts_with p' s'
  | _ :: _, EmptyString => false
  end.

(** the line boundaries of [splitlines]: \n \v \f \r \x1c \x1d \x1e,
    U+0085, U+2028 and U+2029 *)
Definition line_boundaries : list (list N) :=
  [[0x0a]; [0x0b]; [0x0c]; [0x0d]; [0x1c]; [0x1d]; [0x1e];
   [0xc2; 0x85]; [0xe2; 0x80; 0xa8]; [0xe2; 0x80; 0xa9]]%N.

(** the characters [str.isspace] accepts, which [split] without argument
    splits at: \t \n \v \f \r, \x1c to \x1f, the space, U+0085, U+00A0,
    U+1680, U+2000 to U+200A, U+2028, U+2029, U+202F, U+205F, U+3000 *)
Definition whitespace : list (list N) :=
  [[0x09]; [0x0a]; [0x0b]; [0x0c]; [0x0d]; [0x1c]; [0x1d]; [0x1e]; [0x1f];
   [0x20]; [0xc2; 0x85]; [0xc2; 0xa0]; [0xe1; 0x9a; 0x80];
   [0xe2; 0x80; 0x80]; [0xe2; 0x80; 0x81]; [0xe2; 0x80; 0x82];
   [0xe2; 0x80; 0x83]; [0xe2; 0x80; 0x84]; [0xe2; 0x80; 0x85];
   [0xe2; 0x80; 0x86]; [0xe2; 0x80; 0x87]; [0xe2; 0x80; 0x88];
   [0xe2; 0x80; 0x89]; [0xe2; 0x80; 0x8a]; [0xe2; 0x80; 0xa8];
   [0xe2; 0x80; 0xa9]; [0xe2; 0x80; 0xaf]; [0xe2; 0x81; 0x9f];
   [0xe3; 0x80; 0x80]]%N.

(** the number of bytes of the character of [table] at the head of [s],
    0 when there is none *)
Definition char_len (table : list (list N)) (s : string) : nat :=
  match find (fun p => starts_with p s) table with
  | Some p => length p
  | None => 0
  end.

(** the text up to the first line boundary *)
Fixpoint first_line (s : string) : string :=
  match s with
  | "" => ""
  | String c s' =>
      match char_len line_boundaries s with
      | O => String c (first_line s')
      | S _ => ""
      end
  end.

(** [s.splitlines()[0]]: the empty text has no line at all, and the
    index raises *)
Definition splitlines_0 (s : string) : option string :=
  match s with
  | "" => None
  | _ => Some (first_line s)
  end.

Definition emit (word : string) : list string :=
  match word with "" => [] | _ => [word] end.

(** [s.split()]: the maximal runs of characters that are not white space.
    [word] is the run being read, [skip] the bytes left of the white-space
    character being passed. *)
Fixpoint split_from (skip : nat) (word : string) (s : string)
    : list string :=
  match s with
  | "" => emit word
  | String c s' =>
      match skip with
      | S k => split_from k word s'
      | O =>
          match char_len whitespace s with
          | O => split_from 0 (word +:+ String c "") s'
          | S k => (emit word ++ split_from k "" s')%list
          end
      end
  end.

Definition split (s : string) : list string := split_from 0 "" s.

(** *** [str.split(sep)] and [str.strip] *)

(** [s.split(sep)] for a separator of one ASCII character *)
Fixpoint split_sep_from (sep : ascii) (word : string) (s : string)
    : list string :=
  match s with
  | "" => [word]
  | String c s' =>
      if Ascii.eqb c sep then word :: split_sep_from sep "" s'
      else split_sep_from sep (word +:+ String c "") s'
  end.

Definition split_sep (sep : ascii) (s : string) : list string :=
  split_sep_from sep "" s.

Fixpoint drop_bytes (n : nat) (s : string) : string :=
  match n, s with
  | S n, String _ s' => drop_bytes n s'
  | _, _ => s
  end.

(** [s.strip()] removes the white space at both ends.  The text after the white-space character at the head of [s] *)
Definition after_space (s : string) : option string :=
  match char_len whitespace s with
  | O => None
  | S k => Some (drop_bytes (S k) s)
  end.

Fixpoint lstrip_fuel (n : nat) (s : string) : string :=
  match n with
  | O => s
  | S n =>
      match after_space s with
      | Some r => lstrip_fuel n r
      | None => s
      end
  end.

Definition lstrip (s : string) : string := lstrip_fuel (String.length s) s.

Fixpoint rstrip (s : string) : string :=
  match s with
  | "" => ""
  | String c s' =>
      match lstrip s with
      | "" => ""
      | _ => String c (rstrip s')
      end
  end.

Definition strip (s : string) : string := rstrip (lstrip s).

(** [n] spaces *)
Fixpoint blank (n : nat) : string :=
  match n with
  | O => ""
  | S n => String " " (blank n)
  end.

(** *** Words in printable ASCII *)

Definition graphic_char (c : ascii) : bool :=
  ((0x21 <=? N_of_ascii c) && (N_of_ascii c <=? 0x7e))%N.

Fixpoint graphic (s : string) : bool :=
  match s with
  | "" => true
  | String c s' => graphic_char c && graphic s'
  end.

(** a word: printable ASCII without the space, and not empty *)
Definition is_word (s : string) : bool :=
  graphic s && negb (String.eqb s "").

Definition CRLF : string := String "013" (String "010" "").

End Py.

(** ** JSON values

    What [json.loads] makes of a document.  A number is an [int] of any
    size or a [float]: a finite binary64 value [m * 2 ^ e], an infinity
    (the literal [Infinity], or a literal too large), or the [NaN] object
    of the decoder.  [True] and [False] behave as the integers 1 and 0 in
    every operation the programs apply to a field. *)

Inductive number :=
| Int (z : Z)
| Float (m e : Z)
| Infinity (negative : bool)
| NaN.

#[global] Instance number_eq_dec : EqDecision number.
Proof. solve_decision. Defined.

#[local] Set Warnings "-register-all".
Inductive json :=
| JNull
| JBool (b : bool)
| JNum (n : number)
| JStr (s : string)
| JArr (l : list json)
| JObj (l : list (string * json)).
#[local] Set Warnings "register-all".

#[global] Instance json_eq_dec : EqDecision json.
Proof.
  refine (fix go (a b : json) {struct a} : Decision (a = b) :=
    match a, b with
    | JNull, JNull => left eq_refl
    | JBool x, JBool y => cast_if (decide (x = y))
    | JNum x, JNum y => cast_if (decide (x = y))
    | JStr x, JStr y => cast_if (decide (x = y))
    | JArr x, JArr y =>
        cast_if ((fix gol (x y : list json) {struct x} : Decision (x = y) :=
           match x, y with
           | [], [] => left eq_refl
           | a :: x', b :: y' => cast_if_and (go a b) (gol x' y')
           | _, _ => right _
           end) x y)
    | JObj x, JObj y =>
        cast_if ((fix gol (x y : list (string * json)) {struct x}
                   : Decision (x = y) :=
           match x, y with
           | [], [] => left eq_refl
           | (k, a) :: x', (k', b) :: y' =>
               cast_if_and3 (decide (k = k')) (go a b) (gol x' y')
           | _, _ => right _
           end) x y)
    | _, _ => right _
    end); congruence.
Defined.

(** ** Outage records

    Both programs build an outage record as a dict with the keys below and
    exchange it as JSON.  The records an observer fetches from a peer are
    whatever the peer's document holds: a key is absent, or holds [null], a
    string, or another value ([Other]: a boolean, a number, an array or an
    object).  [duration_sec] is the number of hundredths of a second that
    [round] produced; the observer carries the [duration_sec] of a record
    it fetched along without reading it, as it does every key that is not
    listed here. *)

(** a JSON value that is neither [null] nor a string *)
Inductive other :=
| OBool (b : bool)
| ONum (n : number)
| OArr (l : list json)
| OObj (l : list (string * json)).

Inductive field := Absent | Null | Str (s : string) | Other (v : other).

(** what [d.get(k)] returns when it is not [None] *)
Inductive value := VStr (s : string) | VOther (v : other).

(** [dict.get]: [None] for an absent key and for [null] *)
Definition get (f : field) : option value :=
  match f with
  | Str s => Some (VStr s)
  | Other v => Some (VOther v)
  | Absent | Null => None
  end.

Record event := {
  name : field;
  protocol : field;
  start_time : field;
  end_time : field;
  duration_sec : option Z;
  source : field;
  reporter : field
}.

#[global] Instance other_eq_dec : EqDecision other.
Proof. solve_decision. Defined.

#[global] Instance field_eq_dec : EqDecision field.
Proof. solve_decision. Defined.

#[global] Instance value_eq_dec : EqDecision value.
Proof. solve_decision. Defined.

#[global] Instance event_eq_dec : EqDecision event.
Proof. solve_decision. Defined.

(** *** Truth values

    [None], [False], a zero, and an empty string, array or object are
    false; every other value is true, [NaN] included. *)

Definition truthy_number (n : number) : bool :=
  match n with
  | Int z => negb (z =? 0)
  | Float m _ => negb (m =? 0)
  | Infinity _ | NaN => true
  end.

Definition truthy_other (v : other) : bool :=
  match v with
  | OBool b => b
  | ONum n => truthy_number n
  | OArr l => match l with [] => false | _ :: _ => true end
  | OObj l => match l with [] => false | _ :: _ => true end
  end.

Definition truthy_value (v : option value) : bool :=
  match v with
  | None => false
  | Some (VStr s) => negb (String.eqb s "")
  | Some (VOther o) => truthy_other o
  end.

(** [a or b] *)
Definition or_value (a b : option value) : option value :=
  if truthy_value a then a else b.

(** *** The composite key

    [known] is a set of tuples and [key not in known] looks a tuple up in
    it: both hash the six values of the tuple.  An array or an object has
    no hash, and the attempt raises [TypeError]; two numbers are the same
    key exactly when they are equal as numbers, whatever their types, so
    that [1], [1.0] and [True] are one key; the decoder's [NaN] is one
    object and the same key as itself.  A number is therefore kept in the
    key by its value [m * 2 ^ e] with [m] odd, or [0 * 2 ^ 0]. *)

Inductive numkey := Fin (m e : Z) | Inf (negative : bool) | Nan.

Fixpoint odd_part (p : positive) : positive :=
  match p with
  | xO q => odd_part q
  | _ => p
  end.

Fixpoint twos (p : positive) : Z :=
  match p with
  | xO q => 1 + twos q
  | _ => 0
  end.

Definition fin (m e : Z) : numkey :=
  match m with
  | Z0 => Fin 0 0
  | Zpos p => Fin (Zpos (odd_part p)) (e + twos p)
  | Zneg p => Fin (Zneg (odd_part p)) (e + twos p)
  end.

Definition numkey_of (n : number) : numkey :=
  match n with
  | Int z => fin z 0
  | Float m e => fin m e
  | Infinity s => Inf s
  | NaN => Nan
  end.

Inductive atom := ANone | AStr (s : string) | ANum (k : numkey).

#[global] Instance numkey_eq_dec : EqDecision numkey.
Proof. solve_decision. Defined.

#[global] Instance atom_eq_dec : EqDecision atom.
Proof. solve_decision. Defined.

(** the value as it stands in a hashed tuple; [None] when it has no hash *)
Definition hashed (f : field) : option atom :=
  match f with
  | Absent | Null => Some ANone
  | Str s => Some (AStr s)
  | Other (OBool b) => Some (ANum (fin (if b then 1 else 0) 0))
  | Other (ONum n) => Some (ANum (numkey_of n))
  | Other (OArr _) | Other (OObj _) => None
  end.

(** The tuple both [known] and [key] are built from in
    [poll_peer_status_task], as the set holds it; [None] when hashing it
    raises. *)
Definition composite_key (h : event)
  : option (atom * atom * atom * atom * atom * atom) :=
  a ← hashed (name h);
  b ← hashed (protocol h);
  c ← hashed (start_time h);
  d ← hashed (end_time h);
  e ← hashed (source h);
  f ← hashed (reporter h);
  Some (a, b, c, d, e, f).

Definition hashable (h : event) : bool :=
  match composite_key h with
  | Some _ => true
  | None => false
  end.

(** [ev.setdefault("source", "pod")] *)
Definition setdefault_source (ev : event) : event :=
  match source ev with
  | Absent =>
      {| name := name ev; protocol := protocol ev;
         start_time := start_time ev; end_time := end_time ev;
         duration_sec := duration_sec ev;
         source := Str "pod"; reporter := reporter ev |}
  | Null | Str _ | Other _ => ev
  end.

(** *** The sort key

    [lambda h: h.get("end_time") or ""]: the value of [end_time] when it
    is true, and the empty string otherwise. *)
Definition sort_key (h : event) : value :=
  match or_value (get (end_time h)) (Some (VStr "")) with
  | Some v => v
  | None => VStr ""
  end.

(** the key is a string: [end_time] is a string, or is false *)
Definition text_key (h : event) : bool :=
  match sort_key h with
  | VStr _ => true
  | VOther _ => false
  end.

(** the key when it is a string *)
Definition end_key (h : event) : string :=
  match sort_key h with
  | VStr s => s
  | VOther _ => ""
  end.

(** The reading of the wall clock that [datetime.now(timezone.utc)]
    returns: the calendar fields of the reading, with offset zero. *)
Definition utcnow (clock : Py.datetime) : Py.datetime :=
  {| Py.year := Py.year clock; Py.month := Py.month clock;
     Py.day := Py.day clock; Py.hour := Py.hour clock;
     Py.minute := Py.minute clock; Py.second := Py.second clock;
     Py.microsecond := Py.microsecond clock; Py.tzinfo := Some 0 |}.

Definition now_iso (clock : Py.datetime) : string :=
  Py.isoformat (utcnow clock).

(** the keys of a history, the set [known] of [poll_peer_status_task] *)
Definition keys (l : list event) := map composite_key l.

(** A record has an end time when [end_time] is true: what
    [h.get("end_time") or ""] does not replace. *)
Definition has_end_time (h : event) : Prop :=
  truthy_value (get (end_time h)) = true.



(** ** The observer: bastion-client.py *)

Module Bastion.

Class Config := {
  MAX_HISTORY : Z;
  ROUTE_PEERS : list string
}.

Inductive status := Unknown | Connected | Error.

#[global] Instance status_eq_dec : EqDecision status.
Proof. solve_decision. Defined.

Definition status_str (s : status) : string :=
  match s with
  | Unknown => "unknown"
  | Connected => "connected"
  | Error => "error"
  end.

(** an entry of [STATE["external_tests"]] *)
Record test_entry := {
  te_status : string;
  te_error : string;
  te_last_update : string
}.

(** a coroutine handed to [asyncio.create_task] *)
Inductive task := FanoutClear.

(** The module globals: the three tables of [STATE], the cutoff
    [HISTORY_IGNORE_BEFORE], and the tasks created but not yet run. *)
Record state := {
  external_tests : gmap string test_entry;
  internal_status : gmap string json;
  history : list event;
  HISTORY_IGNORE_BEFORE : option string;
  created_tasks : list task
}.

Definition initial : state :=
  {| external_tests := ∅; internal_status := ∅; history := [];
     HISTORY_IGNORE_BEFORE := None; created_tasks := [] |}.

(** *** [load_config]

    [ROUTE_PEERS] is read from the text of the environment variable, which
    Python holds with the undecodable bytes escaped, one character each:
    the bytes themselves stand for it here.  [MAX_HISTORY] is the integer
    read from its variable. *)

Definition load_route_peers (route_str : string) : list string :=
  omap (fun url =>
          if Py.truthy (Some (Py.strip url)) then Some (Py.strip url)
          else None)
    (Py.split_sep "," route_str).

Definition load_config (max_history : Z) (route_str : string) : Config :=
  {| MAX_HISTORY := max_history;
     ROUTE_PEERS := load_route_peers route_str |}.

(** an entry as it may be written in the variable: the URL with spaces
    around it *)
Definition padded (e : nat * string * nat) : string :=
  Py.blank e.1.1 +:+ e.1.2 +:+ Py.blank e.2.

(** a URL in printable ASCII, without a comma *)
Definition url_text (u : string) : Prop :=
  Py.graphic u = true /\ ~ In ","%char (list_ascii_of_string u).

Definition with_history (l : list event) (st : state) : state :=
  {| external_tests := external_tests st;
     internal_status := internal_status st;
     history := l;
     HISTORY_IGNORE_BEFORE := HISTORY_IGNORE_BEFORE st;
     created_tasks := created_tasks st |}.

(** *** [list.sort(key=lambda h: h.get("end_time") or "", reverse=True)]

    The keys are compared with [<].  Two strings always compare; a string
    and a value of another type do not, and the sort raises [TypeError].  A
    list of fewer than two elements is sorted without a comparison.  When
    every key is a string the list is sorted as [Py.sort_desc] says.  When
    some key is a string and some key is not, the sort raises, for it has
    to compare a string with another value before it can place them; the
    comparison it starts with is the one of the last two elements, so that
    when these are such a pair the list is as it was before the call.
    What a sort that raises later leaves, and what becomes of a list none
    of whose keys is a string (numbers sort, objects do not compare), hangs
    on the order of the comparisons and on the order of the values: it is
    a parameter here, of which only this is used, that the list left holds
    the elements it held. *)

Inductive sort_result :=
| Done (l : list event)
| Raised (l : list event).

(** the list after the call, returned or raised *)
Definition left_by (r : sort_result) : list event :=
  match r with
  | Done l | Raised l => l
  end.

Class ListSort := {
  left_by_failed_sort : list event -> list event;
  sort_without_text : list event -> sort_result;
  left_by_failed_sort_perm l : left_by_failed_sort l ≡ₚ l;
  sort_without_text_perm l : left_by (sort_without_text l) ≡ₚ l
}.

(** of the last two elements one has a string as key and the other has
    not *)
Definition last_two_differ (l : list event) : bool :=
  match rev l with
  | y :: x :: _ => negb (Bool.eqb (text_key x) (text_key y))
  | _ => false
  end.

Definition list_sort {srt : ListSort} (l : list event) : sort_result :=
  match l with
  | [] | [_] => Done l
  | _ :: _ :: _ =>
      if forallb text_key l then Done (Py.sort_desc end_key l)
      else if existsb text_key l then
        if last_two_differ l then Raised l
        else Raised (left_by_failed_sort l)
      else sort_without_text l
  end.

Section Code.
Context {parser : Py.IsoParser} {cfg : Config} {srt : ListSort}.

(** [set_state("external_tests", name, status, error)] *)
Definition set_state (label : string) (s : status) (err : string)
    (clock : Py.datetime) (st : state) : state :=
  {| external_tests :=
       <[label := {| te_status := status_str s; te_error := err;
                     te_last_update := now_iso clock |}]>
         (external_tests st);
     internal_status := internal_status st;
     history := history st;
     HISTORY_IGNORE_BEFORE := HISTORY_IGNORE_BEFORE st;
     created_tasks := created_tasks st |}.

(** The record that [log_disconnection_event] builds, when
    [fromisoformat] and the subtraction succeed. *)
Definition outage_record (nm proto start_time_str src : string)
    (clock : Py.datetime) : option event :=
  start ← Py.fromisoformat start_time_str;
  let end_ := utcnow clock in
  dur_us ← Py.sub end_ start;
  let dur := Py.total_seconds dur_us in
  Some {| name := Str nm; protocol := Str proto;
          start_time := Str (Py.isoformat start);
          end_time := Str (Py.isoformat end_);
          duration_sec := Some (Py.round2 dur);
          source := Str src; reporter := Absent |}.

(** [log_disconnection_event]: any exception is logged and the history
    is left as it was. *)
Definition log_disconnection_event (nm proto start_time_str src : string)
    (clock : Py.datetime) (st : state) : state :=
  match outage_record nm proto start_time_str src clock with
  | Some ev =>
      with_history (Py.del_from MAX_HISTORY (ev :: history st)) st
  | None => st
  end.

(** [end_t = ev.get("end_time") or ev.get("start_time")] *)
Definition end_t (ev : event) : option value :=
  or_value (get (end_time ev)) (get (start_time ev)).

(** [datetime.fromisoformat(end_t)]: [TypeError] for a value that is no
    string *)
Definition fromisoformat_value (v : value) : option Py.datetime :=
  match v with
  | VStr s => Py.fromisoformat s
  | VOther _ => None
  end.

(** [_is_after_cutoff], given the cutoff global *)
Definition _is_after_cutoff (cutoff : option string) (ev : event) : bool :=
  if negb (Py.truthy cutoff) then true
  else
    if negb (truthy_value (end_t ev)) then true
    else
      match end_t ev ≫= fromisoformat_value, cutoff ≫= Py.fromisoformat with
      | Some t, Some c =>
          match Py.ge t c with
          | Some b => b
          | None => true
          end
      | _, _ => true
      end.

(** *** Probers

    A prober keeps [conn = {"status", "since"}] across its cycles.  A
    cycle either completes the exchange or raises; [ticks] are the clock
    readings the cycle takes, in the order the code takes them. *)

Record conn := { conn_status : status; since : string }.

Inductive outcome := Success | Failure (e : string).

Record ticks := {
  t_end : Py.datetime;     (* [datetime.now] in [log_disconnection_event] *)
  t_since : Py.datetime;   (* [now_iso()] stored in [conn["since"]] *)
  t_update : Py.datetime   (* [now_iso()] in [set_state] *)
}.

Definition start_conn (clock : Py.datetime) : conn :=
  {| conn_status := Unknown; since := now_iso clock |}.

Definition probe_cycle (proto nm : string) (o : outcome) (tk : ticks)
    (cs : conn * state) : conn * state :=
  let '(c, st) := cs in
  let label := nm +:+ " (" +:+ proto +:+ ")" in
  match o with
  | Success =>
      let st1 :=
        if decide (conn_status c = Error)
        then log_disconnection_event nm proto (since c) "bastion"
               (t_end tk) st
        else st in
      ({| conn_status := Connected; since := now_iso (t_since tk) |},
       set_state label Connected "" (t_update tk) st1)
  | Failure e =>
      let c1 :=
        if decide (conn_status c = Error) then c
        else {| conn_status := Error; since := now_iso (t_since tk) |} in
      (c1, set_state label Error e (t_update tk) st)
  end.

(** One turn of the loop of [http_client_task]; for [ws_client_task] and
    [tcp_client_task] a [Success] is a completed connect and a [Failure]
    is the exception that ends the attempt or the open connection. *)
Definition http_client_task := probe_cycle "HTTP".
Definition ws_client_task := probe_cycle "WS".
Definition tcp_client_task := probe_cycle "TCP".

Definition run_prober (proto nm : string) (trace : list (outcome * ticks))
    (cs : conn * state) : conn * state :=
  foldl (fun acc ot => probe_cycle proto nm ot.1 ot.2 acc) cs trace.

(** a run of failed cycles, each with the text of its exception *)
Definition failures_of (l : list (string * ticks)) : list (outcome * ticks) :=
  map (fun et => (Failure et.1, et.2)) l.

(** *** Reconciliation: one turn of [poll_peer_status_task] *)

Definition filter_by_cutoff (cutoff : option string)
    (peer_hist : list event) : list event :=
  List.filter (_is_after_cutoff cutoff) (map setdefault_source peer_hist).

Definition is_known (hist : list event) (ev : event) : bool :=
  bool_decide (composite_key ev ∈ map composite_key hist).

Definition new_items_of (hist filtered : list event) : list event :=
  List.filter (fun ev => negb (is_known hist ev)) filtered.

(** [STATE["history"].sort(...)] and [del STATE["history"][MAX_HISTORY:]]
    on the list [l]: the [del] is not reached when the sort raises *)
Definition sort_and_trim (l : list event) : list event :=
  match list_sort l with
  | Done l' => Py.del_from MAX_HISTORY l'
  | Raised l' => l'
  end.

(** building [known] hashes the key of every record of the history, and
    [key not in known] the key of every filtered record: [false] when one
    of them raises [TypeError] *)
Definition hashable_all (hist filtered : list event) : bool :=
  forallb hashable hist && forallb hashable filtered.

(** The body of the [/history] half once the document is in hand.  An
    exception ends it behind [except Exception: pass]: before the history
    is touched when a key has no hash, and between the sort and the [del]
    when the sort raises. *)
Definition merge_history (peer_hist : list event) (st : state) : state :=
  let filtered := filter_by_cutoff (HISTORY_IGNORE_BEFORE st) peer_hist in
  match filtered with
  | [] => st
  | _ :: _ =>
      if hashable_all (history st) filtered then
        match new_items_of (history st) filtered with
        | [] => st
        | (_ :: _) as new_items =>
            with_history (sort_and_trim (new_items ++ history st)) st
        end
      else st
  end.

Definition error_placeholder (e url : string) : json :=
  JObj [("error", JStr e); ("url", JStr url)].

Definition store_snapshot (nm : string) (doc : json) (st : state) : state :=
  {| external_tests := external_tests st;
     internal_status := <[nm := doc]> (internal_status st);
     history := history st;
     HISTORY_IGNORE_BEFORE := HISTORY_IGNORE_BEFORE st;
     created_tasks := created_tasks st |}.

(** [status_resp] is the snapshot document or the text of the exception.
    [history_resp] is the list of records of the peer's history document;
    it is [None] when the [/history] half raises before it has a record to
    examine or while it goes through the document: the request, the status
    check or the decoding fails, the document cannot be iterated, or an
    element of it is no object and has no [setdefault].  Nothing has been
    written to the globals by then. *)
Definition poll_peer_status_task (nm base_url : string)
    (status_resp : json + string) (history_resp : option (list event))
    (st : state) : state :=
  let status_url := base_url +:+ "/status" in
  let st1 :=
    match status_resp with
    | inl doc => store_snapshot nm doc st
    | inr e => store_snapshot nm (error_placeholder e status_url) st
    end in
  match history_resp with
  | Some peer_hist => merge_history peer_hist st1
  | None => st1
  end.

(** *** Clear *)

Inductive request := Post (url : string).

(** [_fanout_clear_to_peers]: the requests it sends, one per peer. *)
Definition _fanout_clear_to_peers : list request :=
  map (fun url => Post (url +:+ "/admin/clear_history")) ROUTE_PEERS.

Definition set_cutoff (ts : string) (st : state) : state :=
  {| external_tests := external_tests st;
     internal_status := internal_status st;
     history := history st;
     HISTORY_IGNORE_BEFORE := Some ts;
     created_tasks := created_tasks st |}.

Definition create_task (t : task) (st : state) : state :=
  {| external_tests := external_tests st;
     internal_status := internal_status st;
     history := history st;
     HISTORY_IGNORE_BEFORE := HISTORY_IGNORE_BEFORE st;
     created_tasks := created_tasks st ++ [t] |}.

(** [handle_clear_history]: the response text and the new globals.  The
    coroutine of the fan-out is created, not awaited: it has sent nothing
    when the response is returned. *)
Definition handle_clear_history (clock : Py.datetime) (st : state)
    : string * state :=
  let st1 := set_cutoff (now_iso clock) st in
  let st2 := with_history [] st1 in
  let st3 := create_task FanoutClear st2 in
  ("history cleared", st3).

(** what a created task does when the event loop runs it *)
Definition run_task (t : task) : list request :=
  match t with
  | FanoutClear => _fanout_clear_to_peers
  end.

(** *** The tables as the tasks share them *)

(** the key of a prober's row in [STATE["external_tests"]] *)
Definition label (nm proto : string) : string :=
  nm +:+ " (" +:+ proto +:+ ")".

(** the protocol names the three probers pass *)
Definition protocols : list string := ["HTTP"; "WS"; "TCP"].

(** What can happen to the globals of the observer: a cycle of a prober
    (whose [conn] is local to its task), a turn of a reconciliation loop,
    or a clear command. *)
Inductive step : state -> state -> Prop :=
| step_probe proto nm o tk c st :
    step st (probe_cycle proto nm o tk (c, st)).2
| step_poll nm base_url status_resp history_resp st :
    step st (poll_peer_status_task nm base_url status_resp history_resp st)
| step_clear clock st :
    step st (handle_clear_history clock st).2.

Inductive reachable : state -> Prop :=
| reach_initial : reachable initial
| reach_step st st' : reachable st -> step st st' -> reachable st'.

(** what every step keeps: the bound as long as every sort key of the
    history is a string, a source and a key that can be hashed on every
    record, and a cutoff that is unset or the text of a clock reading *)
Definition well_kept (st : state) : Prop :=
  (Forall (fun h => text_key h = true) (history st) ->
   Z.of_nat (length (history st)) <= MAX_HISTORY) /\
  Forall (fun h => source h ≠ Absent) (history st) /\
  Forall (fun h => hashable h = true) (history st) /\
  (HISTORY_IGNORE_BEFORE st = None \/
   exists clock, HISTORY_IGNORE_BEFORE st = Some (now_iso clock)).

(** *** [run_probes]

    The tasks the supervisor creates, in the order it creates them.  The
    two tables of peers are the items of the configured dicts. *)

Record nodeport := {
  host : string;
  ws_port : Z;
  tcp_port : Z;
  http_port : Z
}.

Inductive probe_task :=
| WsTask (nm host_ : string) (port : Z)
| TcpTask (nm host_ : string) (port : Z)
| HttpTask (nm base_url : string)
| PollTask (nm base_url : string).

(** [enumerate(l, start)] *)
Fixpoint enumerate {A} (start : nat) (l : list A) : list (nat * A) :=
  match l with
  | [] => []
  | x :: r => (start, x) :: enumerate (S start) r
  end.

(** [f"peer-{i}-route"] *)
Definition route_name (i : nat) : string :=
  "peer-" +:+ pretty i +:+ "-route".

Definition run_probes (METALLB_PEERS : list (string * string))
    (NODEPORT_PEERS : list (string * nodeport)) : list probe_task :=
  (flat_map
     (fun '(nm, ip) =>
        [WsTask nm ip 8080; TcpTask nm ip 8081;
         HttpTask nm ("http://" +:+ ip +:+ ":8082")])
     METALLB_PEERS
   ++ flat_map
        (fun '(nm, np) =>
           [WsTask nm (host np) (ws_port np);
            TcpTask nm (host np) (tcp_port np);
            HttpTask nm
              ("http://" +:+ host np +:+ ":" +:+ pretty (http_port np))])
        NODEPORT_PEERS
   ++ flat_map
        (fun '(i, url) =>
           [HttpTask (route_name i) url; PollTask (route_name i) url])
        (enumerate 1 ROUTE_PEERS))%list.

(** the reconciliation loops among the tasks: the name each one stores
    its snapshots under, and the peer it polls *)
Definition polled (tasks : list probe_task) : list (string * string) :=
  omap (fun t => match t with
                 | PollTask nm base_url => Some (nm, base_url)
                 | _ => None
                 end) tasks.

(** *** The tasks interleaved

    The event loop runs the tasks one step at a time, in any order: a
    cycle of some prober (with the [conn] its task holds), a turn of some
    reconciliation loop, a clear command. *)

Inductive action :=
| Probe (proto nm : string) (o : outcome) (tk : ticks) (c : conn)
| PollTurn (nm base_url : string) (status_resp : json + string)
    (history_resp : option (list event))
| Clear (clock : Py.datetime).

Definition perform (a : action) (st : state) : state :=
  match a with
  | Probe proto nm o tk c => (probe_cycle proto nm o tk (c, st)).2
  | PollTurn nm base_url status_resp history_resp =>
      poll_peer_status_task nm base_url status_resp history_resp st
  | Clear clock => (handle_clear_history clock st).2
  end.

Definition schedule (acts : list action) (st : state) : state :=
  foldl (fun s a => perform a s) st acts.

(** the row a cycle writes *)
Definition row_of (o : outcome) (tk : ticks) : test_entry :=
  {| te_status := match o with Success => "connected" | Failure _ => "error" end;
     te_error := match o with Success => "" | Failure e => e end;
     te_last_update := now_iso (t_update tk) |}.

(** the rows the cycles of the prober [(nm, proto)] write, in order *)
Definition rows_of (nm proto : string) (acts : list action)
    : list test_entry :=
  omap (fun a => match a with
                 | Probe p n o tk _ =>
                     if decide (n = nm /\ p = proto)
                     then Some (row_of o tk) else None
                 | _ => None
                 end) acts.

(** the snapshots the turns of the loop named [nm] store, in order *)
Definition snapshots_of (nm : string) (acts : list action) : list json :=
  omap (fun a => match a with
                 | PollTurn n base_url status_resp _ =>
                     if decide (n = nm)
                     then Some match status_resp with
                               | inl doc => doc
                               | inr e =>
                                   error_placeholder e (base_url +:+ "/status")
                               end
                     else None
                 | _ => None
                 end) acts.

(** every prober in the schedule passes one of the three protocol names *)
Definition known_protocols (acts : list action) : Prop :=
  Forall (fun a => match a with
                   | Probe p _ _ _ _ => p ∈ protocols
                   | _ => True
                   end) acts.
End Code.

End Bastion.

(** ** The agent: app.py *)

Module Pod.

Definition MAX_HISTORY : Z := 200.

Class Config := POD_NAME : string.

(** an entry of [connection_state] *)
Record link := {
  ws : string;
  tcp : string;
  http : string;
  last_change : string
}.

Definition unknown_link : link :=
  {| ws := "unknown"; tcp := "unknown"; http := "unknown";
     last_change := "" |}.

(** the module globals [connection_state] and [HISTORY] *)
Record state := {
  connection_state : gmap string link;
  HISTORY : list event
}.

Definition initial (PEERS : list string) : state :=
  {| connection_state := list_to_map (map (fun p => (p, unknown_link)) PEERS);
     HISTORY := [] |}.

(** [PEERS = os.getenv("PEERS", ...).split(',')] *)
Definition PEERS_of (peers_str : string) : list string :=
  Py.split_sep "," peers_str.

Definition with_HISTORY (l : list event) (st : state) : state :=
  {| connection_state := connection_state st; HISTORY := l |}.

(** [connection_state[target][proto] = v; connection_state[target]
    ["last_change"] = now_iso()].  The client tasks are started for the keys
    of [connection_state] only, so the entry exists. *)
Inductive proto := WS | TCP | HTTP.

Definition proto_str (p : proto) : string :=
  match p with
  | WS => "WS"
  | TCP => "TCP"
  | HTTP => "HTTP"
  end.

Definition set_link (p : proto) (v : string) (ts : string) (l : link) : link :=
  match p with
  | WS => {| ws := v; tcp := tcp l; http := http l; last_change := ts |}
  | TCP => {| ws := ws l; tcp := v; http := http l; last_change := ts |}
  | HTTP => {| ws := ws l; tcp := tcp l; http := v; last_change := ts |}
  end.

Definition link_status (p : proto) (l : link) : string :=
  match p with
  | WS => ws l
  | TCP => tcp l
  | HTTP => http l
  end.

Definition mark (target : string) (p : proto) (v : string)
    (clock : Py.datetime) (st : state) : state :=
  {| connection_state :=
       alter (set_link p v (now_iso clock)) target (connection_state st);
     HISTORY := HISTORY st |}.

Definition status_of (target : string) (p : proto) (st : state) : string :=
  link_status p (default unknown_link (connection_state st !! target)).

(** how one step may change [HISTORY]: not at all, by emptying it, or by
    putting one record in front and trimming the tail *)
Definition front_insert (old new : list event) : Prop :=
  new = old \/ new = [] \/
  exists ev, new = Py.del_from MAX_HISTORY (ev :: old).

Section Code.
Context {parser : Py.IsoParser} {cfg : Config}.

(** the record that [record_outage] builds *)
Definition outage_record (target proto_ start_time_str : string)
    (clock : Py.datetime) : option event :=
  start ← Py.fromisoformat start_time_str;
  let end_ := utcnow clock in
  dur_us ← Py.sub end_ start;
  let dur := Py.total_seconds dur_us in
  Some {| name := Str target; protocol := Str proto_;
          start_time := Str (Py.isoformat start);
          end_time := Str (Py.isoformat end_);
          duration_sec := Some (Py.round2 dur);
          source := Str "pod"; reporter := Str POD_NAME |}.

(** [record_outage]: an exception is logged and [HISTORY] is left as it
    was. *)
Definition record_outage (target proto_ start_time_str : string)
    (clock : Py.datetime) (st : state) : state :=
  match outage_record target proto_ start_time_str clock with
  | Some ev => with_HISTORY (Py.del_from MAX_HISTORY (ev :: HISTORY st)) st
  | None => st
  end.

(** a series of calls of [record_outage], the earliest first, each with
    its target, protocol, start time and clock reading *)
Definition record_all (calls : list (string * string * string * Py.datetime))
    (st : state) : state :=
  foldl (fun acc c => record_outage c.1.1.1 c.1.1.2 c.1.2 c.2 acc) st calls.

(** the records those calls build, in the order of the calls *)
Definition built (calls : list (string * string * string * Py.datetime))
    : list event :=
  omap (fun c => outage_record c.1.1.1 c.1.1.2 c.1.2 c.2) calls.

(** *** [ws_client_task] and [tcp_client_task]

    One turn of the outer loop.  [start_time] is read at the top of the
    turn.  The attempt either raises before the connection is up
    ([Refused]) or the connection comes up, is marked at [t_connected],
    and an exception ends it later ([Dropped]).  The handler reads the
    clock for [last_change] and, inside [record_outage], for the end of
    the record. *)

Inductive attempt :=
| Refused
| Dropped (t_connected : Py.datetime).

Record readings := {
  t_start : Py.datetime;
  t_change : Py.datetime;
  t_end : Py.datetime
}.

Definition stream_turn (p : proto) (target : string) (a : attempt)
    (rd : readings) (st : state) : state :=
  let start_time := now_iso (t_start rd) in
  let st1 :=
    match a with
    | Refused => st
    | Dropped t_connected => mark target p "connected" t_connected st
    end in
  if decide (status_of target p st1 ≠ "disconnected")
  then
    let st2 := mark target p "disconnected" (t_change rd) st1 in
    record_outage target (proto_str p) start_time (t_end rd) st2
  else st1.

Definition ws_client_task := stream_turn WS.
Definition tcp_client_task := stream_turn TCP.

Definition run_stream (p : proto) (target : string)
    (trace : list (attempt * readings)) (st : state) : state :=
  foldl (fun acc ar => stream_turn p target ar.1 ar.2 acc) st trace.

(** *** [http_client_task] *)

Inductive status := Unknown | Connected | Error.

#[global] Instance status_eq_dec : EqDecision status.
Proof. solve_decision. Defined.

Record conn := { conn_status : status; since : string }.

Inductive outcome := Success | Failure.

Record ticks := {
  k_end : Py.datetime;     (* [datetime.now] in [record_outage] *)
  k_since : Py.datetime;   (* [now_iso()] stored in [conn["since"]] *)
  k_change : Py.datetime   (* [now_iso()] stored in [last_change] *)
}.

Definition http_client_task (target : string) (o : outcome) (tk : ticks)
    (cs : conn * state) : conn * state :=
  let '(c, st) := cs in
  match o with
  | Success =>
      let st1 :=
        if decide (conn_status c = Error)
        then record_outage target "HTTP" (since c) (k_end tk) st
        else st in
      ({| conn_status := Connected; since := now_iso (k_since tk) |},
       mark target HTTP "connected" (k_change tk) st1)
  | Failure =>
      let c1 :=
        if decide (conn_status c = Error) then c
        else {| conn_status := Error; since := now_iso (k_since tk) |} in
      (c1, mark target HTTP "disconnected" (k_change tk) st)
  end.

(** *** [handle_http] *)

Inductive body :=
| ClearOk (pod ts : string)
| Status (self ts : string) (connections : gmap string link)
| History (items : list event)
| Default (pod ts : string).

Definition handle_http (method path : string) (clock : Py.datetime)
    (st : state) : body * state :=
  if decide (method = "POST" ∧ path = "/admin/clear_history")
  then (ClearOk POD_NAME (now_iso clock), with_HISTORY [] st)
  else if decide (method = "GET" ∧ path = "/status")
  then (Status POD_NAME (now_iso clock) (connection_state st), st)
  else if decide (method = "GET" ∧ path = "/history")
  then (History (Py.slice_from (- MAX_HISTORY) (HISTORY st)), st)
  else (Default POD_NAME (now_iso clock), st).

(** The head of [handle_http]: [received] is [None] when [reader.read]
    returned no byte, and else the text that [data.decode(errors="ignore")]
    gives.  [None] as result is the [IndexError] of a first line that is
    missing or has fewer than two words. *)
Definition request_line (received : option string)
    : option (string * string) :=
  match received with
  | None => Some ("GET", "/")
  | Some text =>
      line0 ← Py.splitlines_0 text;
      match line0 with
      | "" => Some ("GET", "/")
      | _ =>
          match Py.split line0 with
          | method :: path :: _ => Some (method, path)
          | _ => None
          end
      end
  end.

(** [handle_http] from what was read: when the request line raises, the
    handler is left through [finally] before any global is touched, and no
    response is written. *)
Definition handle_http_read (received : option string) (clock : Py.datetime)
    (st : state) : option (body * state) :=
  '(method, path) ← request_line received;
  Some (handle_http method path clock st).

(** What can happen to the globals of one agent: a turn of a stream
    client, a cycle of the HTTP client (whose [conn] is local to the
    task), or a request served. *)
Inductive step : state -> state -> Prop :=
| step_stream p target a rd st :
    step st (stream_turn p target a rd st)
| step_http target o tk c st :
    step st (http_client_task target o tk (c, st)).2
| step_request method path clock st :
    step st (handle_http method path clock st).2.

Inductive reachable (PEERS : list string) : state -> Prop :=
| reach_initial : reachable PEERS (initial PEERS)
| reach_step st st' :
    reachable PEERS st -> step st st' -> reachable PEERS st'.

(** *** Runs of the clients *)

Definition run_http (target : string) (trace : list (outcome * ticks))
    (cs : conn * state) : conn * state :=
  foldl (fun acc ot => http_client_task target ot.1 ot.2 acc) cs trace.

(** a run of failed cycles of the HTTP client *)
Definition failed_cycles (l : list ticks) : list (outcome * ticks) :=
  map (fun tk => (Failure, tk)) l.

(** a run of refused attempts of a stream client *)
Definition refused_turns (l : list readings) : list (attempt * readings) :=
  map (fun rd => (Refused, rd)) l.

(** a record as [record_outage] makes them: every key a string, the
    source "pod", the reporter this pod *)
Definition own_record (h : event) : Prop :=
  source h = Str "pod" /\ reporter h = Str POD_NAME /\
  (exists nm, name h = Str nm) /\ (exists pr, protocol h = Str pr) /\
  (exists s, start_time h = Str s) /\
  (exists clock, end_time h = Str (now_iso clock)) /\
  is_Some (duration_sec h).
End Code.

End Pod.

(** ** The first dashboard: dashboard.py

    The observer without a history: the probers write their row on every
    cycle, the poller stores the snapshot of its peer. *)

Module Dashboard.

(** the two tables of [STATE] *)
Record state := {
  external_tests : gmap string Bastion.test_entry;
  internal_status : gmap string json
}.

Definition initial : state :=
  {| external_tests := ∅; internal_status := ∅ |}.

(** [set_state("external_tests", name, status, error)] *)
Definition set_state (nm status_ err : string) (clock : Py.datetime)
    (st : state) : state :=
  {| external_tests :=
       <[nm := {| Bastion.te_status := status_; Bastion.te_error := err;
                  Bastion.te_last_update := now_iso clock |}]>
         (external_tests st);
     internal_status := internal_status st |}.

(** a cycle of a prober: the exchange completed, or raised [e] *)
Inductive outcome := Success | Failure (e : string).

(** One cycle of [http_client_task], [ws_client_task] or
    [tcp_client_task], [proto] being the word the task puts in its label. *)
Definition probe_cycle (proto nm : string) (o : outcome)
    (clock : Py.datetime) (st : state) : state :=
  let label := nm +:+ " (" +:+ proto +:+ ")" in
  match o with
  | Success => set_state label "connected" "" clock st
  | Failure e => set_state label "error" e clock st
  end.

Definition http_client_task := probe_cycle "HTTP".
Definition ws_client_task := probe_cycle "WS".
Definition tcp_client_task := probe_cycle "TCP".

(** one turn of [poll_peer_status_task]: the document, or the text of the
    exception *)
Definition poll_peer_status_task (nm base_url : string)
    (resp : json + string) (st : state) : state :=
  let url := base_url +:+ "/status" in
  {| external_tests := external_tests st;
     internal_status :=
       <[nm := match resp with
               | inl data => data
               | inr e => JObj [("error", JStr e); ("url", JStr url)]
               end]> (internal_status st) |}.

(** the row a cycle writes *)
Definition row_of (o : outcome) (clock : Py.datetime) : Bastion.test_entry :=
  {| Bastion.te_status :=
       match o with Success => "connected" | Failure _ => "error" end;
     Bastion.te_error := match o with Success => "" | Failure e => e end;
     Bastion.te_last_update := now_iso clock |}.

(** the document a turn of the poller stores *)
Definition stored (base_url : string) (resp : json + string) : json :=
  match resp with
  | inl data => data
  | inr e => JObj [("error", JStr e); ("url", JStr (base_url +:+ "/status"))]
  end.

(** the steps of the tasks, interleaved in any order *)
Inductive action :=
| Probe (proto nm : string) (o : outcome) (clock : Py.datetime)
| PollTurn (nm base_url : string) (resp : json + string).

Definition perform (a : action) (st : state) : state :=
  match a with
  | Probe proto nm o clock => probe_cycle proto nm o clock st
  | PollTurn nm base_url resp => poll_peer_status_task nm base_url resp st
  end.

Definition schedule (acts : list action) (st : state) : state :=
  foldl (fun s a => perform a s) st acts.

(** the cycles of the prober [(nm, proto)] in a schedule, in order *)
Definition cycles_of (nm proto : string) (acts : list action)
    : list (outcome * Py.datetime) :=
  omap (fun a => match a with
                 | Probe p n o clock =>
                     if decide (n = nm /\ p = proto)
                     then Some (o, clock) else None
                 | _ => None
                 end) acts.

(** the responses the poller named [nm] got, in order *)
Definition responses_of (nm : string) (acts : list action)
    : list (string * (json + string)) :=
  omap (fun a => match a with
                 | PollTurn n base_url resp =>
                     if decide (n = nm) then Some (base_url, resp) else None
                 | _ => None
                 end) acts.

Definition known_protocols (acts : list action) : Prop :=
  Forall (fun a => match a with
                   | Probe p _ _ _ => p ∈ Bastion.protocols
                   | _ => True
                   end) acts.

End Dashboard.

(** ** Concrete data

    Timestamps, records and configurations on which the model is run. *)

Module Scenario.

Definition parser : Py.IsoParser := Py.fromisoformat_canonical.

Definition routes : list string :=
  ["http://peer-1-route"; "http://peer-2-route"; "http://peer-3-route"].

Definition bastion (max_history : Z) : Bastion.Config :=
  {| Bastion.MAX_HISTORY := max_history; Bastion.ROUTE_PEERS := routes |}.

Definition pod : Pod.Config := "peer-1-7d9f".

(** What a sort leaves when it raises after its first comparison, and what
    it does with a list without a string key: no run below sorts such a
    list, and the choice made here does not enter. *)
Definition sorter : Bastion.ListSort :=
  {| Bastion.left_by_failed_sort := fun l => l;
     Bastion.sort_without_text := fun l => Bastion.Raised l;
     Bastion.left_by_failed_sort_perm := fun l => Permutation_refl l;
     Bastion.sort_without_text_perm := fun l => Permutation_refl l |}.

(** a reading of the clock on 2025-01-01, [s] seconds and [us]
    microseconds after 00:00 *)
Definition clock_at (s us : Z) : Py.datetime :=
  {| Py.year := 2025; Py.month := 1; Py.day := 1;
     Py.hour := 0; Py.minute := s / 60; Py.second := s mod 60;
     Py.microsecond := us; Py.tzinfo := None |}.

(** a record as an agent reports it *)
Definition reported (target : string) (start_s end_s : Z) : event :=
  {| name := Str target; protocol := Str "WS";
     start_time := Str (now_iso (clock_at start_s 0));
     end_time := Str (now_iso (clock_at end_s 0));
     duration_sec := Some ((end_s - start_s) * 100);
     source := Str "pod"; reporter := Str "peer-2-5c41" |}.

(** *** An agent's WebSocket client

    The connection to [peer-2-svc] comes up at once and drops after ten
    seconds; two attempts are refused; the connection comes up again at
    00:00:25 and drops at 00:00:55. *)

Definition agent0 : Pod.state := Pod.initial ["peer-2-svc"].

Definition turn (start_s end_s : Z) : Pod.readings :=
  {| Pod.t_start := clock_at start_s 0;
     Pod.t_change := clock_at end_s 0;
     Pod.t_end := clock_at end_s 0 |}.

Definition first_drop : list (Pod.attempt * Pod.readings) :=
  [(Pod.Dropped (clock_at 0 500000), turn 0 10)].

Definition still_down : list (Pod.attempt * Pod.readings) :=
  (first_drop ++ [(Pod.Refused, turn 11 11); (Pod.Refused, turn 12 12)])%list.

Definition second_drop : list (Pod.attempt * Pod.readings) :=
  (still_down ++ [(Pod.Dropped (clock_at 25 100000), turn 25 55)])%list.

(** *** Histories at the observer *)


(** a peer whose clock runs ahead reports outages ending at 00:00:10 and
    00:00:08; the observer's own prober then recovers at 00:00:05 *)
Definition ahead : list event :=
  [reported "peer-2-svc" 9 10; reported "peer-3-svc" 7 8].

Definition merged_ahead : Bastion.state :=
  Bastion.merge_history (parser := parser) (cfg := bastion 2)
    (srt := sorter) ahead Bastion.initial.

Definition after_local_recovery : Bastion.state :=
  Bastion.log_disconnection_event (parser := parser) (cfg := bastion 2)
    "peer-1-route" "HTTP" (now_iso (clock_at 4 0)) "bastion" (clock_at 5 0)
    merged_ahead.

(** the clock readings of a prober cycle that runs at second [s] *)
Definition tick (s : Z) : Bastion.ticks :=
  {| Bastion.t_end := clock_at s 0;
     Bastion.t_since := clock_at s 0;
     Bastion.t_update := clock_at s 0 |}.


(** a record whose end time is a number, seconds since the epoch *)
Definition numeric_end : event :=
  {| name := Str "peer-2-svc"; protocol := Str "WS";
     start_time := Str (now_iso (clock_at 1 0));
     end_time := Other (ONum (Int 1735689603));
     duration_sec := Some 200;
     source := Str "pod"; reporter := Str "peer-2-5c41" |}.

(** with room for two records, the observer merges a batch that holds
    the record with the number, then a batch of two records with
    timestamps, then a batch of one *)
Definition after_number : Bastion.state :=
  Bastion.merge_history (parser := parser) (cfg := bastion 2)
    (srt := sorter) [numeric_end] Bastion.initial.

Definition after_strings : Bastion.state :=
  Bastion.merge_history (parser := parser) (cfg := bastion 2)
    (srt := sorter)
    [reported "peer-2-svc" 4 5; reported "peer-3-svc" 6 8] after_number.

Definition after_one_more : Bastion.state :=
  Bastion.merge_history (parser := parser) (cfg := bastion 2)
    (srt := sorter) [reported "peer-2-svc" 9 10] after_strings.


(** a record whose end time is no timestamp *)
Definition malformed : event :=
  {| name := Str "peer-2-svc"; protocol := Str "TCP";
     start_time := Str "2024-12-31T23:59:00+00:00";
     end_time := Str "yesterday";
     duration_sec := None;
     source := Absent; reporter := Str "peer-2-5c41" |}.


(** *** Further runs *)

(** the clock readings of a cycle of the agent's HTTP client at second [s] *)
Definition ktick (s : Z) : Pod.ticks :=
  {| Pod.k_end := clock_at s 0;
     Pod.k_since := clock_at s 0;
     Pod.k_change := clock_at s 0 |}.

(** the observer after one turn of the loop of its first route *)
Definition polled_once : Bastion.state :=
  Bastion.poll_peer_status_task (parser := parser) (cfg := bastion 2)
    (srt := sorter) "peer-1-route" "http://peer-1-route" (inl JNull)
    (Some ahead) Bastion.initial.

(** the agent after the first turn of its WebSocket client *)
Definition dropped_once : Pod.state :=
  Pod.stream_turn (parser := parser) (cfg := pod) Pod.WS "peer-2-svc"
    (Pod.Dropped (clock_at 0 500000)) (turn 0 10) agent0.

(** cycles of two probers and a turn of a reconciliation loop, mixed *)
Definition mixed : list Bastion.action :=
  [Bastion.Probe "HTTP" "peer-1-route" Bastion.Success (tick 1)
     (Bastion.start_conn (clock_at 0 0));
   Bastion.PollTurn "peer-1-route" "http://peer-1-route" (inr "timeout")
     None;
   Bastion.Probe "WS" "peer-1-lb" (Bastion.Failure "refused") (tick 2)
     (Bastion.start_conn (clock_at 0 0));
   Bastion.Probe "HTTP" "peer-1-route" (Bastion.Failure "timeout") (tick 3)
     (Bastion.start_conn (clock_at 0 0))].

Definition mixed_dashboard : list Dashboard.action :=
  [Dashboard.Probe "HTTP" "peer-1-route" Dashboard.Success (clock_at 1 0);
   Dashboard.PollTurn "peer-1-route" "http://peer-1-route" (inr "timeout");
   Dashboard.Probe "WS" "peer-1-lb" (Dashboard.Failure "refused")
     (clock_at 2 0);
   Dashboard.Probe "HTTP" "peer-1-route" (Dashboard.Failure "timeout")
     (clock_at 3 0)].
End Scenario.

(** * Properties *)

(** ** The Python primitives *)

Module Py_facts.
Import Py.

(** *** The order on strings *)

Lemma str_le_spec a b :
  str_le a b <-> a = b \/ OrderedTypeEx.String_as_OT.lt a b.
Proof.
  unfold str_le, String.leb.
  destruct (String.compare a b) eqn:E.
  - apply OrderedTypeEx.String_as_OT.cmp_eq in E. tauto.
  - apply OrderedTypeEx.String_as_OT.cmp_lt in E. tauto.
  - split; [discriminate|].
    intros [->|L].
    + assert (String.compare b b = Eq) as R
        by (now apply OrderedTypeEx.String_as_OT.cmp_eq).
      unfold OrderedTypeEx.String_as_OT.cmp in R. congruence.
    + apply OrderedTypeEx.String_as_OT.cmp_lt in L.
      unfold OrderedTypeEx.String_as_OT.cmp in L. congruence.
Qed.

Lemma str_le_refl a : str_le a a.
Proof. apply str_le_spec. now left. Qed.



Lemma str_le_empty a : str_le "" a.
Proof. now destruct a. Qed.




(** *** Slices *)

Lemma clamp_index_le n len : (clamp_index n len <= len)%nat.
Proof.
  unfold clamp_index. destruct (n <? 0) eqn:E; [|lia].
  apply Z.ltb_lt in E. lia.
Qed.

Lemma clamp_index_nonneg n len :
  0 <= n -> clamp_index n len = Nat.min (Z.to_nat n) len.
Proof.
  intros Hn. unfold clamp_index.
  destruct (n <? 0) eqn:E; [apply Z.ltb_lt in E; lia|reflexivity].
Qed.

Lemma del_from_nonneg {A} n (l : list A) :
  0 <= n -> del_from n l = take (Z.to_nat n) l.
Proof.
  intros Hn. unfold del_from. rewrite clamp_index_nonneg by exact Hn.
  destruct (Nat.min_spec (Z.to_nat n) (length l)) as [[Hlt ->]|[Hge ->]].
  - reflexivity.
  - rewrite firstn_all. symmetry. apply take_ge. lia.
Qed.

Lemma del_from_length {A} n (l : list A) :
  0 <= n -> Z.of_nat (length (del_from n l)) <= n.
Proof.
  intros Hn. rewrite del_from_nonneg by exact Hn.
  rewrite length_take. lia.
Qed.

Lemma del_from_length_le {A} n (l : list A) :
  (length (del_from n l) <= length l)%nat.
Proof. unfold del_from. rewrite length_take. lia. Qed.

Lemma del_from_fits {A} n (l : list A) :
  Z.of_nat (length l) <= n -> del_from n l = l.
Proof.
  intros Hn. rewrite del_from_nonneg by lia. apply take_ge. lia.
Qed.


Lemma slice_from_neg_fits {A} n (l : list A) :
  0 < n -> Z.of_nat (length l) <= n -> slice_from (- n) l = l.
Proof.
  intros Hn Hl. unfold slice_from, clamp_index.
  destruct (- n <? 0) eqn:E; [|apply Z.ltb_ge in E; lia].
  replace (Z.to_nat _) with 0%nat by lia. reflexivity.
Qed.

(** *** The sort *)

Section SortFacts.
Context {A : Type} (key : A -> string).

Lemma insert_desc_perm x l : insert_desc key x l ≡ₚ x :: l.
Proof.
  induction l as [|y r IH]; simpl; [reflexivity|].
  destruct (String.leb (key y) (key x)); [reflexivity|].
  rewrite IH. apply Permutation_swap.
Qed.

Lemma sort_desc_perm l : sort_desc key l ≡ₚ l.
Proof.
  induction l as [|x r IH]; simpl; [reflexivity|].
  rewrite insert_desc_perm. now rewrite IH.
Qed.

Lemma sort_desc_length l : length (sort_desc key l) = length l.
Proof. apply Permutation_length, sort_desc_perm. Qed.







End SortFacts.

(** *** [round] *)

Lemma div_half_even_nonneg n d : 0 <= n -> 0 < d -> 0 <= div_half_even n d.
Proof.
  intros Hn Hd. unfold div_half_even.
  assert (0 <= n / d) by (apply Z.div_pos; lia).
  repeat match goal with |- context [if ?b then _ else _] => destruct b end;
    lia.
Qed.

Lemma scaled_sign n d e :
  0 < n -> 0 < d ->
  let p := if 0 <=? e then (n, d * 2 ^ e) else (n * 2 ^ (- e), d) in
  0 <= p.1 /\ 0 < p.2.
Proof.
  intros Hn Hd. destruct (0 <=? e) eqn:E; simpl.
  - apply Z.leb_le in E. split; [lia|].
    apply Z.mul_pos_pos; [lia|]. apply Z.pow_pos_nonneg; lia.
  - apply Z.leb_gt in E. split; [|lia].
    apply Z.mul_nonneg_nonneg; [lia|]. apply Z.pow_nonneg; lia.
Qed.

Lemma true_divide_pos_mant n d :
  0 < n -> 0 < d -> 0 <= mant (true_divide_pos n d).
Proof.
  intros Hn Hd. unfold true_divide_pos.
  set (e0 := Z.log2 n - Z.log2 d - 53).
  destruct (if 0 <=? e0 then _ else _) as [n0 d0].
  set (e := if n0 <? d0 * 2 ^ 53 then e0 else e0 + 1).
  pose proof (scaled_sign n d e Hn Hd) as Hs. cbv zeta in Hs.
  destruct (if 0 <=? e then _ else _) as [n1 d1]. simpl in *.
  apply div_half_even_nonneg; tauto.
Qed.

Lemma round2_sign x : 0 <= mant x -> 0 <= round2 x.
Proof.
  intros Hm. unfold round2. destruct (0 <=? expo x) eqn:E.
  - apply Z.leb_le in E.
    assert (0 <= 2 ^ expo x) by (apply Z.pow_nonneg; lia). nia.
  - apply Z.leb_gt in E. apply div_half_even_nonneg; [lia|].
    apply Z.pow_pos_nonneg; lia.
Qed.

(** a duration that is not negative rounds to a value that is not negative *)
Lemma round2_total_seconds_nonneg us : 0 <= us -> 0 <= round2 (total_seconds us).
Proof.
  intros Hus. apply round2_sign. unfold total_seconds, true_divide.
  destruct (us =? 0) eqn:E; simpl; [lia|].
  apply Z.eqb_neq in E.
  pose proof (true_divide_pos_mant (Z.abs us) 1000000) as Hm.
  rewrite Z.sgn_pos by lia. lia.
Qed.

(** *** How far [round] moves a duration *)

(** the nearest integer lies within one half of the quotient *)
Lemma div_half_even_spec n d :
  0 < d -> - d <= 2 * div_half_even n d * d - 2 * n <= d.
Proof.
  intros Hd. unfold div_half_even.
  pose proof (Z.div_mod n d ltac:(lia)) as Hn.
  pose proof (Z.mod_pos_bound n d Hd) as Hr.
  destruct (2 * (n mod d) <? d) eqn:E1; [apply Z.ltb_lt in E1; nia|].
  apply Z.ltb_ge in E1.
  destruct (d <? 2 * (n mod d)) eqn:E2; [apply Z.ltb_lt in E2; nia|].
  apply Z.ltb_ge in E2.
  destruct (Z.even (n / d)); nia.
Qed.

(** the exponent [true_divide_pos] settles on, and the accuracy of its
    significand when the exponent is negative *)
Lemma true_divide_pos_spec n d :
  0 < n -> 0 < d ->
  let f := true_divide_pos n d in
  Z.log2 n - Z.log2 d - 53 <= expo f <= Z.log2 n - Z.log2 d - 52 /\
  (expo f < 0 ->
   - d <= 2 * mant f * d - 2 * (n * 2 ^ (- expo f)) <= d).
Proof.
  intros Hn Hd. unfold true_divide_pos.
  set (e0 := Z.log2 n - Z.log2 d - 53).
  destruct (if 0 <=? e0 then _ else _) as [n0 d0].
  set (e := if n0 <? d0 * 2 ^ 53 then e0 else e0 + 1).
  assert (e0 <= e <= e0 + 1) as He
    by (unfold e; destruct (n0 <? d0 * 2 ^ 53); lia).
  destruct (0 <=? e) eqn:E; cbn [mant expo].
  - apply Z.leb_le in E. split; [lia|lia].
  - apply Z.leb_gt in E. split; [lia|]. intros _.
    apply div_half_even_spec. exact Hd.
Qed.

(** For a span of less than [2 ^ 53] microseconds (some 285 years), the
    hundredths that [round (total_seconds, 2)] yields lie within half a
    hundredth of a second of the span. *)
Lemma round2_total_seconds_error us :
  - 2 ^ 53 < us < 2 ^ 53 ->
  - 5000 <= 10000 * round2 (total_seconds us) - us <= 5000.
Proof.
  intros Hus. unfold total_seconds, true_divide.
  destruct (us =? 0) eqn:E0.
  { apply Z.eqb_eq in E0. subst us. vm_compute. split; discriminate. }
  apply Z.eqb_neq in E0.
  assert (0 < Z.abs us < 2 ^ 53) as Habs by lia.
  destruct (true_divide_pos_spec (Z.abs us) 1000000 ltac:(lia) ltac:(lia))
    as [Hexp Hmant].
  set (f := true_divide_pos (Z.abs us) 1000000) in *.
  assert (Z.log2 (Z.abs us) < 53) as Hlog
    by (apply Z.log2_lt_pow2; lia).
  assert (Z.log2 1000000 = 19) as Hlogd by reflexivity.
  assert (expo f <= -19) as Hneg by lia.
  specialize (Hmant ltac:(lia)).
  unfold round2. cbn [mant expo].
  replace (0 <=? expo f) with false by (symmetry; apply Z.leb_gt; lia).
  set (E := 2 ^ (- expo f)) in *.
  assert (2 ^ 19 <= E) as HE
    by (unfold E; apply Z.pow_le_mono_r; lia).
  change (2 ^ 19) with 524288 in HE.
  pose proof (div_half_even_spec (Z.sgn us * mant f * 100) E ltac:(lia))
    as Hk.
  destruct (Z.sgn_spec us) as [[Hs Hsg]|[[Hs _]|[Hs Hsg]]]; [|lia|];
    rewrite Hsg in *;
    set (k := div_half_even _ E) in *.
  - rewrite Z.abs_eq in Hmant by lia.
    assert ((10000 * k - us) * E < 5001 * E) by nia.
    assert (- 5001 * E < (10000 * k - us) * E) by nia.
    nia.
  - rewrite Z.abs_neq in Hmant by lia.
    assert ((10000 * k - us) * E < 5001 * E) by nia.
    assert (- 5001 * E < (10000 * k - us) * E) by nia.
    nia.
Qed.

(** *** The order of timestamps as text

    Fixed-width decimal fields compare as the numbers they spell. *)

(** lexicographic combination of two comparisons *)
Definition lexc (c1 c2 : comparison) : comparison :=
  match c1 with Eq => c2 | _ => c1 end.

Lemma compare_app_same_len x y s1 s2 :
  String.length x = String.length y ->
  String.compare (x +:+ s1) (y +:+ s2)
    = lexc (String.compare x y) (String.compare s1 s2).
Proof.
  revert y. induction x as [|a x IH]; intros [|b y] Hlen;
    try discriminate Hlen; [reflexivity|].
  simpl. injection Hlen as Hlen. rewrite (IH y Hlen).
  now destruct (Ascii.compare a b).
Qed.

Lemma length_append a b :
  String.length (a +:+ b) = (String.length a + String.length b)%nat.
Proof. induction a as [|c a IH]; simpl; [reflexivity|now rewrite IH]. Qed.

Lemma zpad_length k n : String.length (zpad k n) = k.
Proof.
  revert n. induction k as [|k IH]; intros n; [reflexivity|].
  simpl. rewrite length_append, IH. simpl. lia.
Qed.

Lemma digit_compare n m :
  Ascii.compare (digit n) (digit m) = (n mod 10 ?= m mod 10).
Proof.
  unfold Ascii.compare, digit.
  pose proof (Z.mod_pos_bound n 10 ltac:(lia)).
  pose proof (Z.mod_pos_bound m 10 ltac:(lia)).
  rewrite !N_ascii_embedding by lia.
  rewrite <- N2Z.inj_compare, !N2Z.inj_add, !Z2N.id by lia.
  apply Z.add_compare_mono_l.
Qed.

Lemma zpad_compare k n m :
  0 <= n < 10 ^ Z.of_nat k -> 0 <= m < 10 ^ Z.of_nat k ->
  String.compare (zpad k n) (zpad k m) = (n ?= m).
Proof.
  revert n m. induction k as [|k IH]; intros n m Hn Hm.
  - simpl in *. assert (n = 0) by lia. assert (m = 0) by lia. now subst.
  - rewrite Nat2Z.inj_succ, Z.pow_succ_r in Hn, Hm by lia.
    cbn [zpad]. rewrite compare_app_same_len by now rewrite !zpad_length.
    rewrite IH by (split; [apply Z.div_pos; lia|apply Z.div_lt_upper_bound; lia]).
    simpl. rewrite digit_compare.
    pose proof (Z.div_mod n 10 ltac:(lia)).
    pose proof (Z.div_mod m 10 ltac:(lia)).
    pose proof (Z.mod_pos_bound n 10 ltac:(lia)).
    pose proof (Z.mod_pos_bound m 10 ltac:(lia)).
    destruct (Z.compare_spec (n / 10) (m / 10));
      destruct (Z.compare_spec (n mod 10) (m mod 10));
      destruct (Z.compare_spec n m); simpl; try reflexivity; lia.
Qed.

(** the calendar: lexicographic order on valid dates is the order of
    their ordinals *)

Definition leap_day (y : Z) : Z := if is_leap y then 1 else 0.

(** days of the year before month [m], month 13 standing for the end of
    the year *)
Definition cum (y m : Z) : Z :=
  if m <=? 1 then 0 else if m <=? 2 then 31
  else leap_day y +
       (if m <=? 3 then 59 else if m <=? 4 then 90
        else if m <=? 5 then 120 else if m <=? 6 then 151
        else if m <=? 7 then 181 else if m <=? 8 then 212
        else if m <=? 9 then 243 else if m <=? 10 then 273
        else if m <=? 11 then 304 else if m <=? 12 then 334 else 365).

Lemma leap_day_bound y : 0 <= leap_day y <= 1.
Proof. unfold leap_day. destruct (is_leap y); lia. Qed.

Ltac month_cases m :=
  let H := fresh in
  assert (m = 1 \/ m = 2 \/ m = 3 \/ m = 4 \/ m = 5 \/ m = 6 \/ m = 7 \/
          m = 8 \/ m = 9 \/ m = 10 \/ m = 11 \/ m = 12) as H by lia;
  repeat (destruct H as [->|H]); try subst m.

Lemma days_before_month_cum y m :
  1 <= m <= 12 -> days_before_month y m = cum y m.
Proof.
  intros Hm. unfold cum, leap_day, days_before_month.
  month_cases m; cbv -[is_leap]; destruct (is_leap y); reflexivity.
Qed.

Lemma cum_succ y m :
  1 <= m <= 12 -> cum y m + days_in_month y m = cum y (m + 1).
Proof.
  intros Hm. unfold cum, leap_day, days_in_month.
  month_cases m; cbv -[is_leap]; destruct (is_leap y); reflexivity.
Qed.

Lemma cum_mono y m m' : m <= m' -> cum y m <= cum y m'.
Proof.
  intros Hle. pose proof (leap_day_bound y). unfold cum.
  repeat match goal with
         | |- context [?a <=? ?b] => destruct (Z.leb_spec a b); try lia
         end.
Qed.

Lemma cum_end y : cum y 13 = 365 + leap_day y.
Proof. unfold cum. simpl. lia. Qed.

Lemma days_before_year_succ y :
  days_before_year (y + 1) = days_before_year y + 365 + leap_day y.
Proof.
  unfold days_before_year, leap_day, is_leap.
  replace (y + 1 - 1) with y by lia.
  destruct (Z.eqb_spec (y mod 4) 0), (Z.eqb_spec (y mod 100) 0),
    (Z.eqb_spec (y mod 400) 0); simpl;
    Z.div_mod_to_equations; lia.
Qed.

Lemma days_before_year_mono y y' :
  y <= y' -> days_before_year y <= days_before_year y'.
Proof.
  intros Hle. unfold days_before_year. Z.div_mod_to_equations. lia.
Qed.

Lemma ymd2ord_lt y m d y' m' d' :
  valid_date y m d -> valid_date y' m' d' ->
  y < y' \/ (y = y' /\ (m < m' \/ (m = m' /\ d < d'))) ->
  ymd2ord y m d < ymd2ord y' m' d'.
Proof.
  intros (Hm & Hd) (Hm' & Hd') Hlt. unfold ymd2ord.
  rewrite !days_before_month_cum by assumption.
  pose proof (cum_succ y m Hm) as Hs.
  destruct Hlt as [Hy|[<- [Hlt|[<- Hlt]]]].
  - pose proof (cum_mono y (m + 1) 13 ltac:(lia)) as H13.
    rewrite cum_end in H13.
    pose proof (days_before_year_succ y) as Hy1.
    pose proof (days_before_year_mono (y + 1) y' ltac:(lia)).
    pose proof (cum_mono y' 1 m' ltac:(lia)) as H1.
    change (cum y' 1) with 0 in H1. lia.
  - pose proof (cum_mono y (m + 1) m' ltac:(lia)). lia.
  - lia.
Qed.

Lemma ymd2ord_compare y m d y' m' d' :
  valid_date y m d -> valid_date y' m' d' ->
  lexc (y ?= y') (lexc (m ?= m') (d ?= d'))
    = (ymd2ord y m d ?= ymd2ord y' m' d').
Proof.
  intros Hv Hv'.
  destruct (Z.compare_spec y y') as [Hy|Hy|Hy]; simpl.
  - subst y'. destruct (Z.compare_spec m m') as [Hmm|Hmm|Hmm]; simpl.
    + subst m'. unfold ymd2ord.
      destruct (Z.compare_spec d d');
        symmetry; [apply Z.compare_eq_iff|apply Z.compare_lt_iff
                  |apply Z.compare_gt_iff]; lia.
    + symmetry. apply Z.compare_lt_iff. apply ymd2ord_lt; auto.
    + symmetry. apply Z.compare_gt_iff. apply ymd2ord_lt; auto.
  - symmetry. apply Z.compare_lt_iff. apply ymd2ord_lt; auto.
  - symmetry. apply Z.compare_gt_iff. apply ymd2ord_lt; auto.
Qed.

Lemma days_in_month_bound y m : 28 <= days_in_month y m <= 31.
Proof.
  unfold days_in_month.
  repeat match goal with |- context [if ?b then _ else _] => destruct b end;
    lia.
Qed.

(** the text of a reading compares as the reading does *)

Lemma compare_refl s : String.compare s s = Eq.
Proof. now apply OrderedTypeEx.String_as_OT.cmp_eq. Qed.

Lemma compare_app_prefix p s1 s2 :
  String.compare (p +:+ s1) (p +:+ s2) = String.compare s1 s2.
Proof.
  rewrite compare_app_same_len by reflexivity. now rewrite compare_refl.
Qed.

Lemma lexc_assoc c1 c2 c3 : lexc c1 (lexc c2 c3) = lexc (lexc c1 c2) c3.
Proof. now destruct c1. Qed.

Definition fraction (us : Z) : string :=
  if us =? 0 then "" else "." +:+ zpad 6 us.

Lemma fraction_compare ua ub off :
  0 <= ua < 1000000 -> 0 <= ub < 1000000 ->
  off = "+00:00" ->
  String.compare (fraction ua +:+ off) (fraction ub +:+ off) = (ua ?= ub).
Proof.
  intros Ha Hb ->. unfold fraction.
  destruct (Z.eqb_spec ua 0) as [->|Hna], (Z.eqb_spec ub 0) as [->|Hnb].
  - reflexivity.
  - simpl. destruct ub; [lia|reflexivity|lia].
  - simpl. destruct ua; [lia|reflexivity|lia].
  - change (("." +:+ zpad 6 ua) +:+ "+00:00")
      with ("." +:+ (zpad 6 ua +:+ "+00:00")).
    change (("." +:+ zpad 6 ub) +:+ "+00:00")
      with ("." +:+ (zpad 6 ub +:+ "+00:00")).
    rewrite compare_app_prefix.
    rewrite compare_app_same_len by (now rewrite !zpad_length).
    rewrite zpad_compare by (simpl; lia).
    rewrite compare_refl. now destruct (ua ?= ub).
Qed.

Lemma now_iso_compare a b :
  valid_reading a -> valid_reading b ->
  String.compare (now_iso a) (now_iso b)
  = lexc (year a ?= year b)
      (lexc (month a ?= month b)
         (lexc (day a ?= day b)
            (lexc (hour a ?= hour b)
               (lexc (minute a ?= minute b)
                  (lexc (second a ?= second b)
                     (microsecond a ?= microsecond b)))))).
Proof.
  intros (Hya & (Hma & Hda) & Hha & Hmia & Hsa & Hua)
         (Hyb & (Hmb & Hdb) & Hhb & Hmib & Hsb & Hub).
  pose proof (days_in_month_bound (year a) (month a)).
  pose proof (days_in_month_bound (year b) (month b)).
  unfold now_iso, isoformat, utcnow.
  cbn [year month day hour minute second microsecond tzinfo].
  change (format_offset 0) with "+00:00".
  fold (fraction (microsecond a)). fold (fraction (microsecond b)).
  repeat (rewrite compare_app_same_len by (now rewrite !zpad_length);
          rewrite zpad_compare by (simpl; lia);
          f_equal; rewrite ?compare_app_prefix).
  now apply fraction_compare.
Qed.

Lemma lexc_radix r hi lo hi' lo' :
  0 <= lo < r -> 0 <= lo' < r ->
  lexc (hi ?= hi') (lo ?= lo') = (hi * r + lo ?= hi' * r + lo').
Proof.
  intros Hlo Hlo'.
  destruct (Z.compare_spec hi hi'); destruct (Z.compare_spec lo lo');
    simpl; symmetry;
    first [apply Z.compare_eq_iff; nia | apply Z.compare_lt_iff; nia
          | apply Z.compare_gt_iff; nia].
Qed.

Lemma wall_micros_compare a b :
  valid_reading a -> valid_reading b ->
  lexc (year a ?= year b)
    (lexc (month a ?= month b)
       (lexc (day a ?= day b)
          (lexc (hour a ?= hour b)
             (lexc (minute a ?= minute b)
                (lexc (second a ?= second b)
                   (microsecond a ?= microsecond b))))))
  = (wall_micros a ?= wall_micros b).
Proof.
  intros (Hya & Hda & Hha & Hmia & Hsa & Hua)
         (Hyb & Hdb & Hhb & Hmib & Hsb & Hub).
  rewrite !lexc_assoc.
  rewrite <- (lexc_assoc (year a ?= year b)).
  rewrite (ymd2ord_compare _ _ _ _ _ _ Hda Hdb).
  rewrite (lexc_radix 24) by assumption.
  rewrite (lexc_radix 60) by assumption.
  rewrite (lexc_radix 60) by assumption.
  rewrite (lexc_radix 1000000) by assumption.
  reflexivity.
Qed.

Lemma now_iso_order a b :
  valid_reading a -> valid_reading b ->
  (str_le (now_iso a) (now_iso b) <-> wall_micros a <= wall_micros b).
Proof.
  intros Ha Hb. unfold str_le, String.leb.
  rewrite now_iso_compare, wall_micros_compare by assumption.
  destruct (Z.compare_spec (wall_micros a) (wall_micros b));
    split; intros; try lia; try reflexivity; discriminate.
Qed.

(** *** Lines and words *)

Lemma graphic_char_plain (c : ascii) (s : string) :
  graphic_char c = true ->
  char_len whitespace (String c s) = 0%nat /\
  char_len line_boundaries (String c s) = 0%nat.
Proof.
  destruct c as [[] [] [] [] [] [] [] []]; try discriminate;
    intros _; split; reflexivity.
Qed.

Lemma append_empty_r (s : string) : s +:+ "" = s.
Proof.
  induction s as [|c s IH]; [reflexivity|].
  change (String c (s +:+ "") = String c s). now rewrite IH.
Qed.

Lemma append_assoc3 (a b c : string) : (a +:+ b) +:+ c = a +:+ b +:+ c.
Proof.
  induction a as [|ch a IH]; [reflexivity|].
  change (String ch ((a +:+ b) +:+ c) = String ch (a +:+ b +:+ c)).
  now rewrite IH.
Qed.

Lemma split_from_graphic (w cur s : string) :
  graphic w = true ->
  split_from 0 cur (w +:+ s) = split_from 0 (cur +:+ w) s.
Proof.
  revert cur. induction w as [|c w IH]; intros cur Hw.
  - now rewrite append_empty_r.
  - simpl in Hw. apply andb_true_iff in Hw as [Hc Hw].
    change (String c w +:+ s) with (String c (w +:+ s)).
    cbn [split_from].
    rewrite (proj1 (graphic_char_plain c (w +:+ s) Hc)).
    rewrite IH by exact Hw. now rewrite append_assoc3.
Qed.

Lemma is_word_inv (w : string) :
  is_word w = true -> graphic w = true /\ emit w = [w].
Proof.
  unfold is_word. intros [Hg Hne]%andb_true_iff. split; [exact Hg|].
  destruct w; [discriminate|reflexivity].
Qed.

Lemma concat_cons (w : string) (ws : list string) :
  String.concat " " (w :: ws)
  = match ws with [] => w | _ => w +:+ String " " (String.concat " " ws) end.
Proof. destruct ws; reflexivity. Qed.

(** [split] undoes the joining of words with single spaces *)
Lemma split_concat (ws : list string) :
  forallb is_word ws = true -> split (String.concat " " ws) = ws.
Proof.
  unfold split. induction ws as [|w ws IH]; [reflexivity|].
  intros Hws. cbn [forallb] in Hws. apply andb_true_iff in Hws as [Hw Hws].
  apply is_word_inv in Hw as [Hg Hemit].
  rewrite concat_cons. destruct ws as [|w' ws].
  - rewrite <- (append_empty_r w) at 1.
    rewrite split_from_graphic by exact Hg. simpl. exact Hemit.
  - rewrite split_from_graphic by exact Hg.
    change (split_from 0 ("" +:+ w) (String " " (String.concat " " (w' :: ws))))
      with (emit w ++ split_from 0 "" (String.concat " " (w' :: ws)))%list.
    rewrite Hemit, IH by exact Hws. reflexivity.
Qed.

Lemma first_line_graphic (w s : string) :
  graphic w = true -> first_line (w +:+ s) = w +:+ first_line s.
Proof.
  induction w as [|c w IH]; intros Hw; [reflexivity|].
  simpl in Hw. apply andb_true_iff in Hw as [Hc Hw].
  change (String c w +:+ s) with (String c (w +:+ s)).
  cbn [first_line].
  rewrite (proj2 (graphic_char_plain c (w +:+ s) Hc)), IH by exact Hw.
  reflexivity.
Qed.

Lemma first_line_concat (ws : list string) (rest : string) :
  forallb is_word ws = true ->
  first_line (String.concat " " ws +:+ CRLF +:+ rest) = String.concat " " ws.
Proof.
  induction ws as [|w ws IH]; [reflexivity|].
  intros Hws. cbn [forallb] in Hws. apply andb_true_iff in Hws as [Hw Hws].
  apply is_word_inv in Hw as [Hg _].
  rewrite concat_cons. destruct ws as [|w' ws].
  - rewrite first_line_graphic by exact Hg. simpl.
    apply append_empty_r.
  - rewrite append_assoc3, first_line_graphic by exact Hg.
    change (first_line (String " " (String.concat " " (w' :: ws)) +:+ CRLF +:+ rest))
      with (String " " (first_line (String.concat " " (w' :: ws) +:+ CRLF +:+ rest))).
    now rewrite IH.
Qed.

Lemma concat_nonempty (w : string) (ws : list string) :
  is_word w = true -> String.concat " " (w :: ws) <> "".
Proof.
  intros [_ He]%is_word_inv. rewrite concat_cons.
  destruct w; [discriminate|]. destruct ws; discriminate.
Qed.

(** *** Pieces and stripping *)

Lemma starts_with_app (q : list N) (p w : string) :
  starts_with q p = true -> starts_with q (p +:+ w) = true.
Proof.
  revert p. induction q as [|b q IH]; intros p; [reflexivity|].
  destruct p as [|c p]; [discriminate|].
  change (String c p +:+ w) with (String c (p +:+ w)). cbn [starts_with].
  intros [Hb Hq]%andb_true_iff. rewrite Hb. simpl. now apply IH.
Qed.

Lemma starts_with_comparable (q q' : list N) (s : string) :
  starts_with q s = true -> starts_with q' s = true ->
  q `prefix_of` q' \/ q' `prefix_of` q.
Proof.
  revert q' s. induction q as [|b q IH]; intros q' s Hq Hq'.
  - left. apply prefix_nil.
  - destruct q' as [|b' q']; [right; apply prefix_nil|].
    destruct s as [|c s]; [discriminate|]. cbn [starts_with] in Hq, Hq'.
    apply andb_true_iff in Hq as [Hb Hq].
    apply andb_true_iff in Hq' as [Hb' Hq'].
    apply N.eqb_eq in Hb, Hb'. subst b b'.
    destruct (IH q' s Hq Hq') as [H|H]; [left|right];
      now apply prefix_cons.
Qed.

Lemma starts_with_prefix (q q' : list N) (s : string) :
  q' `prefix_of` q -> starts_with q s = true -> starts_with q' s = true.
Proof.
  intros [r ->]. revert s. induction q' as [|b q' IH]; intros s;
    [reflexivity|].
  destruct s as [|c s]; [discriminate|]. cbn [app starts_with].
  intros [Hb Hq]%andb_true_iff. rewrite Hb. simpl. now apply IH.
Qed.

Lemma whitespace_prefix_free :
  Forall (fun x => Forall (fun y => x `prefix_of` y -> x = y) whitespace)
    whitespace.
Proof. apply (bool_decide_unpack _). vm_compute. exact I. Qed.

Lemma find_agree {A} (f g : A -> bool) (l : list A) (q : A) :
  (forall x, In x l -> f x = true -> g x = true) ->
  (forall x y, In x l -> In y l -> f x = true -> g y = true -> f y = true) ->
  find f l = Some q -> find g l = Some q.
Proof.
  induction l as [|x l IH]; intros H1 H2 Hf; [discriminate|].
  cbn [find] in *. destruct (f x) eqn:Efx.
  - injection Hf as ->. now rewrite (H1 q (or_introl eq_refl) Efx).
  - destruct (g x) eqn:Egx.
    + apply find_some in Hf as Hq. destruct Hq as [Hin Hfq].
      rewrite (H2 q x (or_intror Hin) (or_introl eq_refl) Hfq Egx) in Efx.
      discriminate.
    + apply IH; auto.
      * intros y Hy. apply H1. now right.
      * intros y z Hy Hz. apply H2; now right.
Qed.

Lemma char_len_app (p w : string) (k : nat) :
  char_len whitespace p = S k -> char_len whitespace (p +:+ w) = S k.
Proof.
  unfold char_len.
  destruct (find (fun q => starts_with q p) whitespace) as [q|] eqn:Ef;
    [|discriminate].
  intros Hk.
  rewrite (find_agree (fun q => starts_with q p)
             (fun q => starts_with q (p +:+ w)) whitespace q); auto.
  - intros x _. apply starts_with_app.
  - intros x y Hx Hy Hfx Hgy.
    pose proof (starts_with_app x p w Hfx) as Hgx.
    pose proof whitespace_prefix_free as Hpf.
    rewrite Forall_forall in Hpf.
    apply list_elem_of_In in Hx, Hy.
    pose proof (Hpf x Hx) as Hxy. rewrite Forall_forall in Hxy.
    pose proof (Hpf y Hy) as Hyx. rewrite Forall_forall in Hyx.
    destruct (starts_with_comparable x y _ Hgx Hgy) as [H|H].
    + rewrite <- (Hxy y Hy H). exact Hfx.
    + rewrite (Hyx x Hx H). exact Hfx.
Qed.

Lemma drop_bytes_app (n : nat) (p w : string) :
  (n <= String.length p)%nat ->
  drop_bytes n (p +:+ w) = drop_bytes n p +:+ w.
Proof.
  revert p. induction n as [|n IH]; intros p Hn.
  - now destruct p.
  - destruct p as [|c p]; [simpl in Hn; lia|].
    change (String c p +:+ w) with (String c (p +:+ w)). cbn [drop_bytes].
    apply IH. simpl in Hn. lia.
Qed.

Lemma starts_with_length (q : list N) (s : string) :
  starts_with q s = true -> (length q <= String.length s)%nat.
Proof.
  revert s. induction q as [|b q IH]; intros s; [simpl; lia|].
  destruct s as [|c s]; [discriminate|]. cbn [starts_with].
  intros [_ Hq]%andb_true_iff. apply IH in Hq. simpl. lia.
Qed.

Lemma char_len_le (table : list (list N)) (s : string) :
  (char_len table s <= String.length s)%nat.
Proof.
  unfold char_len.
  destruct (find (fun q => starts_with q s) table) as [q|] eqn:Ef; [|lia].
  apply find_some in Ef as [_ Hq]. now apply starts_with_length.
Qed.

Lemma drop_bytes_length (n : nat) (s : string) :
  String.length (drop_bytes n s) = (String.length s - n)%nat.
Proof.
  revert s. induction n as [|n IH]; intros s.
  - destruct s; simpl; lia.
  - destruct s as [|c s]; [reflexivity|]. cbn [drop_bytes]. rewrite IH.
    reflexivity.
Qed.

Lemma after_space_length (s r : string) :
  after_space s = Some r -> (String.length r < String.length s)%nat.
Proof.
  unfold after_space. pose proof (char_len_le whitespace s) as Hle.
  destruct (char_len whitespace s) as [|k]; [discriminate|].
  intros Hr. injection Hr as <-.
  change (String.length (drop_bytes (S k) s) < String.length s)%nat.
  rewrite drop_bytes_length. lia.
Qed.

Lemma after_space_app (p r w : string) :
  after_space p = Some r -> after_space (p +:+ w) = Some (r +:+ w).
Proof.
  unfold after_space. pose proof (char_len_le whitespace p) as Hle.
  destruct (char_len whitespace p) as [|k] eqn:Ek; [discriminate|].
  intros [= <-]. rewrite (char_len_app p w k Ek).
  now rewrite drop_bytes_app.
Qed.

Lemma lstrip_fuel_enough (n m : nat) (s : string) :
  (String.length s <= n)%nat -> (String.length s <= m)%nat ->
  lstrip_fuel n s = lstrip_fuel m s.
Proof.
  revert m s. induction n as [|n IH]; intros m s Hn Hm.
  - destruct s; [|simpl in Hn; lia]. now destruct m.
  - destruct m as [|m].
    + destruct s; [reflexivity|simpl in Hm; lia].
    + cbn [lstrip_fuel]. destruct (after_space s) as [r|] eqn:Er;
        [|reflexivity].
      apply after_space_length in Er. apply IH; lia.
Qed.

Lemma lstrip_unfold (s : string) :
  lstrip s = match after_space s with Some r => lstrip r | None => s end.
Proof.
  unfold lstrip. destruct s as [|c s]; [reflexivity|].
  cbn [String.length lstrip_fuel].
  destruct (after_space (String c s)) as [r|] eqn:Er; [|reflexivity].
  apply after_space_length in Er. apply lstrip_fuel_enough; simpl in *; lia.
Qed.

Lemma by_length (P : string -> Prop) :
  (forall s, (forall r, (String.length r < String.length s)%nat -> P r) -> P s) ->
  forall s, P s.
Proof.
  intros H s. remember (String.length s) as n eqn:En.
  revert s En. induction n as [n IH] using lt_wf_ind. intros s ->.
  apply H. intros r Hr. now apply (IH _ Hr).
Qed.

Lemma lstrip_head (s : string) : after_space (lstrip s) = None.
Proof.
  induction s as [s IH] using by_length. rewrite lstrip_unfold.
  destruct (after_space s) as [r|] eqn:Er; [|exact Er].
  apply IH. now apply after_space_length.
Qed.

Lemma drop_bytes_suffix (n : nat) (s : string) :
  exists p, s = p +:+ drop_bytes n s.
Proof.
  revert s. induction n as [|n IH]; intros s.
  - exists "". now destruct s.
  - destruct s as [|c s]; [now exists ""|].
    destruct (IH s) as [p Hp]. exists (String c p). cbn [drop_bytes].
    change (String c p +:+ drop_bytes n s)
      with (String c (p +:+ drop_bytes n s)). now rewrite <- Hp.
Qed.

Lemma lstrip_suffix (s : string) : exists p, s = p +:+ lstrip s.
Proof.
  induction s as [s IH] using by_length. rewrite lstrip_unfold.
  destruct (after_space s) as [r|] eqn:Er; [|now exists ""].
  destruct (IH r (after_space_length _ _ Er)) as [p Hp].
  unfold after_space in Er.
  destruct (char_len whitespace s) as [|k]; [discriminate|].
  injection Er as Er. change (drop_bytes (S k) s = r) in Er.
  destruct (drop_bytes_suffix (S k) s) as [p0 Hp0].
  rewrite Er in Hp0. exists (p0 +:+ p).
  now rewrite append_assoc3, <- Hp.
Qed.

Lemma lstrip_app (p w : string) :
  lstrip p = "" -> lstrip (p +:+ w) = lstrip w.
Proof.
  induction p as [p IH] using by_length. rewrite (lstrip_unfold p).
  destruct (after_space p) as [r|] eqn:Er.
  - intros Hr. rewrite (lstrip_unfold (p +:+ w)).
    rewrite (after_space_app p r w Er).
    apply IH; [now apply after_space_length|exact Hr].
  - now intros ->.
Qed.

Lemma rstrip_prefix (s : string) :
  exists w, s = rstrip s +:+ w /\ lstrip w = "".
Proof.
  induction s as [|c s IH]; [now exists ""|].
  cbn [rstrip]. destruct (lstrip (String c s)) as [|c' t] eqn:El.
  - now exists (String c s).
  - destruct IH as (w & Hs & Hw). exists w. split; [|exact Hw].
    change (String c (rstrip s) +:+ w) with (String c (rstrip s +:+ w)).
    now rewrite <- Hs.
Qed.

Lemma rstrip_idem (s : string) : rstrip (rstrip s) = rstrip s.
Proof.
  induction s as [|c s IH]; [reflexivity|].
  cbn [rstrip]. destruct (lstrip (String c s)) as [|c' t] eqn:El;
    [reflexivity|].
  cbn [rstrip]. rewrite IH.
  destruct (lstrip (String c (rstrip s))) as [|c'' t''] eqn:El';
    [|reflexivity].
  destruct (rstrip_prefix s) as (w & Hs & Hw).
  pose proof (lstrip_app (String c (rstrip s)) w El') as Happ.
  change (String c (rstrip s) +:+ w) with (String c (rstrip s +:+ w))
    in Happ.
  rewrite <- Hs, Hw, El in Happ. discriminate.
Qed.

Lemma lstrip_rstrip (t : string) :
  after_space t = None -> lstrip (rstrip t) = rstrip t.
Proof.
  intros Ht. rewrite lstrip_unfold.
  destruct (after_space (rstrip t)) as [r|] eqn:Er; [|reflexivity].
  destruct (rstrip_prefix t) as (w & Hs & _).
  apply (after_space_app _ _ w) in Er. rewrite <- Hs, Ht in Er.
  discriminate.
Qed.

Lemma strip_idem (s : string) : strip (strip s) = strip s.
Proof.
  unfold strip.
  rewrite (lstrip_rstrip (lstrip s)) by apply lstrip_head.
  apply rstrip_idem.
Qed.

Lemma split_sep_from_word (sep : ascii) (w word s : string) :
  ~ In sep (list_ascii_of_string w) ->
  split_sep_from sep word (w +:+ s) = split_sep_from sep (word +:+ w) s.
Proof.
  revert word. induction w as [|c w IH]; intros word Hw.
  - now rewrite append_empty_r.
  - change (String c w +:+ s) with (String c (w +:+ s)).
    cbn [split_sep_from]. simpl in Hw.
    destruct (Ascii.eqb c sep) eqn:Ec.
    { apply Ascii.eqb_eq in Ec. tauto. }
    rewrite IH by tauto. now rewrite append_assoc3.
Qed.

Lemma concat_sep_cons (sep w : string) (ws : list string) :
  String.concat sep (w :: ws)
  = match ws with [] => w | _ => w +:+ sep +:+ String.concat sep ws end.
Proof. destruct ws; reflexivity. Qed.

Lemma split_sep_concat (ws : list string) :
  ws <> [] ->
  Forall (fun w => ~ In ","%char (list_ascii_of_string w)) ws ->
  split_sep "," (String.concat "," ws) = ws.
Proof.
  unfold split_sep. induction ws as [|w ws IH]; [congruence|].
  intros _ Hws. apply Forall_cons in Hws as [Hw Hws].
  rewrite concat_sep_cons. destruct ws as [|w' ws].
  - pose proof (split_sep_from_word "," w "" "" Hw) as H.
    rewrite append_empty_r in H. rewrite H. reflexivity.
  - rewrite split_sep_from_word by exact Hw.
    change (split_sep_from "," ("" +:+ w)
              ("," +:+ String.concat "," (w' :: ws)))
      with (w :: split_sep_from "," "" (String.concat "," (w' :: ws))).
    rewrite IH; [reflexivity|discriminate|exact Hws].
Qed.

Lemma lstrip_blank (n : nat) (s : string) :
  lstrip (blank n +:+ s) = lstrip s.
Proof.
  induction n as [|n IH]; [reflexivity|].
  rewrite lstrip_unfold.
  change (after_space (blank (S n) +:+ s)) with (Some (blank n +:+ s)).
  exact IH.
Qed.

Lemma after_space_graphic (c : ascii) (s : string) :
  graphic_char c = true -> after_space (String c s) = None.
Proof.
  intros Hc. unfold after_space.
  now rewrite (proj1 (graphic_char_plain c s Hc)).
Qed.

Lemma lstrip_graphic (c : ascii) (s : string) :
  graphic_char c = true -> lstrip (String c s) = String c s.
Proof.
  intros Hc. now rewrite lstrip_unfold, after_space_graphic.
Qed.

Lemma lstrip_blank_all (n : nat) : lstrip (blank n) = "".
Proof.
  rewrite <- (append_empty_r (blank n)). now rewrite lstrip_blank.
Qed.

Lemma rstrip_blank (n : nat) : rstrip (blank n) = "".
Proof.
  destruct n as [|n]; [reflexivity|].
  change (blank (S n)) with (String " " (blank n)). cbn [rstrip].
  change (String " " (blank n)) with (blank (S n)).
  now rewrite lstrip_blank_all.
Qed.

Lemma rstrip_graphic (u : string) (n : nat) :
  graphic u = true -> rstrip (u +:+ blank n) = u.
Proof.
  induction u as [|c u IH]; intros Hu; [apply rstrip_blank|].
  simpl in Hu. apply andb_true_iff in Hu as [Hc Hu].
  change (String c u +:+ blank n) with (String c (u +:+ blank n)).
  cbn [rstrip]. rewrite (lstrip_graphic c _ Hc), IH by exact Hu.
  reflexivity.
Qed.

Lemma blank_chars (c : ascii) (n : nat) :
  In c (list_ascii_of_string (blank n)) -> c = " "%char.
Proof.
  induction n as [|n IH]; simpl; [tauto|]. intros [H|H]; auto.
Qed.


Lemma split_sep_from_nonempty (sep : ascii) (word s : string) :
  split_sep_from sep word s <> [].
Proof.
  revert word. induction s as [|c s IH]; intros word; [discriminate|].
  cbn [split_sep_from]. destruct (Ascii.eqb c sep); [discriminate|apply IH].
Qed.

Lemma concat_split_sep_from (word s : string) :
  String.concat "," (split_sep_from "," word s) = word +:+ s.
Proof.
  revert word. induction s as [|c s IH]; intros word.
  - simpl. now rewrite append_empty_r.
  - cbn [split_sep_from]. destruct (Ascii.eqb c ",") eqn:Ec.
    + apply Ascii.eqb_eq in Ec. subst c. rewrite concat_sep_cons.
      pose proof (split_sep_from_nonempty "," "" s) as Hne.
      destruct (split_sep_from "," "" s) eqn:E; [congruence|].
      rewrite <- E, IH. reflexivity.
    + rewrite IH, append_assoc3. reflexivity.
Qed.

End Py_facts.

(** ** The observer *)

Module Bastion_facts.
Import Py Py_facts Bastion.

Lemma append_nonempty_r a b : b ≠ "" -> a +:+ b ≠ "".
Proof. destruct a; simpl; [auto|discriminate]. Qed.

Lemma append_nonempty_l a b : a ≠ "" -> a +:+ b ≠ "".
Proof. destruct a; simpl; [congruence|discriminate]. Qed.

Lemma zpad_nonempty k n : zpad (S k) n ≠ "".
Proof. simpl. apply append_nonempty_r. discriminate. Qed.

(** the text of a clock reading is never the empty string *)
Lemma now_iso_nonempty clock : now_iso clock ≠ "".
Proof. unfold now_iso, isoformat. apply append_nonempty_l, zpad_nonempty. Qed.

Lemma truthy_Some s : truthy (Some s) = true <-> s ≠ "".
Proof.
  simpl. destruct (String.eqb_spec s ""); simpl; split; congruence.
Qed.


Lemma end_t_setdefault ev : end_t (setdefault_source ev) = end_t ev.
Proof. unfold setdefault_source, end_t. now destruct (source ev). Qed.

Lemma text_key_setdefault ev : text_key (setdefault_source ev) = text_key ev.
Proof. unfold setdefault_source, text_key, sort_key. now destruct (source ev). Qed.

(** *** The sort *)

Section SortOutcome.
Context {srt : ListSort}.

(** returned or raised, the sort leaves the elements it was given *)
Lemma list_sort_perm l : left_by (list_sort l) ≡ₚ l.
Proof.
  unfold list_sort. destruct l as [|a [|b l]]; [reflexivity..|].
  destruct (forallb text_key (a :: b :: l)); [apply sort_desc_perm|].
  destruct (existsb text_key (a :: b :: l));
    [|apply sort_without_text_perm].
  destruct (last_two_differ (a :: b :: l));
    [reflexivity|apply left_by_failed_sort_perm].
Qed.

(** a list whose keys are all strings is sorted, and the sort returns *)
Lemma list_sort_text l :
  forallb text_key l = true -> list_sort l = Done (sort_desc end_key l).
Proof.
  intros Hl. unfold list_sort. destruct l as [|a [|b l]]; [reflexivity..|].
  now rewrite Hl.
Qed.



(** a list that holds a key that is a string and a key that is none makes
    the sort raise *)
Lemma list_sort_mixed l x y :
  x ∈ l -> y ∈ l -> text_key x = true -> text_key y = false ->
  exists l', list_sort l = Raised l'.
Proof.
  intros Hx Hy Htx Hty.
  assert (forallb text_key l = false) as Hall.
  { destruct (forallb text_key l) eqn:E; [|reflexivity].
    rewrite forallb_forall in E.
    apply list_elem_of_In, E in Hy. congruence. }
  assert (existsb text_key l = true) as Hex.
  { apply existsb_exists. exists x. split; [|exact Htx].
    now apply list_elem_of_In. }
  unfold list_sort. destruct l as [|a [|b l]].
  - discriminate Hex.
  - simpl in Hall, Hex. destruct (text_key a); discriminate.
  - rewrite Hall, Hex. destruct (last_two_differ (a :: b :: l)); eauto.
Qed.

(** a sort that raises leaves a key that is no string *)
Lemma list_sort_raised l l' :
  list_sort l = Raised l' -> forallb text_key l' = false.
Proof.
  unfold list_sort. destruct l as [|a [|b l]]; [discriminate..|].
  destruct (forallb text_key (a :: b :: l)) eqn:Hall; [discriminate|].
  assert (forall l0, l0 ≡ₚ a :: b :: l -> forallb text_key l0 = false)
    as Hperm.
  { intros l0 Hp. destruct (forallb text_key l0) eqn:H0; [|reflexivity].
    rewrite forallb_forall in H0.
    assert (forallb text_key (a :: b :: l) = true) as Habs.
    { apply forallb_forall. intros x Hx. apply H0.
      apply list_elem_of_In. rewrite Hp. now apply list_elem_of_In. }
    congruence. }
  destruct (existsb text_key (a :: b :: l)) eqn:Hex.
  - destruct (last_two_differ (a :: b :: l)); intros [= <-];
      [exact Hall|apply Hperm, left_by_failed_sort_perm].
  - intros Hs. apply Hperm.
    pose proof (sort_without_text_perm (a :: b :: l)) as Hp.
    now rewrite Hs in Hp.
Qed.
End SortOutcome.

Section Filter.
Context {parser : IsoParser} {cfg : Config} {srt : ListSort}.

Lemma is_after_cutoff_setdefault cutoff ev :
  _is_after_cutoff cutoff (setdefault_source ev) = _is_after_cutoff cutoff ev.
Proof. unfold _is_after_cutoff. now rewrite end_t_setdefault. Qed.

Lemma elem_of_filter_by_cutoff cutoff peer_hist x :
  x ∈ filter_by_cutoff cutoff peer_hist <->
  _is_after_cutoff cutoff x = true /\
  exists ev, ev ∈ peer_hist /\ x = setdefault_source ev.
Proof.
  unfold filter_by_cutoff.
  rewrite list_elem_of_In, filter_In, <- list_elem_of_In, list_elem_of_fmap.
  split; intros [H1 H2].
  - destruct H1 as [ev [-> Hin]]. eauto.
  - destruct H2 as [ev [Hin ->]]. eauto.
Qed.

Lemma elem_of_new_items hist filtered x :
  x ∈ new_items_of hist filtered <->
  x ∈ filtered /\ is_known hist x = false.
Proof.
  unfold new_items_of.
  rewrite list_elem_of_In, filter_In, <- list_elem_of_In, negb_true_iff.
  reflexivity.
Qed.

(** what the sort and the [del] leave holds records of the list only *)
Lemma sort_and_trim_elem l x : x ∈ sort_and_trim l -> x ∈ l.
Proof.
  unfold sort_and_trim. pose proof (list_sort_perm l) as Hp.
  destruct (list_sort l) as [l'|l']; simpl in Hp; intros Hx.
  - unfold del_from in Hx. apply subseteq_take in Hx. now rewrite <- Hp.
  - now rewrite <- Hp.
Qed.

(** when the sort returns, the bound holds *)
Lemma sort_and_trim_text l :
  forallb text_key l = true ->
  sort_and_trim l = del_from MAX_HISTORY (sort_desc end_key l).
Proof. intros Hl. unfold sort_and_trim. now rewrite list_sort_text. Qed.

(** the tables and the cutoff are out of reach of a merge *)
Lemma merge_history_frame peer_hist st :
  external_tests (merge_history peer_hist st) = external_tests st /\
  internal_status (merge_history peer_hist st) = internal_status st /\
  HISTORY_IGNORE_BEFORE (merge_history peer_hist st)
    = HISTORY_IGNORE_BEFORE st /\
  created_tasks (merge_history peer_hist st) = created_tasks st.
Proof.
  unfold merge_history.
  destruct (filter_by_cutoff _ _); [tauto|].
  destruct (hashable_all _ _); [|tauto].
  destruct (new_items_of _ _); tauto.
Qed.

(** what a merge does to the history, in one equation *)
Lemma merge_history_history peer_hist st :
  history (merge_history peer_hist st) =
  if hashable_all (history st)
       (filter_by_cutoff (HISTORY_IGNORE_BEFORE st) peer_hist)
  then
    match new_items_of (history st)
            (filter_by_cutoff (HISTORY_IGNORE_BEFORE st) peer_hist) with
    | [] => history st
    | new_items => sort_and_trim (new_items ++ history st)
    end
  else history st.
Proof.
  unfold merge_history.
  destruct (filter_by_cutoff _ _) as [|a f] eqn:F.
  - now destruct (hashable_all _ _).
  - destruct (hashable_all _ _); [|reflexivity].
    destruct (new_items_of _ _); reflexivity.
Qed.

(** every record of the merged history was in the history or is new *)
Lemma merge_history_elem peer_hist st x :
  x ∈ history (merge_history peer_hist st) ->
  x ∈ history st \/
  x ∈ new_items_of (history st)
        (filter_by_cutoff (HISTORY_IGNORE_BEFORE st) peer_hist).
Proof.
  rewrite merge_history_history.
  destruct (hashable_all _ _); [|auto].
  destruct (new_items_of _ _) as [|a r] eqn:N; [auto|].
  intros Hx. apply sort_and_trim_elem in Hx.
  apply elem_of_app in Hx. tauto.
Qed.
End Filter.

(** *** Clear and the cutoff *)

Section Clear.
Context {parser : IsoParser} {cfg : Config} {srt : ListSort}.

(** C2. The clear command sets the cutoff to the current time whatever it
    held, empties the history, creates the fan-out as a task without running
    it, and answers; the fan-out posts the clear to every peer, and a peer
    that receives it empties its own history and nothing else. *)
Theorem clear_history_protocol (clock : datetime) (st : state) :
  (handle_clear_history clock st).1 = "history cleared" /\
  (handle_clear_history clock st).2
    = create_task FanoutClear
        (with_history [] (set_cutoff (now_iso clock) st)) /\
  HISTORY_IGNORE_BEFORE (handle_clear_history clock st).2
    = Some (now_iso clock) /\
  history (handle_clear_history clock st).2 = [] /\
  created_tasks (handle_clear_history clock st).2
    = (created_tasks st ++ [FanoutClear])%list /\
  run_task FanoutClear
    = map (fun url => Post (url +:+ "/admin/clear_history")) ROUTE_PEERS /\
  forall (peer : Pod.Config) (peer_clock : datetime) (pst : Pod.state),
    (Pod.handle_http "POST" "/admin/clear_history" peer_clock pst).2
      = Pod.with_HISTORY [] pst /\
    Pod.HISTORY
      (Pod.handle_http "POST" "/admin/clear_history" peer_clock pst).2 = [] /\
    Pod.connection_state
      (Pod.handle_http "POST" "/admin/clear_history" peer_clock pst).2
      = Pod.connection_state pst.
Proof.
  repeat split.
Qed.




(** C10. The filter fails open: a record with neither [end_time] nor
    [start_time], or whose compared timestamp does not parse (it is no
    timestamp, or no string at all), or met while the stored cutoff does
    not parse, is kept whatever the cutoff; it is among the filtered records
    of its batch, and among the new items when its key is not known yet:
    the merge prepends them, sorts and trims, unless hashing a key
    raises. *)
Theorem cutoff_filter_fails_open (cutoff : option string) (ev : event) :
  (truthy_value (get (end_time ev)) = false /\
   truthy_value (get (start_time ev)) = false) \/
  end_t ev ≫= fromisoformat_value = None \/
  cutoff ≫= fromisoformat = None ->
  _is_after_cutoff cutoff ev = true /\
  forall peer_hist st,
    HISTORY_IGNORE_BEFORE st = cutoff ->
    ev ∈ peer_hist ->
    setdefault_source ev ∈ filter_by_cutoff cutoff peer_hist /\
    (is_known (history st) (setdefault_source ev) = false ->
     setdefault_source ev
       ∈ new_items_of (history st) (filter_by_cutoff cutoff peer_hist) /\
     (hashable_all (history st) (filter_by_cutoff cutoff peer_hist) = true ->
      history (merge_history peer_hist st)
        = sort_and_trim
            (new_items_of (history st) (filter_by_cutoff cutoff peer_hist)
               ++ history st))).
Proof.
  intros Hcase.
  assert (_is_after_cutoff cutoff ev = true) as Hkeep.
  { unfold _is_after_cutoff.
    destruct (truthy cutoff); [|reflexivity]. simpl.
    destruct Hcase as [[He Hs]|[Hp|Hp]].
    - unfold end_t, or_value. now rewrite He, Hs.
    - rewrite Hp. now destruct (truthy_value (end_t ev)).
    - rewrite Hp. destruct (truthy_value (end_t ev)); [|reflexivity]. simpl.
      now destruct (end_t ev ≫= fromisoformat_value). }
  split; [exact Hkeep|].
  intros peer_hist st Hcut Hin.
  assert (setdefault_source ev ∈ filter_by_cutoff cutoff peer_hist) as Hf.
  { rewrite elem_of_filter_by_cutoff, is_after_cutoff_setdefault. eauto. }
  split; [exact Hf|]. intros Hnew.
  assert (setdefault_source ev
            ∈ new_items_of (history st) (filter_by_cutoff cutoff peer_hist))
    as Hn by (now apply elem_of_new_items).
  split; [exact Hn|]. intros Hhash.
  rewrite merge_history_history, Hcut, Hhash.
  destruct (new_items_of _ _); [|reflexivity].
  now apply elem_of_nil in Hn.
Qed.

(** *** A failed fetch *)

Lemma store_snapshot_lookup nm doc st k :
  internal_status (store_snapshot nm doc st) !! k
    = if decide (nm = k) then Some doc else internal_status st !! k.
Proof. simpl. apply lookup_insert. Qed.

(** C7. A cycle whose history fetch fails leaves the history as it was; a
    cycle whose snapshot fetch fails stores, under the peer's name, the
    object that holds the text of the exception under "error" and the
    status URL under "url", and nothing else; and no cycle removes a
    snapshot entry: every key that had one keeps one, and only the peer's
    own key changes. *)
Theorem failed_fetch_leaves_history_and_snapshots
    (nm base_url : string) (st : state) :
  (forall status_resp,
     history (poll_peer_status_task nm base_url status_resp None st)
       = history st) /\
  (forall e history_resp,
     internal_status
       (poll_peer_status_task nm base_url (inr e) history_resp st) !! nm
       = Some (JObj [("error", JStr e);
                     ("url", JStr (base_url +:+ "/status"))])) /\
  (forall status_resp history_resp k,
     is_Some (internal_status st !! k) ->
     is_Some (internal_status
                (poll_peer_status_task nm base_url status_resp
                   history_resp st) !! k)) /\
  (forall status_resp history_resp k,
     k ≠ nm ->
     internal_status
       (poll_peer_status_task nm base_url status_resp history_resp st) !! k
       = internal_status st !! k).
Proof.
  assert (forall status_resp history_resp,
            internal_status
              (poll_peer_status_task nm base_url status_resp history_resp st)
            = <[nm := match status_resp with
                      | inl doc => doc
                      | inr e =>
                          JObj [("error", JStr e);
                                ("url", JStr (base_url +:+ "/status"))]
                      end]> (internal_status st)) as Hsnap.
  { intros status_resp history_resp. unfold poll_peer_status_task.
    destruct history_resp as [peer_hist|].
    - rewrite (proj1 (proj2 (merge_history_frame _ _))).
      now destruct status_resp.
    - now destruct status_resp. }
  repeat split.
  - intros status_resp. unfold poll_peer_status_task.
    now destruct status_resp.
  - intros e history_resp. rewrite Hsnap. apply lookup_insert_eq.
  - intros status_resp history_resp k Hk. rewrite Hsnap.
    rewrite lookup_insert. now case_decide.
  - intros status_resp history_resp k Hk. rewrite Hsnap.
    now apply lookup_insert_ne.
Qed.
End Clear.

(** *** Merging *)

(** the sort key as a string: the text of [end_time], and the empty
    string for everything that is no string *)
Lemma end_key_field h :
  end_key h = match end_time h with Str s => s | _ => "" end.
Proof.
  unfold end_key, sort_key, or_value, get, truthy_value.
  destruct (end_time h) as [| |s|v]; try reflexivity.
  - destruct (String.eqb_spec s ""); simpl; congruence.
  - now destruct (truthy_other v).
Qed.








Section Merge.
Context {parser : IsoParser} {cfg : Config} {srt : ListSort}.












Lemma hashable_all_spec hist filtered :
  hashable_all hist filtered = true <->
  Forall (fun h => hashable h = true) hist /\
  Forall (fun h => hashable h = true) filtered.
Proof.
  unfold hashable_all.
  rewrite andb_true_iff, !forallb_forall, !Forall_forall.
  split; intros [H1 H2]; split; intros x Hx.
  - apply H1. now apply list_elem_of_In.
  - apply H2. now apply list_elem_of_In.
  - apply H1. now apply list_elem_of_In.
  - apply H2. now apply list_elem_of_In.
Qed.

Lemma forallb_text l :
  forallb text_key l = true <-> Forall (fun h => text_key h = true) l.
Proof.
  rewrite forallb_forall, Forall_forall.
  split; intros H x Hx; apply H; now apply list_elem_of_In.
Qed.





End Merge.

(** *** The local insertion *)

Section History.
Context {parser : IsoParser} {cfg : Config} {srt : ListSort}.

Lemma log_disconnection_event_history nm proto start_time_str src clock st :
  history (log_disconnection_event nm proto start_time_str src clock st) =
  match outage_record nm proto start_time_str src clock with
  | Some ev => del_from MAX_HISTORY (ev :: history st)
  | None => history st
  end.
Proof.
  unfold log_disconnection_event. now destruct (outage_record _ _ _ _ _).
Qed.

(** *** The duration *)

Lemma outage_record_inv nm proto start_time_str src clock ev :
  outage_record nm proto start_time_str src clock = Some ev ->
  exists start d,
    fromisoformat start_time_str = Some start /\
    Py.sub (utcnow clock) start = Some d /\
    ev = {| name := Str nm; protocol := Str proto;
            start_time := Str (isoformat start);
            end_time := Str (now_iso clock);
            duration_sec := Some (round2 (total_seconds d));
            source := Str src; reporter := Absent |}.
Proof.
  unfold outage_record. intros Hev.
  destruct (fromisoformat start_time_str) as [start|] eqn:Hs;
    [|discriminate].
  cbn [mbind option_bind] in Hev.
  destruct (Py.sub (utcnow clock) start) as [d|] eqn:Hd; [|discriminate].
  cbn [mbind option_bind] in Hev.
  exists start, d. repeat split; [exact Hd|].
  injection Hev as <-. reflexivity.
Qed.

Lemma outage_record_total nm proto start_time_str src clock start d :
  fromisoformat start_time_str = Some start ->
  Py.sub (utcnow clock) start = Some d ->
  outage_record nm proto start_time_str src clock =
  Some {| name := Str nm; protocol := Str proto;
          start_time := Str (isoformat start);
          end_time := Str (now_iso clock);
          duration_sec := Some (round2 (total_seconds d));
          source := Str src; reporter := Absent |}.
Proof. unfold outage_record. intros -> Hd. simpl. now rewrite Hd. Qed.

Lemma pod_outage_record_inv {pod : Pod.Config}
    target proto start_time_str clock ev :
  Pod.outage_record target proto start_time_str clock = Some ev ->
  exists start d,
    fromisoformat start_time_str = Some start /\
    Py.sub (utcnow clock) start = Some d /\
    ev = {| name := Str target; protocol := Str proto;
            start_time := Str (isoformat start);
            end_time := Str (now_iso clock);
            duration_sec := Some (round2 (total_seconds d));
            source := Str "pod"; reporter := Str Pod.POD_NAME |}.
Proof.
  unfold Pod.outage_record. intros Hev.
  destruct (fromisoformat start_time_str) as [start|] eqn:Hs;
    [|discriminate].
  cbn [mbind option_bind] in Hev.
  destruct (Py.sub (utcnow clock) start) as [d|] eqn:Hd; [|discriminate].
  cbn [mbind option_bind] in Hev.
  exists start, d. repeat split; [exact Hd|].
  injection Hev as <-. reflexivity.
Qed.

(** C6, as the code has it.  Every record that either recorder builds
    stores [round (end - start, 2)], [end] being the clock reading and
    [start] the parsed start time, with no clamping: the stored duration is
    not negative whenever [start] is not after [end].  The observer's
    recorder builds a record whenever the start time parses and can be
    subtracted from the reading. *)
Theorem duration_is_rounded_difference
    (clock : datetime) (start_time_str : string) :
  (forall nm proto src ev,
     outage_record nm proto start_time_str src clock = Some ev ->
     exists start d,
       fromisoformat start_time_str = Some start /\
       Py.sub (utcnow clock) start = Some d /\
       duration_sec ev = Some (round2 (total_seconds d)) /\
       (0 <= d -> 0 <= round2 (total_seconds d))) /\
  (forall (pod : Pod.Config) target proto ev,
     Pod.outage_record target proto start_time_str clock = Some ev ->
     exists start d,
       fromisoformat start_time_str = Some start /\
       Py.sub (utcnow clock) start = Some d /\
       duration_sec ev = Some (round2 (total_seconds d)) /\
       (0 <= d -> 0 <= round2 (total_seconds d))) /\
  (forall nm proto src start d,
     fromisoformat start_time_str = Some start ->
     Py.sub (utcnow clock) start = Some d ->
     exists ev,
       outage_record nm proto start_time_str src clock = Some ev /\
       duration_sec ev = Some (round2 (total_seconds d))).
Proof.
  split; [|split].
  - intros nm proto src ev Hev.
    apply outage_record_inv in Hev as (start & d & Hs & Hd & ->).
    exists start, d. eauto using round2_total_seconds_nonneg.
  - intros pod target proto ev Hev.
    apply pod_outage_record_inv in Hev as (start & d & Hs & Hd & ->).
    exists start, d. eauto using round2_total_seconds_nonneg.
  - intros nm proto src start d Hs Hd.
    rewrite (outage_record_total nm proto _ src _ _ _ Hs Hd). eauto.
Qed.
End History.

(** *** The probers of the observer *)

Section Prober.
Context {parser : IsoParser} {cfg : Config} {srt : ListSort}.

Lemma run_prober_app proto nm l1 l2 cs :
  run_prober proto nm (l1 ++ l2) cs
    = run_prober proto nm l2 (run_prober proto nm l1 cs).
Proof. unfold run_prober. apply foldl_app. Qed.

(** a failed cycle adds nothing to the history; it starts the outage when
    the link was not down already *)
Lemma probe_cycle_failure proto nm e tk c st :
  history (probe_cycle proto nm (Failure e) tk (c, st)).2 = history st /\
  (probe_cycle proto nm (Failure e) tk (c, st)).1
    = if decide (conn_status c = Error) then c
      else {| conn_status := Error; since := now_iso (t_since tk) |}.
Proof. split; reflexivity. Qed.

(** a completed cycle adds nothing when the link was not down *)
Lemma probe_cycle_success_up proto nm tk c st :
  conn_status c ≠ Error ->
  history (probe_cycle proto nm Success tk (c, st)).2 = history st.
Proof. intros Hc. simpl. now destruct (decide (conn_status c = Error)). Qed.

Lemma run_prober_cons proto nm o tk l cs :
  run_prober proto nm ((o, tk) :: l) cs
    = run_prober proto nm l (probe_cycle proto nm o tk cs).
Proof. reflexivity. Qed.

Lemma probe_cycle_failure_down proto nm e tk c st :
  conn_status c = Error ->
  probe_cycle proto nm (Failure e) tk (c, st)
    = (c, set_state (nm +:+ " (" +:+ proto +:+ ")") Error e (t_update tk) st).
Proof.
  intros Hc. unfold probe_cycle.
  now destruct (decide (conn_status c = Error)).
Qed.

(** while the link stays down nothing changes but the status table *)
Lemma run_failures_down proto nm l c st :
  conn_status c = Error ->
  (run_prober proto nm (failures_of l) (c, st)).1 = c /\
  history (run_prober proto nm (failures_of l) (c, st)).2 = history st.
Proof.
  intros Hc. revert st. induction l as [|[e tk] l IH]; intros st.
  - split; reflexivity.
  - change (failures_of ((e, tk) :: l))
      with ((Failure e, tk) :: failures_of l)%list.
    rewrite run_prober_cons, probe_cycle_failure_down by exact Hc.
    destruct (IH (set_state (nm +:+ " (" +:+ proto +:+ ")") Error e
                    (t_update tk) st)) as [I1 I2].
    split; [exact I1|]. rewrite I2. reflexivity.
Qed.

(** One outage of a link the observer probes: a first failed cycle, any
    number of further failed cycles, then a completed one.  While the link
    is down the history does not change; the completed cycle adds one
    record, in front, whose start is the reading stored at the first
    failure and whose duration is the rounded difference to the reading
    taken at recovery. *)
Theorem observer_prober_one_record_per_outage
    (proto nm e : string) (tk tk_ok : ticks) (more : list (string * ticks))
    (c : conn) (st : state) (t0 : datetime) (d : Z) :
  conn_status c ≠ Error ->
  fromisoformat (now_iso (t_since tk)) = Some t0 ->
  Py.sub (utcnow (t_end tk_ok)) t0 = Some d ->
  let down := ((Failure e, tk) :: failures_of more)%list in
  conn_status (run_prober proto nm down (c, st)).1 = Error /\
  history (run_prober proto nm down (c, st)).2 = history st /\
  conn_status
    (run_prober proto nm (down ++ [(Success, tk_ok)]) (c, st)).1 = Connected /\
  history (run_prober proto nm (down ++ [(Success, tk_ok)]) (c, st)).2
    = del_from MAX_HISTORY
        ({| name := Str nm; protocol := Str proto;
            start_time := Str (isoformat t0);
            end_time := Str (now_iso (t_end tk_ok));
            duration_sec := Some (round2 (total_seconds d));
            source := Str "bastion"; reporter := Absent |} :: history st).
Proof.
  intros Hc Ht0 Hd down.
  set (c1 := {| conn_status := Error; since := now_iso (t_since tk) |}).
  set (st1 := set_state (nm +:+ " (" +:+ proto +:+ ")") Error e
                (t_update tk) st).
  assert (run_prober proto nm down (c, st)
          = run_prober proto nm (failures_of more) (c1, st1)) as Hrun.
  { unfold down. rewrite run_prober_cons. unfold probe_cycle.
    now destruct (decide (conn_status c = Error)). }
  destruct (run_failures_down proto nm more c1 st1 eq_refl) as [H1 H2].
  rewrite run_prober_app, Hrun.
  destruct (run_prober proto nm (failures_of more) (c1, st1)) as [c2 st2].
  simpl in H1, H2. subst c2.
  repeat split; [exact H2|].
  rewrite run_prober_cons. unfold run_prober, probe_cycle.
  cbn [foldl snd history set_state conn_status c1].
  destruct (decide (Error = Error)); [|contradiction].
  rewrite log_disconnection_event_history.
  change (since c1) with (now_iso (t_since tk)).
  rewrite (outage_record_total nm proto _ "bastion" _ t0 d Ht0 Hd).
  now rewrite H2.
Qed.
End Prober.

(** *** The status table *)

Lemma list_ascii_app a b :
  list_ascii_of_string (a +:+ b)
    = (list_ascii_of_string a ++ list_ascii_of_string b)%list.
Proof. induction a as [|ch a IH]; simpl; [reflexivity|now rewrite IH]. Qed.

Lemma append_inv_tail a b c : a +:+ c = b +:+ c -> a = b.
Proof.
  intros Heq. apply (f_equal list_ascii_of_string) in Heq.
  rewrite !list_ascii_app in Heq. apply app_inv_tail in Heq.
  rewrite <- (string_of_list_ascii_of_string a).
  rewrite <- (string_of_list_ascii_of_string b). now rewrite Heq.
Qed.

(** the reversed characters of a label start with those of its protocol *)
Lemma label_rev nm proto :
  rev (list_ascii_of_string (label nm proto))
    = (rev (list_ascii_of_string (" (" +:+ proto +:+ ")"))
         ++ rev (list_ascii_of_string nm))%list.
Proof. unfold label. now rewrite list_ascii_app, rev_app_distr. Qed.

(** a row of the table belongs to one name and one protocol *)
Lemma label_inj nm proto nm' proto' :
  proto ∈ protocols -> proto' ∈ protocols ->
  label nm proto = label nm' proto' -> nm = nm' /\ proto = proto'.
Proof.
  intros Hp Hp' Heq.
  assert (proto = proto') as <-.
  { apply (f_equal (fun s => rev (list_ascii_of_string s))) in Heq.
    rewrite !label_rev in Heq. unfold protocols in Hp, Hp'.
    repeat (apply elem_of_cons in Hp as [->|Hp]);
      [| | |now apply elem_of_nil in Hp];
      repeat (apply elem_of_cons in Hp' as [->|Hp']);
      try (now apply elem_of_nil in Hp'); try reflexivity;
      simpl in Heq; discriminate Heq. }
  split; [|reflexivity]. unfold label in Heq.
  now apply append_inv_tail in Heq.
Qed.

Section Table.
Context {parser : IsoParser} {cfg : Config} {srt : ListSort}.

(** what a cycle leaves of the globals it does not own *)
Lemma probe_cycle_frame proto nm o tk c st :
  external_tests (probe_cycle proto nm o tk (c, st)).2
    = <[label nm proto :=
          {| te_status := status_str match o with
                                     | Success => Connected
                                     | Failure _ => Error
                                     end;
             te_error := match o with Success => "" | Failure e => e end;
             te_last_update := now_iso (t_update tk) |}]>
        (external_tests st) /\
  internal_status (probe_cycle proto nm o tk (c, st)).2 = internal_status st /\
  HISTORY_IGNORE_BEFORE (probe_cycle proto nm o tk (c, st)).2
    = HISTORY_IGNORE_BEFORE st /\
  created_tasks (probe_cycle proto nm o tk (c, st)).2 = created_tasks st.
Proof.
  unfold probe_cycle, log_disconnection_event.
  destruct o; simpl; [|tauto].
  destruct (decide (conn_status c = Error)); [|tauto].
  destruct (outage_record _ _ _ _ _); tauto.
Qed.

(** After any run of cycles of one prober, its row of the status table
    shows the last cycle: "connected" with an empty error text when the
    cycle completed, "error" with the text of the exception when it
    raised, stamped with the reading that cycle took; the prober's own
    status agrees with the row and is never [Unknown] again.  This holds
    whatever the history records, also when the stored start of an outage
    does not parse and no record can be built. *)
Theorem row_shows_last_cycle
    (proto nm : string) (trace : list (outcome * ticks))
    (o : outcome) (tk : ticks) (c : conn) (st : state) :
  external_tests
    (run_prober proto nm (trace ++ [(o, tk)]) (c, st)).2 !! label nm proto
  = Some {| te_status := match o with
                         | Success => "connected"
                         | Failure _ => "error"
                         end;
            te_error := match o with Success => "" | Failure e => e end;
            te_last_update := now_iso (t_update tk) |} /\
  conn_status (run_prober proto nm (trace ++ [(o, tk)]) (c, st)).1
  = match o with Success => Connected | Failure _ => Error end.
Proof.
  rewrite run_prober_app.
  destruct (run_prober proto nm trace (c, st)) as [c1 st1].
  rewrite run_prober_cons.
  change (run_prober proto nm [] ?x) with x.
  split.
  - rewrite (proj1 (probe_cycle_frame proto nm o tk c1 st1)).
    rewrite lookup_insert_eq. now destruct o.
  - unfold probe_cycle. destruct o; simpl; [reflexivity|].
    now destruct (decide (conn_status c1 = Error)).
Qed.

(** A cycle of one prober changes no row of the status table but its own:
    the row of every other name or protocol, the snapshots of the peers,
    the cutoff and the created tasks are as before. *)
Theorem prober_writes_its_own_row_only
    (proto nm proto' nm' : string) (o : outcome) (tk : ticks)
    (c : conn) (st : state) :
  proto ∈ protocols -> proto' ∈ protocols ->
  (nm, proto) ≠ (nm', proto') ->
  external_tests (probe_cycle proto nm o tk (c, st)).2 !! label nm' proto'
    = external_tests st !! label nm' proto' /\
  internal_status (probe_cycle proto nm o tk (c, st)).2 = internal_status st /\
  HISTORY_IGNORE_BEFORE (probe_cycle proto nm o tk (c, st)).2
    = HISTORY_IGNORE_BEFORE st /\
  created_tasks (probe_cycle proto nm o tk (c, st)).2 = created_tasks st.
Proof.
  intros Hp Hp' Hne.
  destruct (probe_cycle_frame proto nm o tk c st) as (-> & Hi & Hc & Ht).
  split; [|tauto]. apply lookup_insert_ne. intros Heq.
  apply label_inj in Heq as [-> ->]; [congruence|exact Hp|exact Hp'].
Qed.
End Table.

(** *** More on merging *)

Section Provenance.
Context {parser : IsoParser} {cfg : Config} {srt : ListSort}.

Lemma new_items_of_nil_history filtered : new_items_of [] filtered = filtered.
Proof.
  unfold new_items_of. induction filtered as [|x f IH]; [reflexivity|].
  cbn [List.filter]. rewrite IH.
  assert (is_known [] x = false) as ->; [|reflexivity].
  apply bool_decide_eq_false. apply not_elem_of_nil.
Qed.

(** A merge invents nothing and loses nothing it has room for.  Every
    record of the merged history was in the history already or is a record
    of the batch, with its source defaulted, that passed the cutoff and
    whose key the history did not hold; an empty batch changes nothing; and
    when no key fails to hash and the new records and the history fit in
    [MAX_HISTORY], the merged history is a rearrangement of the two, so
    that no record is dropped. *)
Theorem merge_adds_batch_records_only (peer_hist : list event) (st : state) :
  (forall x,
     x ∈ history (merge_history peer_hist st) ->
     x ∈ history st \/
     exists ev,
       ev ∈ peer_hist /\ x = setdefault_source ev /\
       _is_after_cutoff (HISTORY_IGNORE_BEFORE st) ev = true /\
       composite_key x ∉ keys (history st)) /\
  merge_history [] st = st /\
  (hashable_all (history st)
     (filter_by_cutoff (HISTORY_IGNORE_BEFORE st) peer_hist) = true ->
   Z.of_nat (length
     (new_items_of (history st)
        (filter_by_cutoff (HISTORY_IGNORE_BEFORE st) peer_hist)
      ++ history st)) <= MAX_HISTORY ->
   history (merge_history peer_hist st)
     ≡ₚ (new_items_of (history st)
           (filter_by_cutoff (HISTORY_IGNORE_BEFORE st) peer_hist)
         ++ history st)%list).
Proof.
  split; [|split; [reflexivity|]].
  - intros x Hx. apply merge_history_elem in Hx as [Hx|Hx]; [now left|].
    right. apply elem_of_new_items in Hx as [Hf Hk].
    apply elem_of_filter_by_cutoff in Hf as [Hkeep (ev & Hin & ->)].
    exists ev. rewrite is_after_cutoff_setdefault in Hkeep.
    repeat split; auto. unfold is_known in Hk.
    now apply bool_decide_eq_false in Hk.
  - intros Hhash Hfit. rewrite merge_history_history, Hhash.
    destruct (new_items_of _ _) as [|a r] eqn:N; [reflexivity|].
    unfold sort_and_trim.
    pose proof (list_sort_perm ((a :: r) ++ history st)) as Hp.
    destruct (list_sort ((a :: r) ++ history st)) as [l'|l']; simpl in Hp;
      [|exact Hp].
    rewrite del_from_fits; [exact Hp|].
    now rewrite (Permutation_length Hp).
Qed.

(** The first merge after a clear holds records of the batch only, those
    that pass the cutoff of the clear, with their sources defaulted; a
    batch that holds only records the cutoff suppresses leaves the history
    empty, and so does a batch in which a record that passes has a key that
    cannot be hashed.  When the keys can be hashed and the end times are
    strings or missing, as the records of an agent have them, the history
    is exactly the records that pass, sorted and trimmed; when one end time
    is a string or missing and another is some other value, the sort raises
    and the history is the records that pass, all of them, untrimmed. *)
Theorem first_merge_after_clear
    (clock : datetime) (st0 : state) (peer_hist : list event) :
  let batch := filter_by_cutoff (Some (now_iso clock)) peer_hist in
  let merged := merge_history peer_hist (handle_clear_history clock st0).2 in
  (Forall (fun h => hashable h = true) batch ->
   Forall (fun h => text_key h = true) batch ->
   history merged = del_from MAX_HISTORY (sort_desc end_key batch)) /\
  (Forall (fun h => hashable h = true) batch ->
   (exists x y, x ∈ batch /\ y ∈ batch /\
                text_key x = true /\ text_key y = false) ->
   history merged ≡ₚ batch) /\
  (~ Forall (fun h => hashable h = true) batch -> history merged = []) /\
  (forall x, x ∈ history merged -> x ∈ batch) /\
  ((forall ev, ev ∈ peer_hist ->
      _is_after_cutoff (Some (now_iso clock)) ev = false) ->
   history merged = []).
Proof.
  intros batch merged.
  assert (history merged =
          if hashable_all [] batch then
            match batch with
            | [] => []
            | _ :: _ => sort_and_trim batch
            end
          else []) as Hm.
  { unfold merged. rewrite merge_history_history.
    change (history (handle_clear_history clock st0).2) with (@nil event).
    change (HISTORY_IGNORE_BEFORE (handle_clear_history clock st0).2)
      with (Some (now_iso clock)).
    fold batch. rewrite new_items_of_nil_history.
    destruct (hashable_all [] batch); [|reflexivity].
    destruct batch; [reflexivity|now rewrite app_nil_r]. }
  assert (Forall (fun h => hashable h = true) batch ->
          hashable_all [] batch = true) as Hyes.
  { intros Hhash. apply hashable_all_spec. split; [constructor|exact Hhash]. }
  split; [|split; [|split; [|split]]].
  - intros Hhash Htext. rewrite Hm, (Hyes Hhash).
    destruct batch as [|x f] eqn:B.
    + symmetry. apply take_nil.
    + apply sort_and_trim_text. now apply forallb_text.
  - intros Hhash (x & y & Hx & Hy & Htx & Hty). rewrite Hm, (Hyes Hhash).
    destruct (list_sort_mixed batch x y Hx Hy Htx Hty) as (l' & Hs).
    pose proof (list_sort_perm batch) as Hp. rewrite Hs in Hp. simpl in Hp.
    destruct batch as [|a f] eqn:B; [now apply elem_of_nil in Hx|].
    unfold sort_and_trim. now rewrite Hs.
  - intros Hnot. rewrite Hm.
    destruct (hashable_all [] batch) eqn:E; [|reflexivity].
    apply hashable_all_spec in E as [_ E]. tauto.
  - intros x Hx. unfold merged in Hx.
    apply merge_history_elem in Hx as [Hx|Hx].
    + now apply elem_of_nil in Hx.
    + now apply elem_of_new_items in Hx as [Hx _].
  - intros Hold. rewrite Hm.
    assert (batch = []) as ->; [|now destruct (hashable_all [] [])].
    destruct batch as [|x f] eqn:F; [reflexivity|].
    assert (x ∈ filter_by_cutoff (Some (now_iso clock)) peer_hist) as Hx
      by (fold batch; rewrite F; left).
    apply elem_of_filter_by_cutoff in Hx as [Hkeep (ev & Hin & ->)].
    rewrite is_after_cutoff_setdefault, (Hold ev Hin) in Hkeep.
    discriminate Hkeep.
Qed.

Lemma wall_micros_utcnow clock : wall_micros (utcnow clock) = wall_micros clock.
Proof. reflexivity. Qed.

(** a record that a cutoff suppresses has a timestamp that parses and lies
    before the cutoff *)
Lemma is_after_cutoff_false_inv tc ev :
  _is_after_cutoff (Some tc) ev = false ->
  exists ts t c d,
    end_t ev = Some (VStr ts) /\ truthy_value (Some (VStr ts)) = true /\
    fromisoformat ts = Some t /\ fromisoformat tc = Some c /\
    Py.sub t c = Some d /\ d < 0.
Proof.
  unfold _is_after_cutoff. intros Hf.
  destruct (truthy (Some tc)); [|discriminate Hf]. simpl in Hf.
  destruct (end_t ev) as [[ts|v]|] eqn:E; [| |discriminate Hf].
  2:{ now destruct (truthy_value (Some (VOther v))). }
  destruct (truthy_value (Some (VStr ts))) eqn:T; [|discriminate Hf].
  cbn [negb mbind option_bind fromisoformat_value] in Hf.
  destruct (fromisoformat ts) as [t|] eqn:Pt; [|discriminate Hf].
  destruct (fromisoformat tc) as [c|] eqn:Pc; [|discriminate Hf].
  unfold ge in Hf. destruct (Py.sub t c) as [d|] eqn:D; [|discriminate Hf].
  exists ts, t, c, d. repeat split; auto.
  apply Z.leb_gt. exact Hf.
Qed.

(** A later clear suppresses at least what an earlier clear suppressed:
    when the clock did not run backwards between the two clears, a remote
    record that the cutoff of the first one drops is dropped under the
    cutoff of the second. *)
Theorem later_clear_suppresses_more
    (clock1 clock2 : datetime) (st1 st2 : state) (ev : event) :
  fromisoformat (now_iso clock1) = Some (utcnow clock1) ->
  fromisoformat (now_iso clock2) = Some (utcnow clock2) ->
  wall_micros clock1 <= wall_micros clock2 ->
  _is_after_cutoff
    (HISTORY_IGNORE_BEFORE (handle_clear_history clock1 st1).2) ev = false ->
  _is_after_cutoff
    (HISTORY_IGNORE_BEFORE (handle_clear_history clock2 st2).2) ev = false.
Proof.
  intros P1 P2 Hle Hdrop. simpl in *.
  apply is_after_cutoff_false_inv in Hdrop
    as (ts & t & c & d & He & Ht & Pt & Pc & Hd & Hneg).
  rewrite P1 in Pc. injection Pc as <-.
  unfold _is_after_cutoff.
  rewrite (proj2 (truthy_Some _) (now_iso_nonempty clock2)), He, Ht.
  cbn [negb mbind option_bind fromisoformat_value]. rewrite Pt, P2.
  unfold ge.
  unfold Py.sub in *. simpl in *.
  destruct (tzinfo t) as [off|]; [|discriminate Hd].
  injection Hd as <-. apply Z.leb_gt.
  unfold utc_micros in *. rewrite !wall_micros_utcnow in *. lia.
Qed.
End Provenance.

(** *** What holds in every state the observer reaches *)

Lemma setdefault_source_present ev : source (setdefault_source ev) ≠ Absent.
Proof.
  unfold setdefault_source. destruct (source ev) eqn:E; simpl;
    congruence.
Qed.

Section Invariants.
Context {parser : IsoParser} {cfg : Config} {srt : ListSort}.

Lemma log_disconnection_event_kept nm proto start_time_str src clock st :
  0 <= MAX_HISTORY -> well_kept st ->
  well_kept (log_disconnection_event nm proto start_time_str src clock st).
Proof.
  intros Hmax (Hlen & Hsrc & Hhash & Hcut). unfold well_kept.
  rewrite log_disconnection_event_history.
  assert (HISTORY_IGNORE_BEFORE
            (log_disconnection_event nm proto start_time_str src clock st)
          = HISTORY_IGNORE_BEFORE st) as ->.
  { unfold log_disconnection_event.
    now destruct (outage_record _ _ _ _ _). }
  destruct (outage_record _ _ _ _ _) as [ev|] eqn:E; [|tauto].
  apply outage_record_inv in E as (start & d & _ & _ & ->).
  split; [intros _; now apply del_from_length|].
  split; [|split; [|exact Hcut]]; unfold del_from; apply Forall_take;
    (constructor; [|assumption]); [discriminate|reflexivity].
Qed.

Lemma merge_history_kept peer_hist st :
  0 <= MAX_HISTORY -> well_kept st -> well_kept (merge_history peer_hist st).
Proof.
  intros Hmax (Hlen & Hsrc & Hhash & Hcut). unfold well_kept.
  rewrite (proj1 (proj2 (proj2 (merge_history_frame peer_hist st)))).
  rewrite merge_history_history.
  destruct (hashable_all _ _) eqn:Hall; [|tauto].
  destruct (new_items_of _ _) as [|a r] eqn:N; [tauto|].
  assert (Forall (fun h => source h ≠ Absent /\ hashable h = true)
            ((a :: r) ++ history st)) as Hnew.
  { apply Forall_app. split.
    - apply hashable_all_spec in Hall as [_ Hf].
      apply Forall_forall. intros x Hx. rewrite <- N in Hx.
      apply elem_of_new_items in Hx as [Hx _].
      rewrite Forall_forall in Hf. split; [|now apply Hf].
      apply elem_of_filter_by_cutoff in Hx as [_ (ev & _ & ->)].
      apply setdefault_source_present.
    - rewrite Forall_forall in *. intros x Hx. split; auto. }
  assert (Forall (fun h => source h ≠ Absent /\ hashable h = true)
            (sort_and_trim ((a :: r) ++ history st))) as Hkept.
  { rewrite Forall_forall in *. intros x Hx.
    now apply Hnew, sort_and_trim_elem. }
  split; [|split; [|split; [|exact Hcut]]].
  - unfold sort_and_trim.
    destruct (list_sort ((a :: r) ++ history st)) as [l'|l'] eqn:Hs.
    + intros _. now apply del_from_length.
    + intros Htext. apply list_sort_raised in Hs.
      apply forallb_text in Htext. congruence.
  - eapply Forall_impl; [exact Hkept|]. now intros h [H1 _].
  - eapply Forall_impl; [exact Hkept|]. now intros h [_ H2].
Qed.

Lemma step_kept st st' :
  0 <= MAX_HISTORY -> step st st' -> well_kept st -> well_kept st'.
Proof.
  intros Hmax Hstep Hst.
  destruct Hstep as [proto nm o tk c st|nm base_url sr hr st|clock st].
  - unfold probe_cycle. destruct o; simpl; [|exact Hst].
    destruct (decide (conn_status c = Error)); [|exact Hst].
    exact (log_disconnection_event_kept nm proto (since c) "bastion"
             (t_end tk) st Hmax Hst).
  - unfold poll_peer_status_task.
    destruct hr as [peer_hist|].
    + apply merge_history_kept; [exact Hmax|]. now destruct sr.
    + now destruct sr.
  - unfold well_kept. simpl.
    repeat split; [lia|constructor|constructor|eauto].
Qed.

(** In every state the observer reaches, with [MAX_HISTORY] not negative:
    the history holds at most [MAX_HISTORY] records as long as every end
    time in it is a string or missing (a sort that raised has left a
    record whose end time is another value); every record in it has a
    [source] key and a composite key that can be hashed; the cutoff is
    unset or the text of a clock reading; and no step unsets a cutoff that
    is set. *)
Theorem observer_state_is_well_kept (st : state) :
  0 <= MAX_HISTORY ->
  reachable st ->
  (Forall (fun h => text_key h = true) (history st) ->
   Z.of_nat (length (history st)) <= MAX_HISTORY) /\
  Forall (fun h => source h ≠ Absent) (history st) /\
  Forall (fun h => hashable h = true) (history st) /\
  (HISTORY_IGNORE_BEFORE st = None \/
   exists clock, HISTORY_IGNORE_BEFORE st = Some (now_iso clock)) /\
  (forall st',
     step st st' ->
     is_Some (HISTORY_IGNORE_BEFORE st) ->
     is_Some (HISTORY_IGNORE_BEFORE st')).
Proof.
  intros Hmax Hreach.
  assert (well_kept st) as (Hlen & Hsrc & Hhash & Hcut).
  { induction Hreach as [|st st' _ IH Hstep].
    - unfold well_kept. simpl.
      repeat split; [lia|constructor|constructor|now left].
    - now apply (step_kept st st'). }
  repeat split; auto.
  intros st' Hstep Hset.
  destruct Hstep as [proto nm o tk c st|nm base_url sr hr st|clock st].
  - now rewrite (proj1 (proj2 (proj2 (probe_cycle_frame proto nm o tk c st)))).
  - unfold poll_peer_status_task. destruct hr as [peer_hist|].
    + rewrite (proj1 (proj2 (proj2 (merge_history_frame peer_hist _)))).
      now destruct sr.
    + now destruct sr.
  - simpl. eauto.
Qed.
End Invariants.

(** *** The tasks of the supervisor *)

Lemma append_inv_head a b c : a +:+ b = a +:+ c -> b = c.
Proof.
  induction a as [|ch a IH]; simpl; [auto|].
  intros Heq. injection Heq as Heq. auto.
Qed.

Lemma route_name_inj i j : route_name i = route_name j -> i = j.
Proof.
  unfold route_name. intros Heq.
  apply append_inv_head, append_inv_tail in Heq.
  now apply (inj pretty) in Heq.
Qed.

Lemma enumerate_fst {A} start (l : list A) :
  (enumerate start l).*1 = seq start (length l).
Proof.
  revert start. induction l as [|x r IH]; intros start; [reflexivity|].
  simpl. now rewrite IH.
Qed.

Section Supervisor.
Context {parser : IsoParser} {cfg : Config} {srt : ListSort}.

Lemma polled_app t1 t2 : polled (t1 ++ t2) = (polled t1 ++ polled t2)%list.
Proof. unfold polled. apply omap_app. Qed.

Lemma polled_routes (l : list (nat * string)) :
  polled (flat_map (fun '(i, url) =>
            [HttpTask (route_name i) url; PollTask (route_name i) url]) l)
  = map (fun iu => (route_name iu.1, iu.2)) l.
Proof.
  induction l as [|[i url] l IH]; [reflexivity|].
  simpl. now rewrite <- IH.
Qed.

Lemma polled_metallb (l : list (string * string)) :
  polled (flat_map (fun '(nm, ip) =>
            [WsTask nm ip 8080; TcpTask nm ip 8081;
             HttpTask nm ("http://" +:+ ip +:+ ":8082")]) l) = [].
Proof. induction l as [|[nm ip] l IH]; [reflexivity|exact IH]. Qed.

Lemma polled_nodeport (l : list (string * nodeport)) :
  polled (flat_map (fun '(nm, np) =>
            [WsTask nm (host np) (ws_port np);
             TcpTask nm (host np) (tcp_port np);
             HttpTask nm
               ("http://" +:+ host np +:+ ":" +:+ pretty (http_port np))]) l)
  = [].
Proof. induction l as [|[nm np] l IH]; [reflexivity|exact IH]. Qed.

(** The supervisor starts three probers for each load-balancer peer and
    each node-port peer, and a prober and a reconciliation loop for each
    route.  The loops are one per route, in the order of [ROUTE_PEERS],
    named [peer-1-route], [peer-2-route], ...: the names are pairwise
    distinct, so a turn of the loop of one route never touches the
    snapshot stored for another. *)
Theorem supervisor_polls_each_route_under_its_own_name
    (METALLB_PEERS : list (string * string))
    (NODEPORT_PEERS : list (string * nodeport)) :
  length (run_probes METALLB_PEERS NODEPORT_PEERS)
    = (3 * length METALLB_PEERS + 3 * length NODEPORT_PEERS
       + 2 * length ROUTE_PEERS)%nat /\
  polled (run_probes METALLB_PEERS NODEPORT_PEERS)
    = map (fun iu => (route_name iu.1, iu.2)) (enumerate 1 ROUTE_PEERS) /\
  (polled (run_probes METALLB_PEERS NODEPORT_PEERS)).*1
    = map route_name (seq 1 (length ROUTE_PEERS)) /\
  NoDup (polled (run_probes METALLB_PEERS NODEPORT_PEERS)).*1 /\
  forall i j base_url status_resp history_resp st,
    i ≠ j ->
    internal_status
      (poll_peer_status_task (route_name i) base_url status_resp
         history_resp st) !! route_name j
    = internal_status st !! route_name j.
Proof.
  assert (polled (run_probes METALLB_PEERS NODEPORT_PEERS)
          = map (fun iu => (route_name iu.1, iu.2)) (enumerate 1 ROUTE_PEERS))
    as Hpolled.
  { unfold run_probes.
    now rewrite !polled_app, polled_metallb, polled_nodeport, polled_routes. }
  assert ((polled (run_probes METALLB_PEERS NODEPORT_PEERS)).*1
          = map route_name (seq 1 (length ROUTE_PEERS))) as Hnames.
  { rewrite Hpolled, <- enumerate_fst.
    generalize (enumerate 1 ROUTE_PEERS). intros l.
    induction l as [|[i u] l IH]; [reflexivity|]. cbn. now f_equal. }
  split; [|split; [exact Hpolled|split; [exact Hnames|split]]].
  - unfold run_probes. rewrite !length_app.
    assert (forall {A} (f : A -> list probe_task) (l : list A) n,
              (forall x, length (f x) = n) ->
              length (flat_map f l) = (n * length l)%nat) as Hflat.
    { intros A f l n Hn. induction l as [|x l IH]; simpl; [lia|].
      rewrite length_app, IH, Hn. lia. }
    rewrite (Hflat _ _ METALLB_PEERS 3%nat) by (now intros [nm ip]).
    rewrite (Hflat _ _ NODEPORT_PEERS 3%nat) by (now intros [nm np]).
    rewrite (Hflat _ _ (enumerate 1 ROUTE_PEERS) 2%nat)
      by (now intros [i url]).
    rewrite <- (length_fmap fst (enumerate 1 ROUTE_PEERS)), enumerate_fst.
    rewrite length_seq. lia.
  - rewrite Hnames. apply NoDup_fmap_2_strong; [|apply NoDup_seq].
    intros i j _ _. apply route_name_inj.
  - intros i j base_url status_resp history_resp st Hne.
    assert (route_name j ≠ route_name i) as Hnames'
      by (intros Heq; apply route_name_inj in Heq; congruence).
    unfold poll_peer_status_task.
    destruct history_resp as [peer_hist|];
      rewrite ?(proj1 (proj2 (merge_history_frame _ _)));
      destruct status_resp; simpl; now rewrite lookup_insert_ne.
Qed.
End Supervisor.

(** *** Any interleaving of the tasks *)

Section Interleaving.
Context {parser : IsoParser} {cfg : Config} {srt : ListSort}.

Lemma perform_tables a st :
  external_tests (perform a st)
    = match a with
      | Probe p n o tk _ => <[label n p := row_of o tk]> (external_tests st)
      | _ => external_tests st
      end /\
  internal_status (perform a st)
    = match a with
      | PollTurn n base_url status_resp _ =>
          <[n := match status_resp with
                 | inl doc => doc
                 | inr e => error_placeholder e (base_url +:+ "/status")
                 end]> (internal_status st)
      | _ => internal_status st
      end.
Proof.
  destruct a as [p n o tk c|n base_url sr hr|clock]; unfold perform.
  - destruct (probe_cycle_frame p n o tk c st) as (-> & -> & _).
    split; [|reflexivity]. now destruct o.
  - unfold poll_peer_status_task.
    destruct hr as [peer_hist|];
      rewrite ?(proj1 (merge_history_frame _ _)),
              ?(proj1 (proj2 (merge_history_frame _ _)));
      now destruct sr.
  - split; reflexivity.
Qed.

(** However the cycles of the probers, the turns of the reconciliation
    loops and the clears are interleaved, each row of the status table
    shows the last cycle of its own prober, and each snapshot is the last
    one its own loop stored; a row or a snapshot whose task has not run is
    as it was. *)
Theorem tables_show_each_task_last_step
    (acts : list action) (st : state) (nm proto : string) :
  known_protocols acts ->
  proto ∈ protocols ->
  external_tests (schedule acts st) !! label nm proto
    = match last (rows_of nm proto acts) with
      | Some row => Some row
      | None => external_tests st !! label nm proto
      end /\
  internal_status (schedule acts st) !! nm
    = match last (snapshots_of nm acts) with
      | Some doc => Some doc
      | None => internal_status st !! nm
      end.
Proof.
  intros Hknown Hproto.
  induction acts as [|a acts IH] using rev_ind; [split; reflexivity|].
  apply Forall_app in Hknown as [Hknown Ha].
  apply Forall_cons in Ha as [Ha _].
  destruct (IH Hknown) as [IHrow IHsnap]. clear IH.
  unfold schedule in *. rewrite foldl_snoc.
  unfold rows_of, snapshots_of in *. rewrite !omap_app.
  destruct (perform_tables a (foldl (fun s a0 => perform a0 s) st acts))
    as [-> ->].
  destruct a as [p n o tk c|n base_url sr hr|clock]; simpl.
  - rewrite app_nil_r. split; [|exact IHsnap].
    case_decide as Hsame.
    + destruct Hsame as [-> ->]. rewrite last_snoc. apply lookup_insert_eq.
    + rewrite app_nil_r, lookup_insert_ne; [exact IHrow|].
      intros Heq. apply label_inj in Heq; [tauto|exact Ha|exact Hproto].
  - rewrite app_nil_r. split; [exact IHrow|].
    case_decide as Hsame.
    + subst n. rewrite last_snoc. apply lookup_insert_eq.
    + rewrite app_nil_r. now rewrite lookup_insert_ne.
  - rewrite !app_nil_r. split; assumption.
Qed.
End Interleaving.

(** *** The accuracy of the stored duration *)

Section Accuracy.
Context {parser : IsoParser} {cfg : Config} {srt : ListSort}.

(** Every record that either recorder builds stores, in hundredths of a
    second, a duration within half a hundredth of a second of the span
    from the parsed start time to the clock reading, as long as the span
    is shorter than [2 ^ 53] microseconds: the two roundings to binary64
    on the way lose nothing that shows. *)
Theorem stored_duration_within_half_hundredth
    (clock : datetime) (start_time_str : string) :
  (forall nm proto src ev,
     outage_record nm proto start_time_str src clock = Some ev ->
     exists start d k,
       fromisoformat start_time_str = Some start /\
       Py.sub (utcnow clock) start = Some d /\
       duration_sec ev = Some k /\
       (- 2 ^ 53 < d < 2 ^ 53 -> - 5000 <= 10000 * k - d <= 5000)) /\
  (forall (pod : Pod.Config) target proto ev,
     Pod.outage_record target proto start_time_str clock = Some ev ->
     exists start d k,
       fromisoformat start_time_str = Some start /\
       Py.sub (utcnow clock) start = Some d /\
       duration_sec ev = Some k /\
       (- 2 ^ 53 < d < 2 ^ 53 -> - 5000 <= 10000 * k - d <= 5000)).
Proof.
  split.
  - intros nm proto src ev Hev.
    apply outage_record_inv in Hev as (start & d & Hs & Hd & ->).
    exists start, d, (round2 (total_seconds d)).
    repeat split; auto; now apply round2_total_seconds_error.
  - intros pod target proto ev Hev.
    apply pod_outage_record_inv in Hev as (start & d & Hs & Hd & ->).
    exists start, d, (round2 (total_seconds d)).
    repeat split; auto; now apply round2_total_seconds_error.
Qed.
End Accuracy.

(** *** The order of the history and the order of time *)

Section Chronology.
Context {parser : IsoParser} {cfg : Config} {srt : ListSort}.

Lemma end_key_now_iso (h : event) clock :
  end_time h = Str (now_iso clock) -> end_key h = now_iso clock.
Proof.
  intros He. now rewrite end_key_field, He.
Qed.

(** The sort key of the merge is the text of [end_time], compared as
    text.  For the timestamps the recorders write, the text of a valid
    reading of the UTC clock, that order is the order of time: the text of
    one reading is at most the text of another exactly when the reading is
    not the later one, so of two records built by the recorder the one
    that ended later may stand first. *)
Theorem end_time_order_is_chronological (a b : datetime) :
  valid_reading a -> valid_reading b ->
  (str_le (now_iso a) (now_iso b) <-> wall_micros a <= wall_micros b) /\
  (forall nm proto start_a src nm' proto' start_b src' ev_a ev_b,
     outage_record nm proto start_a src a = Some ev_a ->
     outage_record nm' proto' start_b src' b = Some ev_b ->
     (desc end_key ev_b ev_a <-> wall_micros a <= wall_micros b)).
Proof.
  intros Ha Hb. pose proof (now_iso_order a b Ha Hb) as Horder.
  split; [exact Horder|].
  intros nm proto start_a src nm' proto' start_b src' ev_a ev_b Hea Heb.
  apply outage_record_inv in Hea as (sa & da & _ & _ & ->).
  apply outage_record_inv in Heb as (sb & db & _ & _ & ->).
  unfold desc.
  rewrite (end_key_now_iso _ a), (end_key_now_iso _ b) by reflexivity.
  exact Horder.
Qed.
End Chronology.

Section Loading.

Lemma split_sep_from_free (sep : ascii) (word s : string) :
  ~ In sep (list_ascii_of_string word) ->
  Forall (fun w => ~ In sep (list_ascii_of_string w)) (split_sep_from sep word s).
Proof.
  revert word. induction s as [|c s IH]; intros word Hw.
  - now constructor.
  - cbn [split_sep_from]. destruct (Ascii.eqb c sep) eqn:Ec.
    + constructor; [exact Hw|]. apply IH. simpl. tauto.
    + apply IH. rewrite list_ascii_app, in_app_iff. simpl.
      apply Ascii.eqb_neq in Ec. intuition congruence.
Qed.

Lemma strip_chars (c : ascii) (s : string) :
  In c (list_ascii_of_string (strip s)) -> In c (list_ascii_of_string s).
Proof.
  unfold strip. intros Hin.
  destruct (lstrip_suffix s) as [p Hp].
  destruct (rstrip_prefix (lstrip s)) as (w & Hw & _).
  rewrite Hp, Hw, !list_ascii_app, !in_app_iff. auto.
Qed.

Lemma load_route_peers_inv (route_str url : string) :
  In url (load_route_peers route_str) ->
  exists piece, In piece (split_sep "," route_str) /\
                url = strip piece /\ url <> "".
Proof.
  unfold load_route_peers. intros Hin. apply list_elem_of_In in Hin.
  apply list_elem_of_omap in Hin as (piece & Hp & Hu).
  apply list_elem_of_In in Hp. exists piece. split; [exact Hp|].
  unfold truthy in Hu.
  destruct (String.eqb (strip piece) "") eqn:E; [discriminate|].
  injection Hu as <-. split; [reflexivity|]. now apply String.eqb_neq.
Qed.

Lemma loaded_routes (route_str : string) :
  Forall (fun url => url <> "" /\ strip url = url /\
                     ~ In ","%char (list_ascii_of_string url))
    (load_route_peers route_str).
Proof.
  apply Forall_forall. intros url Hin%list_elem_of_In.
  apply load_route_peers_inv in Hin as (piece & Hp & -> & Hne).
  split; [exact Hne|]. split; [apply strip_idem|].
  intros Hc%strip_chars.
  pose proof (split_sep_from_free "," "" route_str (fun H => H)) as Hfree.
  rewrite Forall_forall in Hfree.
  apply (Hfree piece); [now apply list_elem_of_In|exact Hc].
Qed.

(** *** the round trip *)

Lemma strip_padded (e : nat * string * nat) :
  graphic e.1.2 = true -> strip (padded e) = e.1.2.
Proof.
  destruct e as [[a u] b]. simpl. intros Hu. unfold strip, padded. simpl.
  rewrite lstrip_blank. destruct u as [|c u].
  - change ("" +:+ blank b) with (blank b).
    now rewrite lstrip_blank_all.
  - simpl in Hu. apply andb_true_iff in Hu as [Hc Hu'].
    change (String c u +:+ blank b) with (String c (u +:+ blank b)).
    rewrite (lstrip_graphic c _ Hc).
    change (String c (u +:+ blank b)) with (String c u +:+ blank b).
    apply rstrip_graphic. simpl. now rewrite Hc, Hu'.
Qed.

(** Whatever the text of the variable, no route of the loaded
    configuration is empty, none has white space at either end (to strip
    it again changes nothing), and none holds a comma; so the fan-out of a
    clear never posts to the bare path. *)
Theorem loaded_routes_are_trimmed_and_not_empty
    (max_history : Z) (route_str : string) :
  Forall (fun url => url <> "" /\ strip url = url /\
                     ~ In ","%char (list_ascii_of_string url))
    (load_route_peers route_str) /\
  Post "/admin/clear_history"
    ∉ _fanout_clear_to_peers (cfg := load_config max_history route_str).
Proof.
  pose proof (loaded_routes route_str) as Hall. split; [exact Hall|].
  unfold _fanout_clear_to_peers. cbn [ROUTE_PEERS load_config].
  intros Hin. apply list_elem_of_In, in_map_iff in Hin as (url & Heq & Hin).
  rewrite Forall_forall in Hall.
  destruct (Hall url (proj2 (list_elem_of_In _ _) Hin)) as [Hne _].
  injection Heq as Heq.
  apply (append_inv_tail url "" "/admin/clear_history") in Heq.
  contradiction.
Qed.

(** The list of routes is read back as it was written: for URLs in
    printable ASCII without a comma, joined by commas, each with any
    number of spaces before and after it, [load_config] gives the URLs in
    the order written, the entries left empty being skipped. *)
Theorem route_list_round_trip (entries : list (nat * string * nat)) :
  Forall (fun e => url_text e.1.2) entries ->
  load_route_peers (String.concat "," (map padded entries))
  = filter (fun u => u <> "") (map (fun e => e.1.2) entries).
Proof.
  intros Hes. unfold load_route_peers.
  destruct entries as [|e es]; [reflexivity|].
  rewrite split_sep_concat; [|discriminate|].
  - induction (e :: es) as [|e' es' IH]; [reflexivity|].
    apply Forall_cons in Hes as [[He _] Hes].
    cbn [map omap list_omap filter list_filter].
    rewrite (strip_padded e' He), (IH Hes). unfold truthy.
    destruct (decide (e'.1.2 <> "")) as [Hne|Hne].
    + apply String.eqb_neq in Hne. now rewrite Hne.
    + destruct (String.eqb_spec e'.1.2 ""); [reflexivity|tauto].
  - apply Forall_forall. intros w Hw%list_elem_of_In.
    apply in_map_iff in Hw as (e' & <- & Hin).
    rewrite Forall_forall in Hes.
    destruct (Hes e' (proj2 (list_elem_of_In _ _) Hin)) as [_ Hfree].
    unfold padded. rewrite !list_ascii_app, !in_app_iff.
    intros [H|[H|H]]; [|tauto|]; apply blank_chars in H; discriminate.
Qed.

End Loading.

End Bastion_facts.

(** ** The agent *)

Module Pod_facts.
Import Py Py_facts Pod.

Lemma front_insert_bound old new :
  Z.of_nat (length old) <= MAX_HISTORY ->
  front_insert old new ->
  Z.of_nat (length new) <= MAX_HISTORY.
Proof.
  intros Hold [->|[->|[ev ->]]]; [exact Hold|simpl; unfold MAX_HISTORY; lia|].
  apply del_from_length. unfold MAX_HISTORY. lia.
Qed.

Section Agent.
Context {parser : IsoParser} {pod : Config}.

Lemma record_outage_HISTORY target proto_ start_time_str clock st :
  HISTORY (record_outage target proto_ start_time_str clock st) =
  match outage_record target proto_ start_time_str clock with
  | Some ev => del_from MAX_HISTORY (ev :: HISTORY st)
  | None => HISTORY st
  end.
Proof. unfold record_outage. now destruct (outage_record _ _ _ _). Qed.

Lemma record_outage_front target proto_ start_time_str clock st :
  front_insert (HISTORY st)
    (HISTORY (record_outage target proto_ start_time_str clock st)).
Proof.
  rewrite record_outage_HISTORY. unfold front_insert.
  destruct (outage_record _ _ _ _); eauto.
Qed.

Lemma stream_turn_HISTORY p target a rd st :
  HISTORY (stream_turn p target a rd st) =
  if decide (status_of target p
               match a with
               | Refused => st
               | Dropped t_connected =>
                   mark target p "connected" t_connected st
               end ≠ "disconnected")
  then HISTORY (record_outage target (proto_str p) (now_iso (t_start rd))
                  (t_end rd) st)
  else HISTORY st.
Proof.
  unfold stream_turn. case_decide.
  - rewrite !record_outage_HISTORY. now destruct a.
  - now destruct a.
Qed.

(** a refused attempt while the link is down changes nothing *)
Lemma stream_turn_refused_down p target rd st :
  status_of target p st = "disconnected" ->
  stream_turn p target Refused rd st = st.
Proof. intros Hs. unfold stream_turn. now case_decide. Qed.

Lemma status_of_mark target p v clock st :
  is_Some (connection_state st !! target) ->
  status_of target p (mark target p v clock st) = v.
Proof.
  intros [l Hl]. unfold status_of, mark. simpl.
  rewrite lookup_alter_eq, Hl. simpl. now destruct p.
Qed.

(** a connection that came up and dropped is recorded at the drop, from
    the top of the turn *)
Lemma stream_turn_dropped p target t_connected rd st :
  is_Some (connection_state st !! target) ->
  HISTORY (stream_turn p target (Dropped t_connected) rd st) =
  match outage_record target (proto_str p) (now_iso (t_start rd))
          (t_end rd) with
  | Some ev => del_from MAX_HISTORY (ev :: HISTORY st)
  | None => HISTORY st
  end.
Proof.
  intros Hin. rewrite stream_turn_HISTORY, status_of_mark by exact Hin.
  case_decide; [apply record_outage_HISTORY|congruence].
Qed.

Lemma step_front st st' : step st st' -> front_insert (HISTORY st) (HISTORY st').
Proof.
  destruct 1 as [p target a rd st|target o tk c st|method path clock st].
  - rewrite stream_turn_HISTORY. case_decide.
    + apply record_outage_front.
    + now left.
  - destruct o; simpl; [|now left].
    case_decide; [apply record_outage_front|now left].
  - unfold handle_http. repeat case_decide; simpl; unfold front_insert; auto.
Qed.

Lemma reachable_bounded PEERS st :
  reachable PEERS st -> Z.of_nat (length (HISTORY st)) <= MAX_HISTORY.
Proof.
  induction 1 as [|st st' _ IH Hstep].
  - simpl. unfold MAX_HISTORY. lia.
  - eapply front_insert_bound; [exact IH|now apply step_front].
Qed.

Lemma del_from_app_del_from {A} n (r l : list A) :
  0 <= n -> del_from n (r ++ del_from n l) = del_from n (r ++ l).
Proof.
  intros Hn. rewrite !del_from_nonneg by exact Hn.
  rewrite !take_app, take_take. f_equal. f_equal. lia.
Qed.

(** records made one after the other stand most recent first *)
Lemma record_all_HISTORY calls st :
  Z.of_nat (length (HISTORY st)) <= MAX_HISTORY ->
  HISTORY (record_all calls st)
    = del_from MAX_HISTORY (rev (built calls) ++ HISTORY st).
Proof.
  revert st. induction calls as [|c calls IH]; intros st Hlen.
  - simpl. symmetry. now apply del_from_fits.
  - change (record_all (c :: calls) st)
      with (record_all calls (record_outage c.1.1.1 c.1.1.2 c.1.2 c.2 st)).
    rewrite IH
      by (eapply front_insert_bound; [exact Hlen|apply record_outage_front]).
    rewrite record_outage_HISTORY. unfold built. simpl.
    destruct (outage_record _ _ _ _) as [ev|]; [|reflexivity].
    rewrite del_from_app_del_from by (unfold MAX_HISTORY; lia).
    simpl. now rewrite <- app_assoc.
Qed.

(** C8. In every state the agent can reach, [HISTORY] holds at most
    [MAX_HISTORY] records, so the slice that the history query serves is
    the whole list; and the list is most recent first: a step leaves it,
    empties it, or puts the record just built in front and trims the
    tail, so that records made one after the other stand in the reverse
    of the order in which they were made. *)
Theorem history_query_serves_whole_history (PEERS : list string) (st : state) :
  reachable PEERS st ->
  Z.of_nat (length (HISTORY st)) <= MAX_HISTORY /\
  slice_from (- MAX_HISTORY) (HISTORY st) = HISTORY st /\
  (forall clock,
     handle_http "GET" "/history" clock st = (History (HISTORY st), st)) /\
  (forall st', step st st' -> front_insert (HISTORY st) (HISTORY st')) /\
  (forall calls,
     HISTORY (record_all calls st)
       = del_from MAX_HISTORY (rev (built calls) ++ HISTORY st)).
Proof.
  intros Hreach. pose proof (reachable_bounded PEERS st Hreach) as Hlen.
  assert (slice_from (- MAX_HISTORY) (HISTORY st) = HISTORY st) as Hall.
  { apply slice_from_neg_fits; [unfold MAX_HISTORY; lia|exact Hlen]. }
  repeat split; auto using step_front, record_all_HISTORY.
  intros clock. unfold handle_http.
  destruct (decide ("GET" = "POST" /\ _)) as [[Hm _]|_]; [discriminate Hm|].
  destruct (decide ("GET" = "GET" /\ "/history" = "/status")) as [[_ Hp]|_];
    [discriminate Hp|].
  destruct (decide _) as [_|Hno]; [now rewrite Hall|].
  exfalso. apply Hno. split; reflexivity.
Qed.
End Agent.

(** *** The clients and the routes of the agent *)

Section Clients.
Context {parser : IsoParser} {pod : Config}.

Lemma record_outage_connection_state target proto_ start_time_str clock st :
  connection_state (record_outage target proto_ start_time_str clock st)
    = connection_state st.
Proof. unfold record_outage. now destruct (outage_record _ _ _ _). Qed.

Lemma status_of_record_outage target' p' target proto_ s clock st :
  status_of target' p' (record_outage target proto_ s clock st)
    = status_of target' p' st.
Proof. unfold status_of. now rewrite record_outage_connection_state. Qed.

Lemma status_of_mark_other target' p' target p v clock st :
  (target, p) ≠ (target', p') ->
  status_of target' p' (mark target p v clock st) = status_of target' p' st.
Proof.
  intros Hne. unfold status_of, mark. simpl.
  destruct (decide (target = target')) as [<-|Hn].
  - rewrite lookup_alter_eq.
    destruct (connection_state st !! target) as [l|]; simpl; [|reflexivity].
    destruct p, p'; simpl; congruence.
  - now rewrite lookup_alter_ne.
Qed.

Lemma dom_mark target p v clock st :
  dom (connection_state (mark target p v clock st))
    = dom (connection_state st).
Proof. unfold mark. simpl. apply dom_alter_L. Qed.

Lemma stream_turn_connection_state p target a rd st :
  connection_state (stream_turn p target a rd st)
  = connection_state
      (let st1 := match a with
                  | Refused => st
                  | Dropped t_connected =>
                      mark target p "connected" t_connected st
                  end in
       if decide (status_of target p st1 ≠ "disconnected")
       then mark target p "disconnected" (t_change rd) st1
       else st1).
Proof.
  unfold stream_turn. cbv zeta. case_decide; [|reflexivity].
  apply record_outage_connection_state.
Qed.

(** Every turn of a stream client ends with the link marked
    "disconnected": the turn is left through the handler only.  Once the
    link is so marked, attempts that are refused change nothing at all, so
    a link that stays down adds no record however long it stays down. *)
Theorem stream_client_leaves_link_disconnected
    (p : proto) (target : string) (a : attempt) (rd : readings)
    (st : state) (more : list readings) :
  is_Some (connection_state st !! target) ->
  status_of target p (stream_turn p target a rd st) = "disconnected" /\
  run_stream p target (refused_turns more) (stream_turn p target a rd st)
    = stream_turn p target a rd st.
Proof.
  intros Hin.
  assert (status_of target p (stream_turn p target a rd st) = "disconnected")
    as Hdown.
  { unfold stream_turn. cbv zeta.
    set (st1 := match a with
                | Refused => st
                | Dropped t_connected =>
                    mark target p "connected" t_connected st
                end).
    assert (is_Some (connection_state st1 !! target)) as Hin1.
    { unfold st1. destruct a; [exact Hin|].
      unfold mark. simpl. rewrite lookup_alter_eq.
      destruct Hin as [l ->]. simpl. eauto. }
    case_decide as Hs.
    - rewrite status_of_record_outage. now apply status_of_mark.
    - destruct (decide (status_of target p st1 = "disconnected"));
        [assumption|contradiction]. }
  split; [exact Hdown|].
  generalize dependent (stream_turn p target a rd st). intros st' Hdown.
  induction more as [|rd' more IH]; [reflexivity|].
  unfold run_stream, refused_turns in *. simpl.
  rewrite stream_turn_refused_down by exact Hdown. exact IH.
Qed.

(** A client changes the status of its own target and protocol only: the
    status of every other target, and of the other protocols of its own
    target, is as before; and no client adds a target to the table. *)
Theorem client_marks_its_own_link_only
    (p p' : proto) (target target' : string) (st : state) :
  (target, p) ≠ (target', p') ->
  (forall a rd,
     status_of target' p' (stream_turn p target a rd st)
       = status_of target' p' st) /\
  (forall a rd,
     dom (connection_state (stream_turn p target a rd st))
       = dom (connection_state st)) /\
  (p = HTTP ->
   forall o tk c,
     status_of target' p' (http_client_task target o tk (c, st)).2
       = status_of target' p' st /\
     dom (connection_state (http_client_task target o tk (c, st)).2)
       = dom (connection_state st)).
Proof.
  intros Hne. split; [|split].
  - intros a rd. unfold stream_turn. cbv zeta.
    assert (forall st0,
              status_of target' p'
                match a with
                | Refused => st0
                | Dropped t_connected =>
                    mark target p "connected" t_connected st0
                end = status_of target' p' st0) as Hattempt.
    { intros st0. destruct a; [reflexivity|].
      now apply status_of_mark_other. }
    case_decide; [|apply Hattempt].
    rewrite status_of_record_outage, status_of_mark_other by exact Hne.
    apply Hattempt.
  - intros a rd. rewrite stream_turn_connection_state. cbv zeta.
    case_decide; destruct a; rewrite ?dom_mark; reflexivity.
  - intros -> o tk c. unfold http_client_task.
    destruct o; cbn [snd].
    + rewrite status_of_mark_other by exact Hne. rewrite dom_mark.
      case_decide; [|tauto].
      now rewrite status_of_record_outage, record_outage_connection_state.
    + rewrite status_of_mark_other by exact Hne. now rewrite dom_mark.
Qed.

(** The routes of [handle_http]: no request changes [connection_state];
    every request but [POST /admin/clear_history] leaves the globals as
    they were; the status route serves the whole table under the pod's
    name; and a request for any other method and path is answered with the
    default document. *)
Theorem routes_read_only_but_clear
    (method path : string) (clock : datetime) (st : state) :
  connection_state (handle_http method path clock st).2
    = connection_state st /\
  ((method, path) ≠ ("POST", "/admin/clear_history") ->
   (handle_http method path clock st).2 = st) /\
  handle_http "GET" "/status" clock st
    = (Status POD_NAME (now_iso clock) (connection_state st), st) /\
  ((method, path) ≠ ("POST", "/admin/clear_history") ->
   (method, path) ≠ ("GET", "/status") ->
   (method, path) ≠ ("GET", "/history") ->
   handle_http method path clock st
     = (Default POD_NAME (now_iso clock), st)).
Proof.
  unfold handle_http. repeat split.
  - repeat case_decide; reflexivity.
  - intros Hne. repeat case_decide; try reflexivity.
    match goal with H : _ = _ /\ _ = _ |- _ => destruct H as [-> ->] end.
    contradiction.
  - intros H1 H2 H3.
    repeat case_decide; try reflexivity;
      match goal with H : _ = _ /\ _ = _ |- _ => destruct H as [-> ->] end;
      contradiction.
Qed.
End Clients.

(** *** The HTTP client of the agent, and what the agent's globals hold *)

Section AgentRuns.
Context {parser : IsoParser} {pod : Config}.

Lemma run_http_app target l1 l2 cs :
  run_http target (l1 ++ l2) cs = run_http target l2 (run_http target l1 cs).
Proof. unfold run_http. apply foldl_app. Qed.

Lemma run_http_cons target o tk l cs :
  run_http target ((o, tk) :: l) cs
    = run_http target l (http_client_task target o tk cs).
Proof. reflexivity. Qed.

Lemma http_failure_down target tk c st :
  conn_status c = Error ->
  http_client_task target Failure tk (c, st)
    = (c, mark target HTTP "disconnected" (k_change tk) st).
Proof.
  intros Hc. unfold http_client_task.
  now destruct (decide (conn_status c = Error)).
Qed.

Lemma run_http_failures_down target l c st :
  conn_status c = Error ->
  (run_http target (failed_cycles l) (c, st)).1 = c /\
  HISTORY (run_http target (failed_cycles l) (c, st)).2 = HISTORY st.
Proof.
  intros Hc. revert st. induction l as [|tk l IH]; intros st.
  - split; reflexivity.
  - change (failed_cycles (tk :: l))
      with ((Failure, tk) :: failed_cycles l)%list.
    rewrite run_http_cons, http_failure_down by exact Hc.
    destruct (IH (mark target HTTP "disconnected" (k_change tk) st))
      as [I1 I2].
    split; [exact I1|]. rewrite I2. reflexivity.
Qed.

Lemma pod_outage_record_total target proto_ start_time_str clock start d :
  fromisoformat start_time_str = Some start ->
  Py.sub (utcnow clock) start = Some d ->
  outage_record target proto_ start_time_str clock =
  Some {| name := Str target; protocol := Str proto_;
          start_time := Str (isoformat start);
          end_time := Str (now_iso clock);
          duration_sec := Some (round2 (total_seconds d));
          source := Str "pod"; reporter := Str POD_NAME |}.
Proof. unfold outage_record. intros -> Hd. simpl. now rewrite Hd. Qed.

(** One outage of a link the agent probes over HTTP: a first failed cycle,
    any number of further failed cycles, then a completed one.  While the
    link is down [HISTORY] does not change; the completed cycle adds one
    record, in front, from the reading stored at the first failure to the
    reading taken at recovery, with the pod as source and reporter. *)
Theorem agent_http_one_record_per_outage
    (target : string) (tk tk_ok : ticks) (more : list ticks)
    (c : conn) (st : state) (t0 : datetime) (d : Z) :
  conn_status c ≠ Error ->
  fromisoformat (now_iso (k_since tk)) = Some t0 ->
  Py.sub (utcnow (k_end tk_ok)) t0 = Some d ->
  let down := ((Failure, tk) :: failed_cycles more)%list in
  conn_status (run_http target down (c, st)).1 = Error /\
  HISTORY (run_http target down (c, st)).2 = HISTORY st /\
  conn_status (run_http target (down ++ [(Success, tk_ok)]) (c, st)).1
    = Connected /\
  HISTORY (run_http target (down ++ [(Success, tk_ok)]) (c, st)).2
    = del_from MAX_HISTORY
        ({| name := Str target; protocol := Str "HTTP";
            start_time := Str (isoformat t0);
            end_time := Str (now_iso (k_end tk_ok));
            duration_sec := Some (round2 (total_seconds d));
            source := Str "pod"; reporter := Str POD_NAME |} :: HISTORY st).
Proof.
  intros Hc Ht0 Hd down.
  set (c1 := {| conn_status := Error; since := now_iso (k_since tk) |}).
  set (st1 := mark target HTTP "disconnected" (k_change tk) st).
  assert (run_http target down (c, st)
          = run_http target (failed_cycles more) (c1, st1)) as Hrun.
  { unfold down. rewrite run_http_cons. unfold http_client_task.
    now destruct (decide (conn_status c = Error)). }
  destruct (run_http_failures_down target more c1 st1 eq_refl) as [H1 H2].
  rewrite run_http_app, Hrun.
  destruct (run_http target (failed_cycles more) (c1, st1)) as [c2 st2].
  simpl in H1, H2. subst c2.
  repeat split; [exact H2|].
  rewrite run_http_cons. unfold run_http, http_client_task.
  cbn [foldl snd HISTORY mark conn_status c1].
  destruct (decide (Error = Error)); [|contradiction].
  rewrite record_outage_HISTORY.
  change (since c1) with (now_iso (k_since tk)).
  rewrite (pod_outage_record_total target "HTTP" _ _ t0 d Ht0 Hd).
  now rewrite H2.
Qed.

Lemma outage_record_own target proto_ start_time_str clock ev :
  outage_record target proto_ start_time_str clock = Some ev -> own_record ev.
Proof.
  unfold outage_record. intros Hev.
  destruct (fromisoformat start_time_str) as [start|]; [|discriminate].
  cbn [mbind option_bind] in Hev.
  destruct (Py.sub (utcnow clock) start) as [d|]; [|discriminate].
  cbn [mbind option_bind] in Hev. injection Hev as <-.
  unfold own_record. simpl. repeat split; eauto.
Qed.

Lemma record_outage_own target proto_ start_time_str clock st :
  Forall own_record (HISTORY st) ->
  Forall own_record
    (HISTORY (record_outage target proto_ start_time_str clock st)).
Proof.
  intros Hall. rewrite record_outage_HISTORY.
  destruct (outage_record _ _ _ _) as [ev|] eqn:E; [|exact Hall].
  unfold del_from. apply Forall_take. constructor; [|exact Hall].
  now apply outage_record_own in E.
Qed.

Lemma peers_keys (PEERS : list string) :
  (map (fun p => (p, unknown_link)) PEERS).*1 = PEERS.
Proof. induction PEERS as [|x l IH]; [reflexivity|]. cbn. now f_equal. Qed.

Lemma step_keeps_table st st' :
  step st st' ->
  dom (connection_state st') = dom (connection_state st) /\
  (Forall own_record (HISTORY st) -> Forall own_record (HISTORY st')).
Proof.
  destruct 1 as [p target a rd st|target o tk c st|method path clock st].
  - split.
    + rewrite stream_turn_connection_state. cbv zeta.
      case_decide; destruct a; rewrite ?dom_mark; reflexivity.
    + intros Hall. rewrite stream_turn_HISTORY.
      case_decide; [now apply record_outage_own|exact Hall].
  - unfold http_client_task. destruct o; cbn [snd]; rewrite dom_mark.
    + case_decide; [|tauto].
      rewrite record_outage_connection_state.
      split; [reflexivity|apply record_outage_own].
    + tauto.
  - unfold handle_http. repeat case_decide; simpl; split; auto.
Qed.

(** In every state the agent reaches, the status table has exactly the
    configured peers as its targets, and every record of [HISTORY] is one
    of its own: the source "pod", the reporter this pod, and the name, the
    protocol, both times and the duration all present.  The history the
    agent serves therefore holds no record without an end time. *)
Theorem agent_serves_its_own_complete_records
    (PEERS : list string) (st : state) :
  reachable PEERS st ->
  dom (connection_state st) = list_to_set PEERS /\
  Forall own_record (HISTORY st) /\
  Forall has_end_time (HISTORY st).
Proof.
  intros Hreach.
  assert (dom (connection_state st) = list_to_set PEERS /\
          Forall own_record (HISTORY st)) as [Hdom Hown].
  { induction Hreach as [|st st' _ [IHd IHo] Hstep].
    - split; [|constructor]. simpl.
      now rewrite dom_list_to_map_L, peers_keys.
    - apply step_keeps_table in Hstep as [Hd Ho].
      split; [now rewrite Hd|auto]. }
  repeat split; auto.
  eapply Forall_impl; [exact Hown|].
  intros h (_ & _ & _ & _ & _ & [clock He] & _).
  unfold has_end_time. rewrite He.
  apply Bastion_facts.truthy_Some, Bastion_facts.now_iso_nonempty.
Qed.
End AgentRuns.

Section Requests.
Context {parser : IsoParser} {cfg : Config}.

Lemma request_line_words (method path : string) (more : list string)
    (rest : string) :
  forallb is_word (method :: path :: more) = true ->
  request_line
    (Some (String.concat " " (method :: path :: more) +:+ CRLF +:+ rest))
  = Some (method, path).
Proof.
  intros Hws. unfold request_line, splitlines_0.
  assert (is_word method = true) as Hm.
  { cbn [forallb] in Hws. now apply andb_true_iff in Hws as [? _]. }
  pose proof (concat_nonempty method (path :: more) Hm) as Hne.
  destruct (String.concat " " (method :: path :: more) +:+ CRLF +:+ rest)
    eqn:E.
  { destruct (String.concat " " (method :: path :: more));
      [congruence|discriminate]. }
  rewrite <- E. cbn [mbind option_bind].
  rewrite first_line_concat by exact Hws.
  destruct (String.concat " " (method :: path :: more)) eqn:E';
    [congruence|].
  rewrite <- E', split_concat by exact Hws. reflexivity.
Qed.

Lemma request_line_one_word (method rest : string) :
  graphic method = true ->
  request_line (Some (method +:+ CRLF +:+ rest))
  = match method with "" => Some ("GET", "/") | _ => None end.
Proof.
  intros Hg. unfold request_line, splitlines_0.
  destruct method as [|c m]; [reflexivity|].
  change (String c m +:+ CRLF +:+ rest) with (String c (m +:+ CRLF +:+ rest)).
  cbn [mbind option_bind].
  change (String c (m +:+ CRLF +:+ rest)) with (String c m +:+ CRLF +:+ rest).
  rewrite first_line_graphic by exact Hg.
  change (first_line (CRLF +:+ rest)) with "".
  rewrite append_empty_r.
  unfold split.
  pose proof (split_from_graphic (String c m) "" "" Hg) as Hw.
  rewrite append_empty_r in Hw. rewrite Hw. reflexivity.
Qed.

(** [handle_http] routes a request on the first two words of its first
    line, whatever follows them: for a request line of words in printable
    ASCII, one space between them, ended by CR LF, the response and the
    effect are those of the route of the method and the path. *)
Theorem request_is_routed_on_its_first_two_words
    (method path : string) (more : list string) (rest : string)
    (clock : datetime) (st : state) :
  forallb is_word (method :: path :: more) = true ->
  handle_http_read
    (Some (String.concat " " (method :: path :: more) +:+ CRLF +:+ rest))
    clock st
  = Some (handle_http method path clock st).
Proof.
  intros Hws. unfold handle_http_read.
  now rewrite request_line_words by exact Hws.
Qed.

(** The edges of the request line.  When nothing was read, and when the
    first line is empty, the request is served as GET /: the default
    document, and no global changes.  When the first line has a method
    and no path, and when what was read decodes to the empty text, the
    index raises: no response is written. *)
Theorem request_without_path_gets_no_response
    (method rest : string) (clock : datetime) (st : state) :
  graphic method = true ->
  handle_http_read (Some (method +:+ CRLF +:+ rest)) clock st
    = match method with
      | "" => Some (Default POD_NAME (now_iso clock), st)
      | _ => None
      end /\
  handle_http_read None clock st
    = Some (Default POD_NAME (now_iso clock), st) /\
  handle_http_read (Some "") clock st = None.
Proof.
  intros Hg. unfold handle_http_read.
  rewrite request_line_one_word by exact Hg.
  destruct method; repeat split; reflexivity.
Qed.

End Requests.

Section Peers.

(** The agent takes the pieces of [PEERS] between the commas as they are,
    nothing trimmed and nothing skipped: joined by commas they give the
    text back.  There is always at least one piece, and the table starts
    with one row for each distinct piece. *)
Theorem agent_targets_are_the_pieces_of_PEERS (peers_str : string) :
  String.concat "," (PEERS_of peers_str) = peers_str /\
  PEERS_of peers_str <> [] /\
  dom (connection_state (initial (PEERS_of peers_str)))
    = list_to_set (PEERS_of peers_str).
Proof.
  unfold PEERS_of, split_sep. repeat split.
  - apply concat_split_sep_from.
  - apply split_sep_from_nonempty.
  - simpl. now rewrite dom_list_to_map_L, peers_keys.
Qed.

End Peers.

End Pod_facts.

(** ** The first dashboard *)

Module Dashboard_facts.
Import Py Py_facts Dashboard.

Lemma dashboard_perform_tables a st :
  external_tests (perform a st)
    = match a with
      | Probe p n o clock =>
          <[Bastion.label n p := row_of o clock]> (external_tests st)
      | PollTurn _ _ _ => external_tests st
      end /\
  internal_status (perform a st)
    = match a with
      | Probe _ _ _ _ => internal_status st
      | PollTurn n base_url resp =>
          <[n := stored base_url resp]> (internal_status st)
      end.
Proof. destruct a as [p n [|e] clock|n base_url resp]; split; reflexivity. Qed.

(** However the cycles of the probers and the turns of the pollers are
    interleaved, each row of [external_tests] shows the last cycle of its
    own prober ("connected" with an empty error text, or "error" with the
    text of the exception), and each entry of [internal_status] is what
    the last turn of its own poller stored: the document, or the
    placeholder with the text of the exception and the status URL.  A row
    or an entry whose task has not run is as it was. *)
Theorem dashboard_tables_show_each_task_last_step
    (acts : list action) (st : state) (nm proto : string) :
  known_protocols acts ->
  proto ∈ Bastion.protocols ->
  external_tests (schedule acts st) !! Bastion.label nm proto
    = match last (cycles_of nm proto acts) with
      | Some (o, clock) => Some (row_of o clock)
      | None => external_tests st !! Bastion.label nm proto
      end /\
  internal_status (schedule acts st) !! nm
    = match last (responses_of nm acts) with
      | Some (base_url, resp) => Some (stored base_url resp)
      | None => internal_status st !! nm
      end.
Proof.
  intros Hknown Hproto.
  induction acts as [|a acts IH] using rev_ind; [split; reflexivity|].
  apply Forall_app in Hknown as [Hknown Ha].
  apply Forall_cons in Ha as [Ha _].
  destruct (IH Hknown) as [IHrow IHsnap]. clear IH.
  unfold schedule in *. rewrite foldl_snoc.
  unfold cycles_of, responses_of in *. rewrite !omap_app.
  destruct (dashboard_perform_tables a (foldl (fun s a0 => perform a0 s) st acts))
    as [-> ->].
  destruct a as [p n o clock|n base_url resp]; simpl.
  - rewrite app_nil_r. split; [|exact IHsnap].
    case_decide as Hsame.
    + destruct Hsame as [-> ->]. rewrite last_snoc. apply lookup_insert_eq.
    + rewrite app_nil_r, lookup_insert_ne; [exact IHrow|].
      intros Heq.
      apply Bastion_facts.label_inj in Heq; [tauto|exact Ha|exact Hproto].
  - rewrite app_nil_r. split; [exact IHrow|].
    case_decide as Hsame.
    + subst n. rewrite last_snoc. apply lookup_insert_eq.
    + rewrite app_nil_r. now rewrite lookup_insert_ne.
Qed.

End Dashboard_facts.

(** ** Runs of the model on concrete data *)

Module Runs.
Import Py Py_facts Scenario.

#[local] Existing Instance Scenario.parser.
#[local] Existing Instance Scenario.pod.
#[local] Existing Instance Scenario.sorter.

(** *** The agent's stream clients *)

(** C1, where the code departs from it.  The agent's WebSocket client
    builds its record when the connection drops, not when it is back: the
    record spans the turn of the loop, from its top to the drop, which is
    the time the connection was up.  After the first drop the link is down
    and a record of ten seconds is already in [HISTORY]; the link staying
    down adds nothing; the outage from 00:00:10 to 00:00:25 is never
    recorded, and the next record is the thirty seconds the second
    connection lasted. *)
Theorem agent_ws_client_records_at_disconnect :
  Pod.HISTORY (Pod.run_stream Pod.WS "peer-2-svc" first_drop agent0)
    = [{| name := Str "peer-2-svc"; protocol := Str "WS";
          start_time := Str "2025-01-01T00:00:00+00:00";
          end_time := Str "2025-01-01T00:00:10+00:00";
          duration_sec := Some 1000;
          source := Str "pod"; reporter := Str "peer-1-7d9f" |}] /\
  Pod.status_of "peer-2-svc" Pod.WS
    (Pod.run_stream Pod.WS "peer-2-svc" first_drop agent0) = "disconnected" /\
  Pod.status_of "peer-2-svc" Pod.WS
    (Pod.run_stream Pod.WS "peer-2-svc" still_down agent0) = "disconnected" /\
  Pod.HISTORY (Pod.run_stream Pod.WS "peer-2-svc" still_down agent0)
    = Pod.HISTORY (Pod.run_stream Pod.WS "peer-2-svc" first_drop agent0) /\
  Pod.HISTORY (Pod.run_stream Pod.WS "peer-2-svc" second_drop agent0)
    = [{| name := Str "peer-2-svc"; protocol := Str "WS";
          start_time := Str "2025-01-01T00:00:25+00:00";
          end_time := Str "2025-01-01T00:00:55+00:00";
          duration_sec := Some 3000;
          source := Str "pod"; reporter := Str "peer-1-7d9f" |};
        {| name := Str "peer-2-svc"; protocol := Str "WS";
          start_time := Str "2025-01-01T00:00:00+00:00";
          end_time := Str "2025-01-01T00:00:10+00:00";
          duration_sec := Some 1000;
          source := Str "pod"; reporter := Str "peer-1-7d9f" |}].
Proof. repeat split; vm_compute; reflexivity. Qed.

(** The observer's prober on the scenario of the specification: the link
    fails at 0 s, fails again at 1 s and recovers at 2 s; one record of two
    seconds results. *)
Lemma observer_prober_scenario :
  Bastion.history
    (Bastion.run_prober (cfg := bastion 200) "HTTP" "peer-1-route"
       [(Bastion.Failure "timeout", tick 0);
        (Bastion.Failure "timeout", tick 1);
        (Bastion.Success, tick 2)]
       (Bastion.start_conn (clock_at 0 0), Bastion.initial)).2
  = [{| name := Str "peer-1-route"; protocol := Str "HTTP";
        start_time := Str "2025-01-01T00:00:00+00:00";
        end_time := Str "2025-01-01T00:00:02+00:00";
        duration_sec := Some 200;
        source := Str "bastion"; reporter := Absent |}].
Proof.
  refine (proj2 (proj2 (proj2
    (Bastion_facts.observer_prober_one_record_per_outage
       (cfg := bastion 200) "HTTP" "peer-1-route" "timeout"
       (tick 0) (tick 2) [("timeout", tick 1)]
       (Bastion.start_conn (clock_at 0 0)) Bastion.initial
       (utcnow (clock_at 0 0)) 2000000 _ _ _)))).
  - discriminate.
  - vm_compute; reflexivity.
  - vm_compute; reflexivity.
Defined.

(** the history query on the agent after its first record *)
Lemma history_query_after_first_drop :
  Pod.handle_http "GET" "/history" (clock_at 60 0)
    (Pod.stream_turn Pod.WS "peer-2-svc" (Pod.Dropped (clock_at 0 500000))
       (turn 0 10) agent0)
  = (Pod.History
       (Pod.HISTORY
          (Pod.stream_turn Pod.WS "peer-2-svc"
             (Pod.Dropped (clock_at 0 500000)) (turn 0 10) agent0)),
     Pod.stream_turn Pod.WS "peer-2-svc" (Pod.Dropped (clock_at 0 500000))
       (turn 0 10) agent0).
Proof.
  refine (proj1 (proj2 (proj2
    (Pod_facts.history_query_serves_whole_history ["peer-2-svc"] _ _)))
    (clock_at 60 0)).
  eapply Pod.reach_step; [apply Pod.reach_initial|apply Pod.step_stream].
Defined.

(** *** The cutoff *)


(** a record whose end time is no timestamp passes a set cutoff *)
Lemma malformed_end_time_is_kept :
  Bastion._is_after_cutoff (Some (now_iso (clock_at 10 0))) malformed = true.
Proof.
  refine (proj1
    (Bastion_facts.cutoff_filter_fails_open (cfg := bastion 200)
       (Some (now_iso (clock_at 10 0))) malformed _)).
  right. left. vm_compute; reflexivity.
Defined.

(** *** Merges *)



(** *** The sort *)


(** *** The order and the bound of the history *)

(** C5, where the code departs from it.  The local insertion does not
    sort: with room for two records and a history that holds the two records
    of a peer whose clock runs ahead, ending at 00:00:10 and 00:00:08, the
    record of the observer's own prober, which ended at 00:00:05, is put in
    front, and the record that ended at 00:00:08 is the one trimmed; the
    history is not in descending order and does not hold the two latest
    records.  And the merge does not trim when its sort raises: a peer
    reports a record whose end time is a number, then two records whose
    end times are strings, then one more; the history holds one, then
    three, then four records, the record that ended first in front. *)
Theorem history_loses_order_and_bound :
  map end_key (Bastion.history merged_ahead)
    = ["2025-01-01T00:00:10+00:00"; "2025-01-01T00:00:08+00:00"] /\
  map end_key (Bastion.history after_local_recovery)
    = ["2025-01-01T00:00:05+00:00"; "2025-01-01T00:00:10+00:00"] /\
  ~ StronglySorted (desc end_key) (Bastion.history after_local_recovery) /\
  (reported "peer-3-svc" 7 8 ∉ Bastion.history after_local_recovery) /\
  Bastion.history after_number = [numeric_end] /\
  Bastion.history after_strings
    = [reported "peer-2-svc" 4 5; reported "peer-3-svc" 6 8; numeric_end] /\
  Bastion.history after_one_more
    = [reported "peer-2-svc" 9 10; reported "peer-2-svc" 4 5;
       reported "peer-3-svc" 6 8; numeric_end] /\
  Bastion.MAX_HISTORY (Config := bastion 2) = 2.
Proof.
  split; [vm_compute; reflexivity|]. split; [vm_compute; reflexivity|].
  split; [|split; [|repeat split; vm_compute; reflexivity]].
  - intros Hs. vm_compute in Hs.
    apply StronglySorted_inv in Hs as [_ Hfirst].
    apply Forall_cons in Hfirst as [Hle _].
    vm_compute in Hle. discriminate Hle.
  - intros Hin. vm_compute in Hin.
    repeat (apply elem_of_cons in Hin as [Hin|Hin]; [discriminate Hin|]).
    now apply elem_of_nil in Hin.
Qed.

(** *** The duration *)

(** A start time one second after the clock reading, as after a step back
    of the wall clock: the record stores minus one second. *)
Lemma negative_duration_is_stored :
  Bastion.history
    (Bastion.log_disconnection_event (cfg := bastion 200)
       "peer-1-route" "HTTP" (now_iso (clock_at 1 0)) "bastion"
       (clock_at 0 0) Bastion.initial)
  = [{| name := Str "peer-1-route"; protocol := Str "HTTP";
        start_time := Str "2025-01-01T00:00:01+00:00";
        end_time := Str "2025-01-01T00:00:00+00:00";
        duration_sec := Some (-100);
        source := Str "bastion"; reporter := Absent |}] /\
  Pod.HISTORY
    (Pod.record_outage "peer-2-svc" "HTTP" (now_iso (clock_at 1 0))
       (clock_at 0 0) agent0)
  = [{| name := Str "peer-2-svc"; protocol := Str "HTTP";
        start_time := Str "2025-01-01T00:00:01+00:00";
        end_time := Str "2025-01-01T00:00:00+00:00";
        duration_sec := Some (-100);
        source := Str "pod"; reporter := Str "peer-1-7d9f" |}].
Proof. split; vm_compute; reflexivity. Qed.

(** *** Further runs *)

(** a record the clear at 00:00:10 dropped is dropped after the clear at
    00:00:20 *)
Lemma second_clear_still_drops :
  Bastion._is_after_cutoff
    (Bastion.HISTORY_IGNORE_BEFORE
       (Bastion.handle_clear_history (clock_at 20 0) Bastion.initial).2)
    (reported "peer-2-svc" 5 9) = false.
Proof.
  refine (Bastion_facts.later_clear_suppresses_more
            (clock_at 10 0) (clock_at 20 0) merged_ahead Bastion.initial
            (reported "peer-2-svc" 5 9) _ _ _ _).
  - vm_compute; reflexivity.
  - vm_compute; reflexivity.
  - vm_compute. discriminate.
  - vm_compute; reflexivity.
Defined.

(** the bound after a turn of a reconciliation loop *)
Lemma polled_once_is_bounded :
  Z.of_nat (length (Bastion.history polled_once)) <= 2.
Proof.
  refine (proj1 (Bastion_facts.observer_state_is_well_kept
                   (cfg := bastion 2) polled_once _ _) _).
  - vm_compute. discriminate.
  - eapply Bastion.reach_step;
      [apply Bastion.reach_initial|apply Bastion.step_poll].
  - vm_compute. repeat constructor.
Defined.

(** after a clear at 00:00:09 the first merge of the batch of the peer
    ahead keeps the record that ended at 00:00:10 only *)
Lemma first_merge_after_clear_at_nine :
  Bastion.history
    (Bastion.merge_history (cfg := bastion 200) ahead
       (Bastion.handle_clear_history (clock_at 9 0) merged_ahead).2)
  = [reported "peer-2-svc" 9 10].
Proof.
  refine (proj1 (Bastion_facts.first_merge_after_clear (cfg := bastion 200)
                   (clock_at 9 0) merged_ahead ahead) _ _).
  - vm_compute. repeat constructor.
  - vm_compute. repeat constructor.
Defined.

(** the rows after the mixed schedule: the route's prober failed last *)
Lemma mixed_schedule_rows :
  Bastion.external_tests (Bastion.schedule (cfg := bastion 200) mixed
                            Bastion.initial)
    !! Bastion.label "peer-1-route" "HTTP"
  = Some {| Bastion.te_status := "error"; Bastion.te_error := "timeout";
            Bastion.te_last_update := "2025-01-01T00:00:03+00:00" |}.
Proof.
  refine (proj1 (Bastion_facts.tables_show_each_task_last_step
                   (cfg := bastion 200) mixed Bastion.initial
                   "peer-1-route" "HTTP" _ _)).
  - unfold Bastion.known_protocols, mixed, Bastion.protocols.
    repeat constructor.
  - unfold Bastion.protocols. repeat constructor.
Defined.

Lemma mixed_dashboard_rows :
  Dashboard.external_tests (Dashboard.schedule mixed_dashboard
                              Dashboard.initial)
    !! Bastion.label "peer-1-route" "HTTP"
  = Some {| Bastion.te_status := "error"; Bastion.te_error := "timeout";
            Bastion.te_last_update := "2025-01-01T00:00:03+00:00" |}.
Proof.
  refine (proj1 (Dashboard_facts.dashboard_tables_show_each_task_last_step
                   mixed_dashboard Dashboard.initial
                   "peer-1-route" "HTTP" _ _)).
  - unfold Dashboard.known_protocols, mixed_dashboard, Bastion.protocols.
    repeat constructor.
  - unfold Bastion.protocols. repeat constructor.
Defined.

(** the text of 00:00:05 sorts before the text of 00:00:10 *)
Lemma earlier_reading_sorts_first :
  str_le (now_iso (clock_at 5 0)) (now_iso (clock_at 10 0)).
Proof.
  refine (proj2 (proj1 (Bastion_facts.end_time_order_is_chronological
                          (parser := parser)
                          (clock_at 5 0) (clock_at 10 0) _ _)) _).
  - unfold valid_reading, valid_date. vm_compute.
    repeat split; try reflexivity; intros H; discriminate H.
  - unfold valid_reading, valid_date. vm_compute.
    repeat split; try reflexivity; intros H; discriminate H.
  - vm_compute. discriminate.
Defined.

(** the agent's WebSocket client after its first turn, and two refused
    attempts *)
Lemma link_is_down_after_first_turn :
  Pod.status_of "peer-2-svc" Pod.WS dropped_once = "disconnected".
Proof.
  refine (proj1 (Pod_facts.stream_client_leaves_link_disconnected
                   Pod.WS "peer-2-svc" (Pod.Dropped (clock_at 0 500000))
                   (turn 0 10) agent0 [turn 11 11; turn 12 12] _)).
  eexists. vm_compute. reflexivity.
Defined.

(** the turn of the WebSocket client left the HTTP status alone *)
Lemma http_status_untouched_by_ws_turn :
  Pod.status_of "peer-2-svc" Pod.HTTP dropped_once
  = Pod.status_of "peer-2-svc" Pod.HTTP agent0.
Proof.
  refine (proj1 (Pod_facts.client_marks_its_own_link_only
                   Pod.WS Pod.HTTP "peer-2-svc" "peer-2-svc" agent0 _)
            (Pod.Dropped (clock_at 0 500000)) (turn 0 10)).
  discriminate.
Defined.

(** the agent's HTTP client on the scenario of the specification *)
Lemma agent_http_scenario :
  Pod.HISTORY
    (Pod.run_http "peer-2-svc"
       [(Pod.Failure, ktick 0); (Pod.Failure, ktick 1);
        (Pod.Success, ktick 2)]
       ({| Pod.conn_status := Pod.Unknown;
           Pod.since := now_iso (clock_at 0 0) |}, agent0)).2
  = [{| name := Str "peer-2-svc"; protocol := Str "HTTP";
        start_time := Str "2025-01-01T00:00:00+00:00";
        end_time := Str "2025-01-01T00:00:02+00:00";
        duration_sec := Some 200;
        source := Str "pod"; reporter := Str "peer-1-7d9f" |}].
Proof.
  refine (proj2 (proj2 (proj2
    (Pod_facts.agent_http_one_record_per_outage "peer-2-svc"
       (ktick 0) (ktick 2) [ktick 1]
       {| Pod.conn_status := Pod.Unknown;
          Pod.since := now_iso (clock_at 0 0) |} agent0
       (utcnow (clock_at 0 0)) 2000000 _ _ _)))).
  - discriminate.
  - vm_compute; reflexivity.
  - vm_compute; reflexivity.
Defined.

(** the table of the agent after the first turn *)
Lemma agent_table_after_first_turn :
  dom (Pod.connection_state dropped_once) = list_to_set ["peer-2-svc"].
Proof.
  refine (proj1 (Pod_facts.agent_serves_its_own_complete_records
                   ["peer-2-svc"] dropped_once _)).
  eapply Pod.reach_step; [apply Pod.reach_initial|apply Pod.step_stream].
Defined.

(** the request of the observer's fan-out, served by the agent *)
Lemma fanout_request_clears_the_agent :
  Pod.handle_http_read
    (Some ("POST /admin/clear_history HTTP/1.1" +:+ CRLF +:+ "Host: peer-1"))
    (clock_at 30 0) dropped_once
  = Some (Pod.ClearOk "peer-1-7d9f" "2025-01-01T00:00:30+00:00",
          Pod.with_HISTORY [] dropped_once).
Proof.
  refine (Pod_facts.request_is_routed_on_its_first_two_words
            "POST" "/admin/clear_history" ["HTTP/1.1"] "Host: peer-1"
            (clock_at 30 0) dropped_once _).
  reflexivity.
Defined.

(** a request line that is a method alone *)
Lemma lone_method_gets_no_response :
  Pod.handle_http_read (Some ("GET" +:+ CRLF +:+ "")) (clock_at 30 0)
    dropped_once = None.
Proof.
  refine (proj1 (Pod_facts.request_without_path_gets_no_response
                   "GET" "" (clock_at 30 0) dropped_once _)).
  reflexivity.
Defined.

(** a list of routes written with spaces and an empty entry *)
Lemma routes_written_with_spaces :
  Bastion.load_route_peers
    "http://peer-1-route, http://peer-2-route ,,  http://peer-3-route"
  = ["http://peer-1-route"; "http://peer-2-route"; "http://peer-3-route"].
Proof.
  refine (Bastion_facts.route_list_round_trip
            [(0, "http://peer-1-route", 0); (1, "http://peer-2-route", 1);
             (0, "", 0); (2, "http://peer-3-route", 0)]%nat _).
  repeat (apply List.Forall_cons;
          [split; [reflexivity|];
           intros H; simpl in H;
           repeat (destruct H as [H|H]; [discriminate H|]); exact H|]).
  apply List.Forall_nil.
Defined.

End Runs.
